(** * bngo: factor algebra, DAG and structure-learning kernels

    A shallow embedding of the Go sources of the bngo Bayesian-network
    library, with the properties stated by its specification.

    Conventions used throughout.
    - A Go [map[string]T] is a [gmap string T]; reading a missing key
      yields the zero value of [T], written with [default].
    - A Go [map[string]bool] whose entries are only ever set to [true]
      is a [gset string].
    - A Go [float64] is a primitive binary64 [float].
    - A Go [int] is a [Z] kept in the 64-bit two's-complement range by
      [wrap64] wherever the source multiplies or adds.
    - A Go [(T, error)] result is a [result T]; a run-time panic (index
      out of range, negative [make] length) is the separate outcome
      [Panic]. *)

From Stdlib Require Import ZArith Uint63 Floats.
From stdpp Require Import gmap strings list sorting fin_maps fin_sets.

Local Open Scope Z_scope.
#[local] Set Warnings "-clear-no-such-hyp,-inexact-float".

(** ** Outcomes of fallible calls *)

Inductive result (A : Type) : Type :=
  | Ok (a : A)
  | Err (msg : string)
  | Panic.
Arguments Ok {A} a.
Arguments Err {A} msg.
Arguments Panic {A}.

Definition is_err {A} (r : result A) : Prop :=
  match r with Err _ => True | _ => False end.

(** [sort.Strings]: byte-wise lexicographic order. *)
Definition sort_strings : list string → list string := merge_sort String.le.

Lemma sort_strings_Permutation l : sort_strings l ≡ₚ l.
Proof. apply merge_sort_Permutation. Qed.

Lemma elem_of_sort_strings x l : x ∈ sort_strings l ↔ x ∈ l.
Proof. by rewrite sort_strings_Permutation. Qed.

(** ** List helpers *)

Lemma filter_ext_elem_of {A} (P Q : A → Prop)
    `{!∀ x, Decision (P x)} `{!∀ x, Decision (Q x)} (l : list A) :
  (∀ x, x ∈ l → P x ↔ Q x) → filter P l = filter Q l.
Proof.
  induction l as [|a l IH]; intros HPQ; [done|].
  rewrite !filter_cons.
  rewrite IH by (intros x Hx; apply HPQ; by right).
  destruct (decide (P a)) as [HP|HP], (decide (Q a)) as [HQ|HQ]; try done.
  - destruct HQ. apply HPQ; [by left|done].
  - destruct HP. apply HPQ; [by left|done].
Qed.

Lemma fmap_list_bind {A B C} (f : B → C) (g : A → list B) (l : list A) :
  f <$> (l ≫= g) = l ≫= (fun x => f <$> g x).
Proof.
  induction l as [|a l IH]; [done|].
  by rewrite !bind_cons, fmap_app, IH.
Qed.

Lemma filter_none {A} (P : A → Prop) `{!∀ x, Decision (P x)} (l : list A) :
  (∀ x, x ∈ l → ¬ P x) → filter P l = [].
Proof.
  induction l as [|a l IH]; intros Hall; [done|].
  rewrite filter_cons_False by (apply Hall; by left).
  apply IH. intros x Hx. apply Hall. by right.
Qed.

Lemma foldl_ext_elem {A B} (f g : A → B → A) (l : list B) :
  (∀ a x, x ∈ l → f a x = g a x) → ∀ a, foldl f a l = foldl g a l.
Proof.
  induction l as [|b l IH]; intros Hfg a; simpl; [done|].
  rewrite Hfg by (by left). apply IH. intros a' x Hx. apply Hfg. by right.
Qed.

(** ** Binary64 facts

    [<] on floats is a strict order (where it holds at all: it is false
    as soon as one side is NaN), and [*] is commutative. *)

Lemma lex_pos_lt (e1 e2 : Z) (m1 m2 : positive) :
  match e1 ?= e2 with
  | Lt => Lt | Gt => Gt | Eq => Pos.compare_cont Eq m1 m2
  end = Lt ↔ e1 < e2 ∨ (e1 = e2 ∧ (m1 < m2)%positive).
Proof.
  change (Pos.compare_cont Eq m1 m2) with (Pos.compare m1 m2).
  destruct (Z.compare_spec e1 e2) as [->|Hlt|Hgt].
  - rewrite Pos.compare_lt_iff. split; [by right|]. intros [?|[_ ?]]; [lia|done].
  - split; [by left|done].
  - split; [done|]. intros [?|[? _]]; lia.
Qed.

Lemma lex_neg_lt (e1 e2 : Z) (m1 m2 : positive) :
  match e1 ?= e2 with
  | Lt => Gt | Gt => Lt | Eq => CompOpp (Pos.compare_cont Eq m1 m2)
  end = Lt ↔ e2 < e1 ∨ (e1 = e2 ∧ (m2 < m1)%positive).
Proof.
  change (Pos.compare_cont Eq m1 m2) with (Pos.compare m1 m2).
  destruct (Z.compare_spec e1 e2) as [->|Hlt|Hgt].
  - rewrite <- Pos.compare_antisym, Pos.compare_lt_iff.
    split; [by right|]. intros [?|[_ ?]]; [lia|done].
  - split; [done|]. intros [?|[? _]]; lia.
  - split; [by left|done].
Qed.

Lemma SFcompare_Lt_trans (x y z : spec_float) :
  SFcompare x y = Some Lt → SFcompare y z = Some Lt → SFcompare x z = Some Lt.
Proof.
  destruct x as [sx|sx| |sx mx ex], y as [sy|sy| |sy my ey],
           z as [sz|sz| |sz mz ez]; simpl; try discriminate;
    repeat match goal with s : bool |- _ => destruct s end;
    try discriminate; try reflexivity;
    intros [= H1] [= H2]; f_equal;
    rewrite ?lex_pos_lt, ?lex_neg_lt in *; lia.
Qed.

Lemma SFcompare_irrefl (x : spec_float) : SFcompare x x ≠ Some Lt.
Proof.
  destruct x as [s|s| |s m e]; simpl; try discriminate;
    destruct s; try discriminate; intros [= H];
    rewrite ?lex_pos_lt, ?lex_neg_lt in H; lia.
Qed.

Lemma float_ltb_trans (x y z : float) :
  (x <? y)%float = true → (y <? z)%float = true → (x <? z)%float = true.
Proof.
  rewrite !FloatAxioms.ltb_spec. unfold SFltb.
  destruct (SFcompare (Prim2SF x) (Prim2SF y)) as [[]|] eqn:E1; try discriminate.
  destruct (SFcompare (Prim2SF y) (Prim2SF z)) as [[]|] eqn:E2; try discriminate.
  by rewrite (SFcompare_Lt_trans _ _ _ E1 E2).
Qed.

Lemma float_ltb_irrefl (x : float) : (x <? x)%float = false.
Proof.
  rewrite FloatAxioms.ltb_spec. unfold SFltb.
  pose proof (SFcompare_irrefl (Prim2SF x)).
  by destruct (SFcompare (Prim2SF x) (Prim2SF x)) as [[]|].
Qed.

Lemma SFmul_comm prec emax (x y : spec_float) :
  SFmul prec emax x y = SFmul prec emax y x.
Proof.
  destruct x as [sx|sx| |sx mx ex], y as [sy|sy| |sy my ey]; simpl;
    try reflexivity; try (by rewrite xorb_comm).
  by rewrite xorb_comm, Pos.mul_comm, Z.add_comm.
Qed.

Lemma float_mul_comm (x y : float) : (x * y)%float = (y * x)%float.
Proof.
  apply FloatAxioms.Prim2SF_inj. rewrite !FloatAxioms.mul_spec. apply SFmul_comm.
Qed.

(** ** Package graph *)

Module Graph.

(** [type DAG struct { nodes; edges; parents }] *)
Record DAG : Type := mkDAG {
  nodes : gset string;
  edges : gmap string (gset string);   (* parent -> children *)
  parents : gmap string (gset string)  (* child -> parents *)
}.

(** [d.edges[n]] and [d.parents[n]] read as the empty (nil) map when the
    key is absent. *)
Definition children_of (d : DAG) (n : string) : gset string :=
  default ∅ (edges d !! n).
Definition parents_of (d : DAG) (n : string) : gset string :=
  default ∅ (parents d !! n).

Definition NewDAG : DAG := mkDAG ∅ ∅ ∅.

Definition AddNode (node : string) (d : DAG) : DAG :=
  if decide (node ∈ nodes d) then d
  else mkDAG ({[node]} ∪ nodes d)
             (<[node := ∅]> (edges d))
             (<[node := ∅]> (parents d)).

(** [ancestorsHelper]: depth-first search along [d.parents].  The
    recursion of the source is bounded here by [fuel]; [None] means the
    bound was hit. *)
Fixpoint ancestorsHelper (fuel : nat) (d : DAG) (node : string)
    (visited : gset string) : option (gset string) :=
  match fuel with
  | O => None
  | S fuel' =>
      if decide (node ∈ visited) then Some visited
      else
        foldl (fun acc parent =>
                 match acc with
                 | Some vis => ancestorsHelper fuel' d parent vis
                 | None => None
                 end)
              (Some ({[node]} ∪ visited))
              (elements (parents_of d node))
  end.

(** Every string that occurs as somebody's parent. *)
Definition parent_universe (d : DAG) : gset string :=
  ⋃ (map_to_list (parents d)).*2.

(** A nesting depth that the search cannot exceed: each nested call
    marks a string not marked before. *)
Definition search_fuel (d : DAG) : nat := 2 + size (parent_universe d).

(** [Ancestors]: the visited set without [node] itself, sorted. *)
Definition Ancestors (d : DAG) (node : string) : list string :=
  match ancestorsHelper (search_fuel d) d node ∅ with
  | Some visited => sort_strings (elements (visited ∖ {[node]}))
  | None => []
  end.

Definition wouldCreateCycle (d : DAG) (parent child : string) : bool :=
  bool_decide (child ∈ Ancestors d parent).

(** [AddEdge] mutates the receiver and returns an error or nil: the
    model returns the new state and the optional error. *)
Definition AddEdge (parent child : string) (d : DAG) : DAG * option string :=
  let d1 := AddNode child (AddNode parent d) in
  if wouldCreateCycle d1 parent child then
    (d1, Some ("adding edge " +:+ parent +:+ " -> " +:+ child +:+
               " would create a cycle"))
  else
    (mkDAG (nodes d1)
           (<[parent := {[child]} ∪ children_of d1 parent]> (edges d1))
           (<[child := {[parent]} ∪ parents_of d1 child]> (parents d1)),
     None).

Definition RemoveEdge (parent child : string) (d : DAG) : DAG :=
  mkDAG (nodes d)
        (match edges d !! parent with
         | Some cs => <[parent := cs ∖ {[child]}]> (edges d)
         | None => edges d
         end)
        (match parents d !! child with
         | Some ps => <[child := ps ∖ {[parent]}]> (parents d)
         | None => parents d
         end).

(** [Parents]: the keys of [d.parents[node]], sorted. *)
Definition Parents (d : DAG) (node : string) : list string :=
  sort_strings (elements (parents_of d node)).

Definition HasEdge (d : DAG) (parent child : string) : bool :=
  bool_decide (child ∈ children_of d parent).

(** [TopologicalSort]: Kahn's algorithm.  [inDegree[child]--] on an
    absent key starts from the zero value. *)
Definition decr (inDegree : gmap string Z) (child : string) : gmap string Z :=
  <[child := default 0 (inDegree !! child) - 1]> inDegree.

Definition relax (st : gmap string Z * list string) (child : string)
    : gmap string Z * list string :=
  let inDegree := decr st.1 child in
  if decide (default 0 (inDegree !! child) = 0)
  then (inDegree, st.2 ++ [child])
  else (inDegree, st.2).

Fixpoint kahn_loop (fuel : nat) (d : DAG) (inDegree : gmap string Z)
    (queue result : list string) : option (list string) :=
  match fuel with
  | O => None
  | S fuel' =>
      match queue with
      | [] => Some result
      | _ :: _ =>
          match sort_strings queue with
          | [] => None
          | node :: queue' =>
              let st := foldl relax (inDegree, queue')
                          (elements (children_of d node)) in
              kahn_loop fuel' d st.1 st.2 (result ++ [node])
          end
      end
  end.

Definition initial_inDegree (d : DAG) : gmap string Z :=
  set_to_map (fun node => (node, Z.of_nat (size (parents_of d node)))) (nodes d).

Definition initial_queue (inDegree : gmap string Z) : list string :=
  (filter (fun kv => kv.2 = 0) (map_to_list inDegree)).*1.

(** [None]: the iteration bound was hit (never the case on a
    well-formed graph, see [TopologicalSort_total]). *)
Definition TopologicalSort (d : DAG) : option (result (list string)) :=
  let inDegree := initial_inDegree d in
  match kahn_loop (S (size (nodes d))) d inDegree (initial_queue inDegree) [] with
  | None => None
  | Some order =>
      if decide (length order ≠ size (nodes d))
      then Some (Err "cycle detected in graph")
      else Some (Ok order)
  end.

(** *** Well-formed graphs

    The state invariant that the exported mutators maintain: every
    recorded parent and child is a node, and the two adjacency maps
    mirror each other. *)
Record wf (d : DAG) : Prop := {
  wf_nodes : ∀ c p, p ∈ parents_of d c → p ∈ nodes d ∧ c ∈ nodes d;
  wf_mirror : ∀ p c, c ∈ children_of d p ↔ p ∈ parents_of d c
}.

(** States built through the exported interface. *)
Inductive reachable : DAG → Prop :=
  | reach_new : reachable NewDAG
  | reach_node d n : reachable d → reachable (AddNode n d)
  | reach_edge d p c : reachable d → reachable (AddEdge p c d).1
  | reach_remove d p c : reachable d → reachable (RemoveEdge p c d).

Lemma parents_of_AddNode d n x :
  parents_of (AddNode n d) x =
  if decide (n ∈ nodes d) then parents_of d x
  else if decide (x = n) then ∅ else parents_of d x.
Proof.
  unfold AddNode, parents_of. destruct (decide (n ∈ nodes d)); [done|].
  simpl. destruct (decide (x = n)) as [->|].
  - by rewrite lookup_insert_eq.
  - by rewrite lookup_insert_ne.
Qed.

Lemma children_of_AddNode d n x :
  children_of (AddNode n d) x =
  if decide (n ∈ nodes d) then children_of d x
  else if decide (x = n) then ∅ else children_of d x.
Proof.
  unfold AddNode, children_of. destruct (decide (n ∈ nodes d)); [done|].
  simpl. destruct (decide (x = n)) as [->|].
  - by rewrite lookup_insert_eq.
  - by rewrite lookup_insert_ne.
Qed.

Lemma nodes_AddNode d n : nodes (AddNode n d) = {[n]} ∪ nodes d.
Proof.
  unfold AddNode. destruct (decide (n ∈ nodes d)); simpl; set_solver.
Qed.

Lemma AddNode_present d n : n ∈ nodes d → AddNode n d = d.
Proof. intros H. unfold AddNode. by rewrite decide_True. Qed.

Lemma wf_NewDAG : wf NewDAG.
Proof.
  split; unfold parents_of, children_of; simpl; intros *;
    rewrite ?lookup_empty; simpl; set_solver.
Qed.

Lemma wf_AddNode d n : wf d → wf (AddNode n d).
Proof.
  intros [Hn Hm]. split.
  - intros c p. rewrite parents_of_AddNode, nodes_AddNode.
    repeat case_decide; try set_solver.
    all: intros Hp; destruct (Hn _ _ Hp); set_solver.
  - intros p c. rewrite parents_of_AddNode, children_of_AddNode.
    specialize (Hm p c). pose proof (Hn c p) as Hn1. pose proof (Hn n p) as Hn2.
    pose proof (Hn c n) as Hn3.
    repeat case_decide; subst; set_solver.
Qed.

Lemma wf_add_edge d p c :
  wf d → p ∈ nodes d → c ∈ nodes d →
  wf (mkDAG (nodes d)
        (<[p := {[c]} ∪ children_of d p]> (edges d))
        (<[c := {[p]} ∪ parents_of d c]> (parents d))).
Proof.
  intros [Hn Hm] Hp Hc.
  set (d' := mkDAG _ _ _).
  assert (Hpar : ∀ x, parents_of d' x =
            if decide (x = c) then {[p]} ∪ parents_of d c else parents_of d x).
  { intros x. unfold parents_of at 1. simpl. case_decide; subst.
    - by rewrite lookup_insert_eq.
    - by rewrite lookup_insert_ne. }
  assert (Hch : ∀ x, children_of d' x =
            if decide (x = p) then {[c]} ∪ children_of d p else children_of d x).
  { intros x. unfold children_of at 1. simpl. case_decide; subst.
    - by rewrite lookup_insert_eq.
    - by rewrite lookup_insert_ne. }
  assert (Hnd : nodes d' = nodes d) by done.
  clearbody d'. split.
  - intros c' p'. rewrite Hpar, Hnd.
    case_decide; subst; [|apply Hn].
    rewrite elem_of_union, elem_of_singleton. intros [->|Hin]; [done|].
    by apply Hn.
  - intros p' c'. rewrite Hpar, Hch. specialize (Hm p' c').
    repeat case_decide; subst; rewrite ?elem_of_union, ?elem_of_singleton;
      naive_solver.
Qed.

Lemma wf_AddEdge d p c : wf d → wf (AddEdge p c d).1.
Proof.
  intros Hwf. unfold AddEdge.
  assert (Hwf1 : wf (AddNode c (AddNode p d))) by by do 2 apply wf_AddNode.
  case_match; simpl; [done|].
  apply wf_add_edge; [done|..]; rewrite !nodes_AddNode; set_solver.
Qed.

Lemma wf_RemoveEdge d p c : wf d → wf (RemoveEdge p c d).
Proof.
  intros [Hn Hm].
  assert (Hpar : ∀ x, parents_of (RemoveEdge p c d) x =
            if decide (x = c) then parents_of d x ∖ {[p]} else parents_of d x).
  { intros x. unfold RemoveEdge, parents_of. simpl.
    destruct (parents d !! c) eqn:E; case_decide; subst;
      rewrite ?lookup_insert_eq, ?lookup_insert_ne, ?E by done; simpl; set_solver. }
  assert (Hch : ∀ x, children_of (RemoveEdge p c d) x =
            if decide (x = p) then children_of d x ∖ {[c]} else children_of d x).
  { intros x. unfold RemoveEdge, children_of. simpl.
    destruct (edges d !! p) eqn:E; case_decide; subst;
      rewrite ?lookup_insert_eq, ?lookup_insert_ne, ?E by done; simpl; set_solver. }
  split.
  - intros c' p'. rewrite Hpar. simpl. case_decide; [|apply Hn].
    rewrite elem_of_difference. intros [Hin _]. by apply Hn.
  - intros p' c'. rewrite Hpar, Hch.
    specialize (Hm p' c').
    repeat case_decide; subst; rewrite ?elem_of_difference, ?elem_of_singleton;
      naive_solver.
Qed.

Lemma reachable_wf d : reachable d → wf d.
Proof.
  induction 1; auto using wf_NewDAG, wf_AddNode, wf_AddEdge, wf_RemoveEdge.
Qed.

(** *** The ancestor search *)

Definition visit_parents (fuel : nat) (d : DAG)
    (acc : option (gset string)) (l : list string) : option (gset string) :=
  foldl (fun acc parent =>
           match acc with
           | Some vis => ancestorsHelper fuel d parent vis
           | None => None
           end) acc l.

Lemma ancestorsHelper_S fuel d node visited :
  ancestorsHelper (S fuel) d node visited =
  if decide (node ∈ visited) then Some visited
  else visit_parents fuel d (Some ({[node]} ∪ visited))
         (elements (parents_of d node)).
Proof. reflexivity. Qed.

Lemma visit_parents_None fuel d l : visit_parents fuel d None l = None.
Proof. induction l; simpl; auto. Qed.

Lemma visit_parents_cons fuel d acc p l :
  visit_parents fuel d acc (p :: l) =
  visit_parents fuel d
    (match acc with Some vis => ancestorsHelper fuel d p vis | None => None end) l.
Proof. reflexivity. Qed.

Lemma elem_of_parent_universe d p :
  p ∈ parent_universe d ↔ ∃ c, p ∈ parents_of d c.
Proof.
  unfold parent_universe, parents_of. rewrite elem_of_union_list. split.
  - intros (X & HX & Hp). apply list_elem_of_fmap in HX as ([c ps] & -> & Hin).
    apply elem_of_map_to_list in Hin. exists c. by rewrite Hin.
  - intros (c & Hp). destruct (parents d !! c) as [ps|] eqn:E; simpl in Hp.
    + exists ps. split; [|done]. apply list_elem_of_fmap. exists (c, ps).
      split; [done|]. by apply elem_of_map_to_list.
    + set_solver.
Qed.

(** The search only ever marks the start node and recorded parents. *)
Lemma ancestorsHelper_bound fuel d : ∀ node vis vis',
  ancestorsHelper fuel d node vis = Some vis' →
  vis' ⊆ {[node]} ∪ vis ∪ parent_universe d.
Proof.
  induction fuel as [|fuel IH]; intros node vis vis'; [done|].
  rewrite ancestorsHelper_S. case_decide.
  { intros [= ->]. set_solver. }
  assert (Hl : ∀ l v v', (∀ p, p ∈ l → p ∈ parent_universe d) →
            visit_parents fuel d (Some v) l = Some v' →
            v' ⊆ v ∪ parent_universe d).
  { induction l as [|p l IHl]; intros v v' Hin; simpl.
    - intros [= ->]. set_solver.
    - fold (visit_parents fuel d).
      destruct (ancestorsHelper fuel d p v) as [v1|] eqn:E.
      + intros Hf. apply IHl in Hf; [|set_solver].
        apply IH in E. assert (p ∈ parent_universe d) by set_solver.
        set_solver.
      + by rewrite visit_parents_None. }
  intros Hf. apply Hl in Hf; [set_solver|].
  intros p Hp. apply elem_of_parent_universe. exists node.
  by apply elem_of_elements.
Qed.

(** The search never runs out of fuel when started with more fuel than
    there are strings left to mark. *)
Lemma ancestorsHelper_fuel d (U : gset string) :
  parent_universe d ⊆ U →
  ∀ fuel node vis,
    node ∈ U → vis ⊆ U → (size (U ∖ vis) < fuel)%nat →
    ∃ vis', ancestorsHelper fuel d node vis = Some vis' ∧ vis ⊆ vis' ∧ vis' ⊆ U.
Proof.
  intros HU. induction fuel as [|fuel IH]; intros node vis Hnode Hvis Hsz; [lia|].
  rewrite ancestorsHelper_S. case_decide as Hin.
  { exists vis. done. }
  assert (Hlt : (size (U ∖ ({[node]} ∪ vis)) < size (U ∖ vis))%nat).
  { apply subset_size. set_solver. }
  assert (Hl : ∀ l v, (∀ p, p ∈ l → p ∈ U) → v ⊆ U →
            (size (U ∖ v) < fuel)%nat →
            ∃ v', visit_parents fuel d (Some v) l = Some v' ∧ v ⊆ v' ∧ v' ⊆ U).
  { induction l as [|p l IHl]; intros v Hl Hv Hs.
    - exists v. done.
    - rewrite visit_parents_cons.
      destruct (IH p v) as (v1 & -> & Hsub & HU1); [set_solver|done|done|].
      destruct (IHl v1) as (v2 & -> & Hsub2 & HU2); [set_solver|done| |].
      + eapply Nat.le_lt_trans; [|exact Hs].
        apply subseteq_size. set_solver.
      + exists v2. split; [done|]. set_solver. }
  destruct (Hl (elements (parents_of d node)) ({[node]} ∪ vis))
    as (v' & Hv' & Hsub & HU'); [|set_solver|lia|].
  - intros p Hp%elem_of_elements. apply HU, elem_of_parent_universe. by exists node.
  - exists v'. split; [done|]. set_solver.
Qed.

Lemma Ancestors_total d node :
  is_Some (ancestorsHelper (search_fuel d) d node ∅).
Proof.
  destruct (ancestorsHelper_fuel d ({[node]} ∪ parent_universe d)
              ltac:(set_solver) (search_fuel d) node ∅) as (v & -> & _);
    [set_solver|set_solver| |done].
  unfold search_fuel.
  assert (size (({[node]} ∪ parent_universe d) ∖ ∅) ≤ 1 + size (parent_universe d))%nat;
    [|lia].
  etrans; [apply subseteq_size with (Y := {[node]} ∪ parent_universe d); set_solver|].
  rewrite size_union_alt, size_singleton.
  assert (size (parent_universe d ∖ {[node]}) ≤ size (parent_universe d))%nat;
    [apply subseteq_size; set_solver|lia].
Qed.

Lemma elem_of_Ancestors d node x :
  x ∈ Ancestors d node → x ≠ node ∧ x ∈ parent_universe d.
Proof.
  unfold Ancestors.
  destruct (ancestorsHelper _ d node ∅) as [vis|] eqn:E; [|by intros ?%elem_of_nil].
  rewrite elem_of_sort_strings, elem_of_elements. intros Hx.
  apply ancestorsHelper_bound in E. set_solver.
Qed.

Lemma Ancestors_no_parents d node : parents_of d node = ∅ → Ancestors d node = [].
Proof.
  intros He. unfold Ancestors, search_fuel.
  change (2 + ?n)%nat with (S (S n)). rewrite ancestorsHelper_S.
  rewrite decide_False by set_solver. rewrite He, elements_empty. simpl.
  replace (({[node]} ∪ ∅) ∖ {[node]} : gset string) with (∅ : gset string) by set_solver.
  by rewrite elements_empty.
Qed.

(** A cycle error means that both endpoints were nodes already. *)
Lemma AddEdge_error_nodes d p c e :
  wf d → (AddEdge p c d).2 = Some e → p ∈ nodes d ∧ c ∈ nodes d.
Proof.
  intros Hwf. unfold AddEdge, wouldCreateCycle.
  case_bool_decide as Hin; [|done]. intros _.
  destruct (elem_of_Ancestors _ _ _ Hin) as [Hne Hu].
  apply elem_of_parent_universe in Hu as [x Hx].
  assert (Hc : c ∈ nodes d).
  { rewrite !parents_of_AddNode in Hx.
    repeat case_decide; try done; try set_solver;
      by destruct (wf_nodes d Hwf _ _ Hx). }
  split; [|done].
  destruct (decide (p ∈ nodes d)) as [|Hp]; [done|exfalso].
  assert (Hd1 : AddNode c (AddNode p d) = AddNode p d).
  { apply AddNode_present. rewrite nodes_AddNode. set_solver. }
  rewrite Hd1, Ancestors_no_parents in Hin; [by apply elem_of_nil in Hin|].
  rewrite parents_of_AddNode.
  rewrite decide_False by done. by rewrite decide_True.
Qed.

(** *** Kahn's algorithm *)

Lemma relax_eq (m : gmap string Z) (q : list string) (c : string) :
  relax (m, q) c =
  (decr m c, q ++ (if decide (default 0 (m !! c) - 1 = 0) then [c] else [])).
Proof.
  unfold relax, decr. simpl. rewrite lookup_insert_eq. simpl.
  case_decide; [done|]. by rewrite app_nil_r.
Qed.

Lemma foldl_relax (l : list string) : ∀ (m : gmap string Z) (q : list string),
  NoDup l →
  (foldl relax (m, q) l).2 = q ++ filter (fun c => default 0 (m !! c) - 1 = 0) l ∧
  ∀ k, (foldl relax (m, q) l).1 !! k =
       if decide (k ∈ l) then Some (default 0 (m !! k) - 1) else m !! k.
Proof.
  induction l as [|c l IH]; intros m q Hnd.
  { simpl. rewrite app_nil_r. split; [done|]. intros k.
    destruct (decide (k ∈ [])) as [Hk|]; [|done]. by apply elem_of_nil in Hk. }
  apply NoDup_cons in Hnd as [Hc Hnd]. simpl. rewrite relax_eq.
  assert (Hother : ∀ k, k ≠ c → decr m c !! k = m !! k).
  { intros k Hk. unfold decr. by rewrite lookup_insert_ne. }
  assert (Hfilter : filter (fun c0 => default 0 (decr m c !! c0) - 1 = 0) l =
                    filter (fun c0 => default 0 (m !! c0) - 1 = 0) l).
  { apply filter_ext_elem_of. intros x Hx. rewrite Hother; [done|].
    intros ->. done. }
  destruct (IH (decr m c)
              (q ++ (if decide (default 0 (m !! c) - 1 = 0) then [c] else []))
              Hnd) as [IH1 IH2].
  split.
  - rewrite IH1, Hfilter, filter_cons. simpl.
    case_decide; by rewrite <- ?app_assoc.
  - intros k. rewrite IH2. destruct (decide (k = c)) as [->|Hk].
    + rewrite decide_False by done.
      rewrite (decide_True (P := c ∈ c :: l)) by (by left).
      unfold decr. by rewrite lookup_insert_eq.
    + rewrite Hother by done.
      destruct (decide (k ∈ l)).
      * rewrite decide_True; [done|]. by right.
      * rewrite decide_False; [done|]. rewrite elem_of_cons. naive_solver.
Qed.

(** The loop invariant: [result] and [queue] hold distinct nodes;
    [inDegree] counts the parents not yet emitted; a node is emitted or
    queued exactly when all its parents are emitted; and every emitted
    node comes after its parents. *)
Record kahn_inv (d : DAG) (inDegree : gmap string Z)
    (queue result : list string) : Prop := {
  ki_nodup : NoDup (result ++ queue);
  ki_nodes : ∀ n, n ∈ result ++ queue → n ∈ nodes d;
  ki_deg : ∀ n, n ∈ nodes d →
    inDegree !! n =
    Some (Z.of_nat (size (parents_of d n ∖ list_to_set result)));
  ki_ready : ∀ n, n ∈ nodes d →
    (n ∈ result ++ queue ↔ parents_of d n ⊆ list_to_set result);
  ki_before : ∀ u v l1 l2,
    u ∈ parents_of d v → result = l1 ++ v :: l2 → u ∈ l1
}.

Lemma size_remove_elem (X : gset string) (x : string) :
  x ∈ X → size X = S (size (X ∖ {[x]})).
Proof.
  intros Hx. rewrite (union_difference_L {[x]} X) at 1 by set_solver.
  rewrite size_union by set_solver. by rewrite size_singleton.
Qed.

Lemma kahn_inv_step d inDegree queue result node queue' :
  wf d → kahn_inv d inDegree queue result → node :: queue' ≡ₚ queue →
  kahn_inv d (foldl relax (inDegree, queue') (elements (children_of d node))).1
             (foldl relax (inDegree, queue') (elements (children_of d node))).2
             (result ++ [node]).
Proof.
  intros Hwf [Hnd Hnodes Hdeg Hready Hbefore] Hperm.
  set (R := list_to_set result : gset string) in *.
  assert (HR : ∀ x, x ∈ R ↔ x ∈ result) by (intros; apply elem_of_list_to_set).
  assert (HR' : (list_to_set (result ++ [node]) : gset string) = R ∪ {[node]}).
  { rewrite list_to_set_app_L. simpl. set_solver. }
  assert (Hmem : ∀ x, x ∈ (result ++ [node]) ++ queue' ↔ x ∈ result ++ queue).
  { intros x. rewrite <- Hperm. set_solver. }
  assert (Hnq : node ∈ result ++ queue).
  { apply Hmem. set_solver. }
  assert (Hnn : node ∈ nodes d) by auto.
  assert (Hnr : node ∉ R).
  { rewrite HR. intros Hin. rewrite <- Hperm in Hnd.
    apply NoDup_app in Hnd as (_ & Hdis & _). apply (Hdis _ Hin). by left. }
  assert (Hnp : parents_of d node ⊆ R) by (by apply Hready).
  destruct (foldl_relax (elements (children_of d node)) inDegree queue'
              (NoDup_elements _)) as [Hq' Hm'].
  rewrite Hq'. clear Hq'.
  set (m' := (foldl relax (inDegree, queue') (elements (children_of d node))).1) in *.
  clearbody m'.
  assert (Hchild : ∀ c, c ∈ elements (children_of d node) ↔ node ∈ parents_of d c).
  { intros c. rewrite elem_of_elements. apply (wf_mirror d Hwf). }
  assert (Hfresh : ∀ c, node ∈ parents_of d c → c ∈ nodes d ∧ c ∉ result ++ queue).
  { intros c Hc. destruct (wf_nodes d Hwf _ _ Hc) as [_ Hcn]. split; [done|].
    intros Hin. apply Hready in Hin; [|done]. apply Hnr. clear -Hin Hc. set_solver. }
  assert (Hdeg' : ∀ n, n ∈ nodes d →
            m' !! n = Some (Z.of_nat (size (parents_of d n ∖ (R ∪ {[node]}))))).
  { intros n Hn. rewrite Hm'. case_decide as Hc.
    - apply Hchild in Hc. rewrite (Hdeg n Hn). simpl. f_equal.
      rewrite (size_remove_elem (parents_of d n ∖ R) node)
        by (clear -Hc Hnr; set_solver).
      replace (parents_of d n ∖ (R ∪ {[node]})) with
        ((parents_of d n ∖ R) ∖ {[node]}) by (clear; set_solver).
      lia.
    - rewrite Hchild in Hc. rewrite (Hdeg n Hn). do 2 f_equal.
      f_equal. clear -Hc. set_solver. }
  assert (Hnew : ∀ c, c ∈ filter (fun c => default 0 (inDegree !! c) - 1 = 0)
                        (elements (children_of d node)) ↔
                      node ∈ parents_of d c ∧ parents_of d c ⊆ R ∪ {[node]}).
  { intros c. rewrite list_elem_of_filter, Hchild. split.
    - intros [Hz Hc]. split; [done|].
      destruct (Hfresh c Hc) as [Hcn _]. rewrite (Hdeg c Hcn) in Hz. simpl in Hz.
      rewrite (size_remove_elem (parents_of d c ∖ R) node) in Hz
        by (clear -Hc Hnr; set_solver).
      assert (Hs : size ((parents_of d c ∖ R) ∖ {[node]}) = 0%nat) by lia.
      apply size_empty_iff in Hs. clear -Hs. intros x Hx.
      destruct (decide (x ∈ R)), (decide (x = node)); set_solver.
    - intros [Hc Hsub]. split; [|done].
      destruct (Hfresh c Hc) as [Hcn _]. rewrite (Hdeg c Hcn). simpl.
      rewrite (size_remove_elem (parents_of d c ∖ R) node)
        by (clear -Hc Hnr; set_solver).
      assert (Hs : size ((parents_of d c ∖ R) ∖ {[node]}) = 0%nat).
      { apply size_empty_iff. clear -Hsub. set_solver. }
      lia. }
  split.
  - rewrite app_assoc. apply NoDup_app. split; [|split].
    + rewrite <- app_assoc. simpl. by rewrite Hperm.
    + intros x Hx%Hmem Hf%Hnew. destruct Hf as [Hc _].
      by destruct (Hfresh x Hc).
    + apply NoDup_filter, NoDup_elements.
  - intros n. rewrite app_assoc, elem_of_app, Hmem, Hnew.
    intros [Hin|[Hc _]]; [auto|]. by destruct (Hfresh n Hc).
  - intros n Hn. rewrite HR'. by apply Hdeg'.
  - intros n Hn. rewrite HR', app_assoc, elem_of_app, Hmem, Hnew.
    rewrite (Hready n Hn). split.
    + intros [Hsub|[_ Hsub]]; clear -Hsub; set_solver.
    + intros Hsub. destruct (decide (node ∈ parents_of d n)) as [|Hno]; [by right|].
      left. clear -Hsub Hno. set_solver.
  - intros u v l1 l2 Hu Heq.
    destruct l2 as [|x l2 _] using rev_ind.
    + apply app_inj_tail in Heq as [<- <-]. apply HR. clear -Hnp Hu. set_solver.
    + rewrite app_comm_cons, app_assoc in Heq.
      apply app_inj_tail in Heq as [Heq _]. by eapply Hbefore.
Qed.

Lemma lookup_initial_inDegree d n :
  initial_inDegree d !! n =
  if decide (n ∈ nodes d) then Some (Z.of_nat (size (parents_of d n))) else None.
Proof.
  unfold initial_inDegree. case_decide as Hn.
  - apply lookup_set_to_map; [naive_solver|]. by exists n.
  - apply eq_None_not_Some. intros [x Hx].
    apply lookup_set_to_map in Hx as (y & Hy & Heq); [|naive_solver].
    by simplify_eq.
Qed.

Lemma elem_of_initial_queue d n :
  n ∈ initial_queue (initial_inDegree d) ↔ n ∈ nodes d ∧ parents_of d n = ∅.
Proof.
  unfold initial_queue. rewrite list_elem_of_fmap. split.
  - intros ([k z] & -> & Hin). apply list_elem_of_filter in Hin as [Hz Hin].
    simpl in *. apply elem_of_map_to_list in Hin.
    rewrite lookup_initial_inDegree in Hin. case_decide; [|done].
    split; [done|]. injection Hin as <-.
    apply leibniz_equiv, size_empty_iff. lia.
  - intros [Hn He]. exists (n, 0). split; [done|].
    apply list_elem_of_filter. split; [done|]. apply elem_of_map_to_list.
    rewrite lookup_initial_inDegree, decide_True by done.
    by rewrite He, size_empty.
Qed.

Lemma kahn_inv_initial d :
  kahn_inv d (initial_inDegree d) (initial_queue (initial_inDegree d)) [].
Proof.
  split; simpl.
  - unfold initial_queue.
    eapply sublist_NoDup; [apply (NoDup_fst_map_to_list (initial_inDegree d))|].
    apply fmap_sublist, sublist_filter.
  - by intros n [Hn _]%elem_of_initial_queue.
  - intros n Hn. rewrite lookup_initial_inDegree, decide_True by done.
    do 3 f_equal. set_solver.
  - intros n Hn. rewrite elem_of_initial_queue. split.
    + intros [_ ->]. set_solver.
    + intros Hsub. split; [done|]. set_solver.
  - intros u v [|??] l2 _ [=].
Qed.

Lemma kahn_loop_sound d : wf d →
  ∀ fuel inDegree queue result order,
    kahn_inv d inDegree queue result →
    kahn_loop fuel d inDegree queue result = Some order →
    ∃ inDegree', kahn_inv d inDegree' [] order.
Proof.
  intros Hwf. induction fuel as [|fuel IH]; intros m queue result order Hinv; [done|].
  simpl. destruct queue as [|x queue].
  { intros [= <-]. by exists m. }
  destruct (sort_strings (x :: queue)) as [|node queue'] eqn:Hs; [done|].
  apply IH. apply kahn_inv_step with (queue := x :: queue); [done..|].
  rewrite <- Hs. apply sort_strings_Permutation.
Qed.

Lemma NoDup_length_le_size (l : list string) (X : gset string) :
  NoDup l → (∀ x, x ∈ l → x ∈ X) → (length l ≤ size X)%nat.
Proof.
  intros Hnd Hsub. rewrite <- (size_list_to_set (C := gset string) l Hnd).
  apply subseteq_size. intros x Hx%elem_of_list_to_set. auto.
Qed.

Lemma kahn_loop_total d : wf d →
  ∀ fuel inDegree queue result,
    kahn_inv d inDegree queue result →
    (size (nodes d) < fuel + length result)%nat →
    is_Some (kahn_loop fuel d inDegree queue result).
Proof.
  intros Hwf. induction fuel as [|fuel IH]; intros m queue result Hinv Hlt.
  { pose proof (NoDup_length_le_size _ _ (ki_nodup _ _ _ _ Hinv)
                  (ki_nodes _ _ _ _ Hinv)) as Hle.
    rewrite length_app in Hle. lia. }
  simpl. destruct queue as [|x queue]; [done|].
  pose proof (sort_strings_Permutation (x :: queue)) as Hperm.
  destruct (sort_strings (x :: queue)) as [|node queue'].
  { by apply Permutation_nil_cons in Hperm. }
  apply IH; [by apply kahn_inv_step with (queue := x :: queue)|].
  rewrite length_app. simpl. lia.
Qed.

(** [TopologicalSort] always returns on a well-formed graph. *)
Lemma TopologicalSort_total d : wf d → is_Some (TopologicalSort d).
Proof.
  intros Hwf. unfold TopologicalSort.
  destruct (kahn_loop_total d Hwf (S (size (nodes d))) _ _ []
              (kahn_inv_initial d)) as [order ->]; [simpl; lia|].
  by case_decide.
Qed.

Lemma list_before_lookup {A} (l1 l2 : list A) (u v : A) :
  u ∈ l1 →
  ∃ i j, (l1 ++ v :: l2) !! i = Some u ∧ (l1 ++ v :: l2) !! j = Some v ∧ (i < j)%nat.
Proof.
  intros (i & Hi)%list_elem_of_lookup. exists i, (length l1).
  pose proof (lookup_lt_Some _ _ _ Hi). split; [|split; [|done]].
  - by rewrite lookup_app_l.
  - by rewrite list_lookup_middle.
Qed.

(** C7.  A failed [AddEdge] leaves the graph as it was: on a
    well-formed graph, when [AddEdge p c] returns the cycle error, the
    node set, the child-edge map and the parent map are those of the
    state before the call. *)
Theorem AddEdge_failure_atomic (d : DAG) (p c e : string) :
  wf d →
  (AddEdge p c d).2 = Some e →
  nodes (AddEdge p c d).1 = nodes d ∧
  edges (AddEdge p c d).1 = edges d ∧
  parents (AddEdge p c d).1 = parents d.
Proof.
  intros Hwf Herr.
  destruct (AddEdge_error_nodes d p c e Hwf Herr) as [Hp Hc].
  revert Herr. unfold AddEdge.
  rewrite (AddNode_present d p Hp), (AddNode_present d c Hc).
  by case_match.
Qed.

(** A graph on which a cycle-closing edge is refused. *)
Definition chain_ABC : DAG := (AddEdge "B" "C" (AddEdge "A" "B" NewDAG).1).1.

Lemma AddEdge_failure_atomic_witness :
  (AddEdge "C" "A" chain_ABC).2 =
    Some "adding edge C -> A would create a cycle" ∧
  nodes (AddEdge "C" "A" chain_ABC).1 = nodes chain_ABC ∧
  edges (AddEdge "C" "A" chain_ABC).1 = edges chain_ABC ∧
  parents (AddEdge "C" "A" chain_ABC).1 = parents chain_ABC.
Proof.
  split; [vm_compute; reflexivity|].
  apply (AddEdge_failure_atomic chain_ABC "C" "A"
           "adding edge C -> A would create a cycle").
  - apply reachable_wf. do 2 apply reach_edge. apply reach_new.
  - vm_compute. reflexivity.
Defined.

(** C8.  On a well-formed graph, an ordering returned by
    [TopologicalSort] lists every node once and puts [u] strictly
    before [v] for every edge [u -> v]. *)
Theorem TopologicalSort_respects_edges (d : DAG) (order : list string)
    (u v : string) :
  wf d →
  TopologicalSort d = Some (Ok order) →
  HasEdge d u v = true →
  NoDup order ∧
  ∃ i j, order !! i = Some u ∧ order !! j = Some v ∧ (i < j)%nat.
Proof.
  intros Hwf Hsort Hedge. unfold TopologicalSort in Hsort.
  destruct (kahn_loop _ d _ _ []) as [order'|] eqn:Hloop; [|done].
  case_decide as Hlen; [done|]. injection Hsort as ->.
  destruct (kahn_loop_sound d Hwf _ _ _ _ _ (kahn_inv_initial d) Hloop)
    as [m [Hnd Hnodes _ _ Hbefore]].
  rewrite app_nil_r in Hnd. split; [done|].
  apply bool_decide_eq_true in Hedge. apply (wf_mirror d Hwf) in Hedge.
  destruct (wf_nodes d Hwf _ _ Hedge) as [_ Hv].
  assert (Hall : (list_to_set order : gset string) ≡ nodes d).
  { apply set_subseteq_size_equiv.
    - intros x Hx%elem_of_list_to_set. apply Hnodes. by rewrite app_nil_r.
    - rewrite size_list_to_set by done. lia. }
  assert (Hin : v ∈ order).
  { apply (elem_of_list_to_set (C := gset string)). by apply Hall. }
  apply list_elem_of_split in Hin as (l1 & l2 & ->).
  apply list_before_lookup. by eapply Hbefore.
Qed.

Lemma TopologicalSort_respects_edges_witness :
  TopologicalSort chain_ABC = Some (Ok ["A"; "B"; "C"]) ∧
  NoDup ["A"; "B"; "C"] ∧
  ∃ i j, ["A"; "B"; "C"] !! i = Some "B" ∧ ["A"; "B"; "C"] !! j = Some "C" ∧
         (i < j)%nat.
Proof.
  split; [vm_compute; reflexivity|].
  apply (TopologicalSort_respects_edges chain_ABC ["A"; "B"; "C"] "B" "C").
  - apply reachable_wf. do 2 apply reach_edge. apply reach_new.
  - vm_compute. reflexivity.
  - vm_compute. reflexivity.
Defined.

(** *** Acyclicity, apart from self-edges

    The parent relation of a graph, and what [AddEdge] maintains when
    no call has equal endpoints. *)

Definition parent_rel (d : DAG) (u v : string) : Prop := u ∈ parents_of d v.

Definition acyclic (d : DAG) : Prop := ∀ v, ¬ tc (parent_rel d) v v.

(** Graphs built by successful [AddEdge] calls between distinct nodes. *)
Inductive built : DAG → Prop :=
  | built_new : built NewDAG
  | built_edge d p c :
      built d → p ≠ c → (AddEdge p c d).2 = None → built (AddEdge p c d).1.

Lemma built_reachable d : built d → reachable d.
Proof. induction 1; [apply reach_new|by apply reach_edge]. Qed.

(** The search marks every ancestor: what it newly marks is closed
    under taking parents. *)
Lemma ancestorsHelper_closed fuel d : ∀ node vis vis',
  ancestorsHelper fuel d node vis = Some vis' →
  vis ⊆ vis' ∧ node ∈ vis' ∧
  ∀ x, x ∈ vis' → x ∉ vis → parents_of d x ⊆ vis'.
Proof.
  induction fuel as [|fuel IH]; intros node vis vis'; [done|].
  rewrite ancestorsHelper_S. case_decide as Hin.
  { intros [= <-]. split; [done|]. split; [done|]. intros x Hx Hnx. done. }
  assert (Hl : ∀ l v v',
            visit_parents fuel d (Some v) l = Some v' →
            v ⊆ v' ∧ (∀ p, p ∈ l → p ∈ v') ∧
            ∀ x, x ∈ v' → x ∉ v → parents_of d x ⊆ v').
  { induction l as [|p l IHl]; intros v v'.
    - intros [= <-]. split; [done|]. split; [intros p Hp; by apply elem_of_nil in Hp|].
      intros x Hx Hnx. done.
    - rewrite visit_parents_cons.
      destruct (ancestorsHelper fuel d p v) as [v1|] eqn:E;
        [|by rewrite visit_parents_None].
      intros Hrest. apply IH in E as (Hsub1 & Hp1 & Hcl1).
      apply IHl in Hrest as (Hsub2 & Hl2 & Hcl2).
      split; [by etrans|]. split.
      + intros q [->|Hq]%elem_of_cons; auto.
      + intros x Hx Hnx. destruct (decide (x ∈ v1)) as [Hx1|Hx1].
        * etrans; [by apply Hcl1|done].
        * by apply Hcl2. }
  intros Hvisit. apply Hl in Hvisit as (Hsub & Hall & Hcl).
  split; [clear -Hsub; set_solver|]. split; [clear -Hsub; set_solver|].
  intros x Hx Hnx. destruct (decide (x = node)) as [->|Hne].
  - intros q Hq. apply Hall. by apply elem_of_elements.
  - apply Hcl; [done|]. clear -Hnx Hne. set_solver.
Qed.

Lemma Ancestors_complete d node x :
  rtc (parent_rel d) x node → x ≠ node → x ∈ Ancestors d node.
Proof.
  intros Hpath Hne. unfold Ancestors.
  destruct (Ancestors_total d node) as [vis Hvis]. rewrite Hvis.
  apply ancestorsHelper_closed in Hvis as (_ & Hnode & Hcl).
  apply elem_of_sort_strings, elem_of_elements, elem_of_difference.
  split; [|by rewrite elem_of_singleton].
  clear Hne. induction Hpath as [|x y z Hxy _ IHp]; [done|].
  apply (Hcl y); [by apply IHp|apply not_elem_of_empty|exact Hxy].
Qed.

Lemma tc_extend {A} (R R' : relation A) (p c : A) :
  (∀ a b, R' a b → R a b ∨ (a = p ∧ b = c)) →
  ∀ x y, tc R' x y → tc R x y ∨ (rtc R x p ∧ rtc R c y).
Proof.
  intros Hstep x y Htc. induction Htc as [x y Hxy|x y z Hxy _ IH].
  - destruct (Hstep _ _ Hxy) as [HR|[-> ->]]; [left; by apply tc_once|].
    right. split; apply rtc_refl.
  - destruct (Hstep _ _ Hxy) as [HR|[-> ->]].
    + destruct IH as [Htc|[Hp Hc]]; [left; by eapply tc_l|].
      right. split; [by eapply rtc_l|done].
    + right. split; [apply rtc_refl|].
      destruct IH as [Htc|[Hp Hc]]; [by apply tc_rtc|done].
Qed.

Lemma parent_rel_AddNode d n u v :
  wf d → parent_rel (AddNode n d) u v ↔ parent_rel d u v.
Proof.
  intros Hwf. unfold parent_rel. rewrite parents_of_AddNode.
  repeat case_decide; subst; try done.
  split; [by intros ?%elem_of_empty|].
  intros Hu. by destruct (wf_nodes d Hwf _ _ Hu).
Qed.

Lemma acyclic_AddEdge d p c :
  wf d → acyclic d → p ≠ c → (AddEdge p c d).2 = None →
  acyclic (AddEdge p c d).1.
Proof.
  intros Hwf Hacyc Hne. unfold AddEdge, wouldCreateCycle.
  set (d1 := AddNode c (AddNode p d)).
  assert (Hwf1 : wf d1) by (by do 2 apply wf_AddNode).
  assert (Hrel1 : ∀ u v, parent_rel d1 u v ↔ parent_rel d u v).
  { intros u v. unfold d1.
    rewrite parent_rel_AddNode by (by apply wf_AddNode).
    by apply parent_rel_AddNode. }
  case_bool_decide as Hanc; [done|]. intros _ v Hcyc. simpl in Hcyc.
  apply (tc_extend (parent_rel d1) _ p c) in Hcyc.
  - destruct Hcyc as [Hcyc|[Hvp Hcv]].
    + apply (Hacyc v). eapply tc_congruence with (f := id); [|exact Hcyc].
      intros a b. apply Hrel1.
    + apply Hanc. apply Ancestors_complete; [by etrans|congruence].
  - intros a b. unfold parent_rel, parents_of at 1. simpl.
    destruct (decide (b = c)) as [->|Hbc].
    + rewrite lookup_insert_eq. simpl. rewrite elem_of_union, elem_of_singleton.
      intros [->|Hin]; [by right|by left].
    + rewrite lookup_insert_ne by done. by left.
Qed.

Lemma built_acyclic d : built d → acyclic d.
Proof.
  induction 1 as [|d p c Hb IH Hne Hok].
  - intros v Hcyc.
    assert (Hno : ∀ a b, ¬ parent_rel NewDAG a b).
    { intros a b Hab. unfold parent_rel, parents_of in Hab. simpl in Hab.
      rewrite lookup_empty in Hab. by apply elem_of_empty in Hab. }
    inversion Hcyc as [? ? Hab|? ? ? Hab _]; exact (Hno _ _ Hab).
  - apply acyclic_AddEdge; [by apply reachable_wf, built_reachable|done..].
Qed.

Lemma tc_flip_inv {A} (R : relation A) (x y : A) :
  tc (flip R) x y → tc R y x.
Proof.
  induction 1 as [x y Hxy|x y z Hxy _ IH]; [by apply tc_once|].
  eapply tc_r; [exact IH|exact Hxy].
Qed.

(** In an acyclic graph the parent relation is well founded: the nodes
    are finitely many and no chain of parents returns to its start. *)
Lemma acyclic_Acc d : wf d → acyclic d → ∀ x, Acc (parent_rel d) x.
Proof.
  intros Hwf Hac x. change (sn (flip (parent_rel d)) x).
  apply tc_finite_sn.
  - intros v Hv. apply (Hac v). by apply tc_flip_inv.
  - exists (elements (nodes d)). intros y Hy. apply elem_of_elements.
    induction Hy as [x y Hxy|x y z _ _ IH]; [|exact IH].
    by destruct (wf_nodes d Hwf _ _ Hxy).
Qed.

(** When the queue has emptied on an acyclic graph, every node has been
    emitted. *)
Lemma kahn_complete d inDegree order :
  wf d → acyclic d → kahn_inv d inDegree [] order →
  ∀ n, n ∈ nodes d → n ∈ order.
Proof.
  intros Hwf Hac Hinv n.
  induction (acyclic_Acc d Hwf Hac n) as [n _ IH]. intros Hn.
  pose proof (ki_ready _ _ _ _ Hinv n Hn) as Hready.
  rewrite app_nil_r in Hready. apply Hready.
  intros p Hp. apply elem_of_list_to_set. apply IH; [exact Hp|].
  by destruct (wf_nodes d Hwf _ _ Hp).
Qed.

(** Without self-edges the documented invariant does hold: a graph built
    from [NewDAG] by successful [AddEdge] calls between distinct nodes
    is acyclic, and [TopologicalSort] returns an order of all its
    nodes. *)
Lemma TopologicalSort_succeeds_without_self_edges d :
  built d →
  acyclic d ∧
  ∃ order, TopologicalSort d = Some (Ok order) ∧
           ∀ n, n ∈ order ↔ n ∈ nodes d.
Proof.
  intros Hb. pose proof (built_acyclic d Hb) as Hac.
  pose proof (reachable_wf d (built_reachable d Hb)) as Hwf.
  split; [exact Hac|]. unfold TopologicalSort.
  destruct (kahn_loop_total d Hwf (S (size (nodes d))) _ _ []
              (kahn_inv_initial d)) as [order Horder]; [simpl; lia|].
  rewrite Horder.
  destruct (kahn_loop_sound d Hwf _ _ _ _ _ (kahn_inv_initial d) Horder)
    as [m Hinv].
  assert (Hiff : ∀ n, n ∈ order ↔ n ∈ nodes d).
  { intros n. split.
    - intros Hn. apply (ki_nodes _ _ _ _ Hinv). by rewrite app_nil_r.
    - by apply (kahn_complete d m). }
  pose proof (ki_nodup _ _ _ _ Hinv) as Hnd. rewrite app_nil_r in Hnd.
  assert (Hlen : length order = size (nodes d)).
  { rewrite <- (size_list_to_set (C := gset string) order Hnd).
    f_equal. apply set_eq. intros n. by rewrite elem_of_list_to_set. }
  exists order. split; [|exact Hiff]. by case_decide.
Qed.

(** C1 fails on the code.  [Ancestors] drops the start node from the
    visited set, so [wouldCreateCycle v v] is false: [AddEdge v v]
    succeeds and records a self-loop, after which [TopologicalSort]
    reports a cycle. *)
Theorem AddEdge_self_loop_then_sort_fails :
  (AddEdge "A" "A" NewDAG).2 = None ∧
  HasEdge (AddEdge "A" "A" NewDAG).1 "A" "A" = true ∧
  TopologicalSort (AddEdge "A" "A" NewDAG).1 =
    Some (Err "cycle detected in graph").
Proof. vm_compute. auto. Qed.

(** *** Queries and bulk construction

    The remaining exported operations of the DAG: [Nodes], [Children],
    [Descendants], [Edges], [NewDAGFromEdges] and [Copy]. *)

(** [Nodes]: the keys of [d.nodes], sorted. *)
Definition Nodes (d : DAG) : list string := sort_strings (elements (nodes d)).

(** [Children]: the keys of [d.edges[node]], sorted. *)
Definition Children (d : DAG) (node : string) : list string :=
  sort_strings (elements (children_of d node)).

(** [descendantsHelper]: the same search along [d.edges]. *)
Fixpoint descendantsHelper (fuel : nat) (d : DAG) (node : string)
    (visited : gset string) : option (gset string) :=
  match fuel with
  | O => None
  | S fuel' =>
      if decide (node ∈ visited) then Some visited
      else
        foldl (fun acc child =>
                 match acc with
                 | Some vis => descendantsHelper fuel' d child vis
                 | None => None
                 end)
              (Some ({[node]} ∪ visited))
              (elements (children_of d node))
  end.

(** Every string that occurs as somebody's child. *)
Definition child_universe (d : DAG) : gset string :=
  ⋃ (map_to_list (edges d)).*2.

Definition Descendants (d : DAG) (node : string) : list string :=
  match descendantsHelper (2 + size (child_universe d)) d node ∅ with
  | Some visited => sort_strings (elements (visited ∖ {[node]}))
  | None => []
  end.

(** [Edges]: the [parent, child] pairs, in the iteration order of the
    two nested maps (unspecified in Go; the order of [map_to_list] and
    [elements] here). *)
Definition Edges (d : DAG) : list (string * string) :=
  map_to_list (edges d) ≫= fun pc => (fun c => (pc.1, c)) <$> elements pc.2.

(** [NewDAGFromEdges]: the edges are added in order; the first rejected
    edge aborts the construction with its error. *)
Fixpoint add_edges (es : list (string * string)) (d : DAG) : result DAG :=
  match es with
  | [] => Ok d
  | (p, c) :: rest =>
      match (AddEdge p c d).2 with
      | Some e => Err e
      | None => add_edges rest (AddEdge p c d).1
      end
  end.

Definition NewDAGFromEdges (es : list (string * string)) : result DAG :=
  add_edges es NewDAG.

(** [Copy]: a fresh graph receives every node, then every edge through
    [AddEdge], whose error is ignored.  Go leaves the order of both
    loops unspecified: [Copy_in] takes the two orders as arguments, and
    [Copy] runs it on one of them. *)
Definition Copy_in (node_order : list string)
    (edge_order : list (string * string)) : DAG :=
  foldl (fun acc pc => (AddEdge pc.1 pc.2 acc).1)
        (foldl (fun acc n => AddNode n acc) NewDAG node_order)
        edge_order.

Definition Copy (d : DAG) : DAG := Copy_in (elements (nodes d)) (Edges d).

(** The graph with every edge reversed. *)
Definition transpose (d : DAG) : DAG := mkDAG (nodes d) (parents d) (edges d).

(** The search only marks strings from which [node] is reached along
    parent links. *)
Lemma ancestorsHelper_sound fuel d : ∀ node vis vis',
  ancestorsHelper fuel d node vis = Some vis' →
  ∀ x, x ∈ vis' → x ∈ vis ∨ rtc (parent_rel d) x node.
Proof.
  induction fuel as [|fuel IH]; intros node vis vis'; [done|].
  rewrite ancestorsHelper_S. case_decide as Hin.
  { intros [= <-] x Hx. by left. }
  assert (Hl : ∀ l v v',
            (∀ p, p ∈ l → parent_rel d p node) →
            visit_parents fuel d (Some v) l = Some v' →
            ∀ x, x ∈ v' → x ∈ v ∨ rtc (parent_rel d) x node).
  { induction l as [|p l IHl]; intros v v' Hpar.
    - intros [= <-] x Hx. by left.
    - rewrite visit_parents_cons.
      destruct (ancestorsHelper fuel d p v) as [v1|] eqn:E;
        [|by rewrite visit_parents_None].
      intros Hrest x Hx.
      destruct (IHl v1 v' (fun q Hq => Hpar q (list_elem_of_further _ _ _ Hq))
                  Hrest x Hx) as [Hx1|Hr]; [|by right].
      destruct (IH _ _ _ E x Hx1) as [Hv|Hr]; [by left|right].
      eapply rtc_r; [exact Hr|]. apply Hpar. by left. }
  intros Hvisit x Hx.
  destruct (Hl _ _ _ (fun p Hp => proj1 (elem_of_elements _ _) Hp) Hvisit x Hx)
    as [Hx1|Hr]; [|by right].
  apply elem_of_union in Hx1 as [->%elem_of_singleton|Hv]; [right|by left].
  apply rtc_refl.
Qed.

Lemma Ancestors_spec d node x :
  x ∈ Ancestors d node ↔ x ≠ node ∧ rtc (parent_rel d) x node.
Proof.
  split; [|intros [Hne Hr]; by apply Ancestors_complete].
  unfold Ancestors. destruct (Ancestors_total d node) as [vis Hvis].
  rewrite Hvis. rewrite elem_of_sort_strings, elem_of_elements.
  intros [Hx Hne]%elem_of_difference. split; [by rewrite elem_of_singleton in Hne|].
  destruct (ancestorsHelper_sound _ _ _ _ _ Hvis x Hx) as [Hemp|Hr]; [|done].
  by apply elem_of_empty in Hemp.
Qed.

Lemma Ancestors_sorted d node :
  StronglySorted String.le (Ancestors d node) ∧ NoDup (Ancestors d node).
Proof.
  unfold Ancestors. destruct (ancestorsHelper _ d node ∅) as [vis|].
  - split; [apply StronglySorted_merge_sort; apply _|].
    unfold sort_strings. rewrite merge_sort_Permutation. apply NoDup_elements.
  - split; constructor.
Qed.

(** X1.  [Ancestors] returns exactly the proper ancestors of [node], the
    strings other than [node] from which [node] is reached along parent
    links, in sorted order and without repetition. *)
Theorem Ancestors_exact (d : DAG) (node x : string) :
  (x ∈ Ancestors d node ↔ x ≠ node ∧ rtc (parent_rel d) x node) ∧
  StronglySorted String.le (Ancestors d node) ∧
  NoDup (Ancestors d node).
Proof. split; [apply Ancestors_spec|apply Ancestors_sorted]. Qed.

Lemma HasEdge_true d u v : HasEdge d u v = true ↔ v ∈ children_of d u.
Proof. unfold HasEdge. apply bool_decide_eq_true. Qed.

Lemma elem_of_Parents d u v : u ∈ Parents d v ↔ u ∈ parents_of d v.
Proof. unfold Parents. by rewrite elem_of_sort_strings, elem_of_elements. Qed.

Lemma children_of_absent d n : wf d → n ∉ nodes d → children_of d n = ∅.
Proof.
  intros Hwf Hn. apply set_eq. intros c. split; [|by intros ?%elem_of_empty].
  intros Hc%(wf_mirror d Hwf). by destruct (wf_nodes d Hwf _ _ Hc).
Qed.

Lemma parents_of_absent d n : wf d → n ∉ nodes d → parents_of d n = ∅.
Proof.
  intros Hwf Hn. apply set_eq. intros c. split; [|by intros ?%elem_of_empty].
  intros Hc. by destruct (wf_nodes d Hwf _ _ Hc).
Qed.

Lemma children_of_AddNode_wf d n u : wf d → children_of (AddNode n d) u = children_of d u.
Proof.
  intros Hwf. rewrite children_of_AddNode. repeat case_decide; subst; try done.
  by rewrite children_of_absent.
Qed.

Lemma parents_of_AddNode_wf d n u : wf d → parents_of (AddNode n d) u = parents_of d u.
Proof.
  intros Hwf. rewrite parents_of_AddNode. repeat case_decide; subst; try done.
  by rewrite parents_of_absent.
Qed.

Lemma rtc_iff {A} (R R' : relation A) (x y : A) :
  (∀ a b, R a b ↔ R' a b) → rtc R x y ↔ rtc R' x y.
Proof. intros H. split; apply rtc_subrel; intros a b; apply H. Qed.

(** What a call of [AddEdge] decides and, when it accepts, records. *)
Lemma AddEdge_rejects d p c :
  wf d → is_Some (AddEdge p c d).2 ↔ c ≠ p ∧ rtc (parent_rel d) c p.
Proof.
  intros Hwf. unfold AddEdge, wouldCreateCycle.
  set (d1 := AddNode c (AddNode p d)).
  assert (Hrel : ∀ a b, parent_rel d1 a b ↔ parent_rel d a b).
  { intros a b. unfold d1, parent_rel.
    by rewrite !parents_of_AddNode_wf by (try apply wf_AddNode; done). }
  rewrite <- (rtc_iff _ _ c p Hrel), <- Ancestors_spec.
  case_bool_decide as Hanc; simpl.
  - split; [done|]. intros _. by eexists.
  - split; [by intros [? [=]]|done].
Qed.

Lemma AddEdge_accepts d p c :
  wf d → (AddEdge p c d).2 = None →
  nodes (AddEdge p c d).1 = {[p; c]} ∪ nodes d ∧
  (∀ u, children_of (AddEdge p c d).1 u =
        if decide (u = p) then {[c]} ∪ children_of d p else children_of d u) ∧
  (∀ v, parents_of (AddEdge p c d).1 v =
        if decide (v = c) then {[p]} ∪ parents_of d c else parents_of d v).
Proof.
  intros Hwf. unfold AddEdge.
  destruct (wouldCreateCycle _ p c); [done|]. intros _. simpl.
  split; [rewrite !nodes_AddNode; set_solver|]. split.
  - intros u. unfold children_of at 1. simpl. case_decide as Hu.
    + subst u. rewrite lookup_insert_eq. simpl.
      by rewrite !children_of_AddNode_wf by (try apply wf_AddNode; done).
    + rewrite lookup_insert_ne by done.
      change (children_of (AddNode c (AddNode p d)) u = children_of d u).
      by rewrite !children_of_AddNode_wf by (try apply wf_AddNode; done).
  - intros v. unfold parents_of at 1. simpl. case_decide as Hv.
    + subst v. rewrite lookup_insert_eq. simpl.
      by rewrite !parents_of_AddNode_wf by (try apply wf_AddNode; done).
    + rewrite lookup_insert_ne by done.
      change (parents_of (AddNode c (AddNode p d)) v = parents_of d v).
      by rewrite !parents_of_AddNode_wf by (try apply wf_AddNode; done).
Qed.

Lemma children_of_RemoveEdge d p c u :
  children_of (RemoveEdge p c d) u =
  if decide (u = p) then children_of d p ∖ {[c]} else children_of d u.
Proof.
  unfold children_of, RemoveEdge. simpl.
  case_decide as Hu; [subst u|]; destruct (edges d !! p) as [cs|] eqn:E.
  - by rewrite lookup_insert_eq.
  - rewrite E. simpl. set_solver.
  - by rewrite lookup_insert_ne.
  - done.
Qed.

Lemma parents_of_RemoveEdge d p c v :
  parents_of (RemoveEdge p c d) v =
  if decide (v = c) then parents_of d c ∖ {[p]} else parents_of d v.
Proof.
  unfold parents_of, RemoveEdge. simpl.
  case_decide as Hv; [subst v|]; destruct (parents d !! c) as [ps|] eqn:E.
  - by rewrite lookup_insert_eq.
  - rewrite E. simpl. set_solver.
  - by rewrite lookup_insert_ne.
  - done.
Qed.

Lemma acyclic_subrel d d' :
  (∀ u v, parent_rel d' u v → parent_rel d u v) → acyclic d → acyclic d'.
Proof.
  intros Hsub Hac v Hcyc. apply (Hac v).
  eapply tc_congruence with (f := id); [|exact Hcyc]. exact Hsub.
Qed.

(** X2.  [AddEdge] on a well-formed graph returns an error exactly when
    the child is a proper ancestor of the parent, that is when the new
    edge would close a cycle through two or more nodes. *)
Theorem AddEdge_rejects_exactly_cycles (d : DAG) (p c : string) :
  wf d →
  (is_Some (AddEdge p c d).2 ↔ c ≠ p ∧ rtc (parent_rel d) c p).
Proof. apply AddEdge_rejects. Qed.

Lemma AddEdge_rejects_exactly_cycles_witness :
  is_Some (AddEdge "C" "A" chain_ABC).2 ↔
  "A" ≠ "C" ∧ rtc (parent_rel chain_ABC) "A" "C".
Proof.
  apply (AddEdge_rejects_exactly_cycles chain_ABC "C" "A").
  apply reachable_wf. do 2 apply reach_edge. apply reach_new.
Defined.

(** X3.  An accepted [AddEdge p c] makes both endpoints nodes and adds
    the edge [p -> c] and nothing else: [HasEdge] and [Parents] answer
    as before for every other pair. *)
Theorem AddEdge_success_adds_edge (d : DAG) (p c : string) :
  wf d →
  (AddEdge p c d).2 = None →
  nodes (AddEdge p c d).1 = {[p; c]} ∪ nodes d ∧
  (∀ u v, HasEdge (AddEdge p c d).1 u v = true ↔
          HasEdge d u v = true ∨ (u = p ∧ v = c)) ∧
  (∀ u v, u ∈ Parents (AddEdge p c d).1 v ↔
          u ∈ Parents d v ∨ (u = p ∧ v = c)).
Proof.
  intros Hwf Hok. destruct (AddEdge_accepts d p c Hwf Hok) as (Hn & Hch & Hpa).
  split; [exact Hn|]. split.
  - intros u v. rewrite !HasEdge_true, Hch. case_decide; subst; set_solver.
  - intros u v. rewrite !elem_of_Parents, Hpa. case_decide; subst; set_solver.
Qed.

Lemma AddEdge_success_adds_edge_witness :
  nodes (AddEdge "A" "C" chain_ABC).1 = {["A"; "C"]} ∪ nodes chain_ABC ∧
  (∀ u v, HasEdge (AddEdge "A" "C" chain_ABC).1 u v = true ↔
          HasEdge chain_ABC u v = true ∨ (u = "A" ∧ v = "C")) ∧
  (∀ u v, u ∈ Parents (AddEdge "A" "C" chain_ABC).1 v ↔
          u ∈ Parents chain_ABC v ∨ (u = "A" ∧ v = "C")).
Proof.
  apply (AddEdge_success_adds_edge chain_ABC "A" "C").
  - apply reachable_wf. do 2 apply reach_edge. apply reach_new.
  - vm_compute. reflexivity.
Defined.

(** X4.  [RemoveEdge p c] keeps the nodes, removes the edge [p -> c] and
    no other, from both adjacency maps, and keeps an acyclic graph
    acyclic. *)
Theorem RemoveEdge_removes_only_that_edge (d : DAG) (p c : string) :
  nodes (RemoveEdge p c d) = nodes d ∧
  (∀ u v, HasEdge (RemoveEdge p c d) u v = true ↔
          HasEdge d u v = true ∧ ¬ (u = p ∧ v = c)) ∧
  (∀ u v, u ∈ Parents (RemoveEdge p c d) v ↔
          u ∈ Parents d v ∧ ¬ (u = p ∧ v = c)) ∧
  (acyclic d → acyclic (RemoveEdge p c d)).
Proof.
  split; [done|]. split; [|split].
  - intros u v. rewrite !HasEdge_true, children_of_RemoveEdge.
    case_decide; subst; set_solver.
  - intros u v. rewrite !elem_of_Parents, parents_of_RemoveEdge.
    case_decide; subst; set_solver.
  - apply acyclic_subrel. intros u v. unfold parent_rel.
    rewrite parents_of_RemoveEdge. case_decide; subst; set_solver.
Qed.

(** Removing an edge that [AddEdge] has just added gives back the
    edges the graph had, when the edge was not there before. *)
Theorem RemoveEdge_undoes_AddEdge (d : DAG) (p c : string) :
  wf d →
  HasEdge d p c = false →
  (AddEdge p c d).2 = None →
  ∀ u v, HasEdge (RemoveEdge p c (AddEdge p c d).1) u v = HasEdge d u v ∧
         Parents (RemoveEdge p c (AddEdge p c d).1) v = Parents d v.
Proof.
  intros Hwf Hno Hok u v.
  destruct (AddEdge_accepts d p c Hwf Hok) as (_ & Hch & Hpa).
  apply not_true_iff_false in Hno. rewrite HasEdge_true in Hno.
  assert (Hno' : p ∉ parents_of d c) by (by rewrite <- (wf_mirror d Hwf)).
  split.
  - unfold HasEdge. apply bool_decide_ext.
    rewrite children_of_RemoveEdge.
    case_decide as Hu; [subst u|]; rewrite Hch;
      [rewrite decide_True by done|rewrite decide_False by done]; set_solver.
  - unfold Parents. f_equal. f_equal.
    rewrite parents_of_RemoveEdge.
    case_decide as Hv; [subst v|]; rewrite Hpa;
      [rewrite decide_True by done|rewrite decide_False by done]; set_solver.
Qed.

Lemma RemoveEdge_undoes_AddEdge_witness :
  ∀ u v, HasEdge (RemoveEdge "A" "C" (AddEdge "A" "C" chain_ABC).1) u v =
           HasEdge chain_ABC u v ∧
         Parents (RemoveEdge "A" "C" (AddEdge "A" "C" chain_ABC).1) v =
           Parents chain_ABC v.
Proof.
  apply (RemoveEdge_undoes_AddEdge chain_ABC "A" "C").
  - apply reachable_wf. do 2 apply reach_edge. apply reach_new.
  - vm_compute. reflexivity.
  - vm_compute. reflexivity.
Defined.

Lemma descendantsHelper_transpose fuel d : ∀ node vis,
  descendantsHelper fuel d node vis = ancestorsHelper fuel (transpose d) node vis.
Proof.
  induction fuel as [|fuel IH]; intros node vis; [done|].
  simpl. case_decide; [done|].
  change (parents_of (transpose d) node) with (children_of d node).
  apply foldl_ext_elem. intros [v|] x _; [apply IH|done].
Qed.

Lemma Descendants_transpose d node :
  Descendants d node = Ancestors (transpose d) node.
Proof.
  unfold Descendants, Ancestors.
  by rewrite descendantsHelper_transpose.
Qed.

Lemma rtc_flip {A} (R : relation A) (x y : A) : rtc (flip R) x y ↔ rtc R y x.
Proof.
  split.
  - induction 1 as [|x y z Hxy _ IH]; [apply rtc_refl|].
    eapply rtc_r; [exact IH|exact Hxy].
  - induction 1 as [|a b c Hab _ IH]; [apply rtc_refl|].
    eapply rtc_r; [exact IH|exact Hab].
Qed.

(** X5.  [Descendants] is the converse of [Ancestors] on a well-formed
    graph: [x] is listed among the descendants of [y] exactly when [y]
    is listed among the ancestors of [x]; the list is sorted and has no
    repetition. *)
Theorem Descendants_converse_of_Ancestors (d : DAG) (x y : string) :
  wf d →
  (x ∈ Descendants d y ↔ y ∈ Ancestors d x) ∧
  StronglySorted String.le (Descendants d y) ∧
  NoDup (Descendants d y).
Proof.
  intros Hwf. split; [|rewrite Descendants_transpose; apply Ancestors_sorted].
  rewrite Descendants_transpose, !Ancestors_spec.
  rewrite (rtc_iff (parent_rel (transpose d)) (flip (parent_rel d)) x y).
  - rewrite rtc_flip. split; intros [Hne Hr]; split; congruence.
  - intros a b. unfold parent_rel, flip.
    change (parents_of (transpose d) b) with (children_of d b).
    apply (wf_mirror d Hwf).
Qed.

Lemma Descendants_converse_of_Ancestors_witness :
  ("C" ∈ Descendants chain_ABC "A" ↔ "A" ∈ Ancestors chain_ABC "C") ∧
  StronglySorted String.le (Descendants chain_ABC "A") ∧
  NoDup (Descendants chain_ABC "A").
Proof.
  apply (Descendants_converse_of_Ancestors chain_ABC "C" "A").
  apply reachable_wf. do 2 apply reach_edge. apply reach_new.
Defined.

(** The order that [TopologicalSort] returns lists every node, and an
    edge relates an earlier position to a later one. *)
Lemma TopologicalSort_Ok_inv d order :
  wf d → TopologicalSort d = Some (Ok order) →
  NoDup order ∧ (∀ n, n ∈ order ↔ n ∈ nodes d) ∧
  ∀ u v, parent_rel d u v →
    ∃ i j, order !! i = Some u ∧ order !! j = Some v ∧ (i < j)%nat.
Proof.
  intros Hwf. unfold TopologicalSort.
  destruct (kahn_loop _ d _ _ []) as [order'|] eqn:Hloop; [|done].
  case_decide as Hlen; [done|]. intros [= ->].
  destruct (kahn_loop_sound d Hwf _ _ _ _ _ (kahn_inv_initial d) Hloop)
    as [m Hinv].
  pose proof (ki_nodup _ _ _ _ Hinv) as Hnd. rewrite app_nil_r in Hnd.
  assert (Hsub : ∀ n, n ∈ order → n ∈ nodes d).
  { intros n Hn. apply (ki_nodes _ _ _ _ Hinv). by rewrite app_nil_r. }
  assert (Heq : list_to_set order ≡@{gset string} nodes d).
  { apply set_subseteq_size_equiv.
    - intros n Hn%elem_of_list_to_set. by apply Hsub.
    - rewrite size_list_to_set by done. lia. }
  assert (Hall : ∀ n, n ∈ order ↔ n ∈ nodes d).
  { intros n. by rewrite <- (Heq n), elem_of_list_to_set. }
  split; [done|]. split; [done|].
  intros u v Huv. destruct (wf_nodes d Hwf _ _ Huv) as [_ Hv].
  apply Hall, list_elem_of_split in Hv as (l1 & l2 & ->).
  apply list_before_lookup. by apply (ki_before _ _ _ _ Hinv u v l1 l2).
Qed.

Lemma TopologicalSort_acyclic d :
  wf d → acyclic d →
  ∃ order, TopologicalSort d = Some (Ok order) ∧ ∀ n, n ∈ order ↔ n ∈ nodes d.
Proof.
  intros Hwf Hac. unfold TopologicalSort.
  destruct (kahn_loop_total d Hwf (S (size (nodes d))) _ _ []
              (kahn_inv_initial d)) as [order Horder]; [simpl; lia|].
  rewrite Horder.
  destruct (kahn_loop_sound d Hwf _ _ _ _ _ (kahn_inv_initial d) Horder)
    as [m Hinv].
  assert (Hiff : ∀ n, n ∈ order ↔ n ∈ nodes d).
  { intros n. split.
    - intros Hn. apply (ki_nodes _ _ _ _ Hinv). by rewrite app_nil_r.
    - by apply (kahn_complete d m). }
  pose proof (ki_nodup _ _ _ _ Hinv) as Hnd. rewrite app_nil_r in Hnd.
  assert (Hlen : length order = size (nodes d)).
  { rewrite <- (size_list_to_set (C := gset string) order Hnd).
    f_equal. apply set_eq. intros n. by rewrite elem_of_list_to_set. }
  exists order. split; [|exact Hiff]. by case_decide.
Qed.

(** X6.  On a well-formed graph [TopologicalSort] returns an order exactly
    when the graph has no cycle, self-loops included; otherwise it
    returns its error.  The order lists every node once. *)
Theorem TopologicalSort_succeeds_iff_acyclic (d : DAG) :
  wf d →
  ((∃ order, TopologicalSort d = Some (Ok order)) ↔ acyclic d) ∧
  (TopologicalSort d = Some (Err "cycle detected in graph") ↔ ¬ acyclic d) ∧
  (∀ order, TopologicalSort d = Some (Ok order) → order ≡ₚ Nodes d).
Proof.
  intros Hwf.
  assert (Hok : ∀ order, TopologicalSort d = Some (Ok order) → acyclic d).
  { intros order Horder.
    destruct (TopologicalSort_Ok_inv d order Hwf Horder) as (Hnd & _ & Hedge).
    assert (Hlt : ∀ u v, tc (parent_rel d) u v →
              ∃ i j, order !! i = Some u ∧ order !! j = Some v ∧ (i < j)%nat).
    { induction 1 as [u v Huv|u w v Huw _ IH]; [by apply Hedge|].
      destruct (Hedge u w Huw) as (i & j & Hi & Hj & Hij).
      destruct IH as (j' & k & Hj' & Hk & Hjk).
      pose proof (NoDup_lookup _ _ _ _ Hnd Hj Hj') as ->.
      exists i, k. split; [done|]. split; [done|]. lia. }
    intros v Hcyc. destruct (Hlt v v Hcyc) as (i & j & Hi & Hj & Hij).
    pose proof (NoDup_lookup _ _ _ _ Hnd Hi Hj). lia. }
  split; [|split].
  - split; [intros [order Horder]; by eapply Hok|].
    intros Hac. destruct (TopologicalSort_acyclic d Hwf Hac) as (order & H1 & _).
    by exists order.
  - split.
    + intros Herr Hac.
      destruct (TopologicalSort_acyclic d Hwf Hac) as (order & H1 & _). congruence.
    + intros Hnac. destruct (TopologicalSort_total d Hwf) as [r Hr].
      rewrite Hr. destruct r as [order|msg|].
      * destruct Hnac. by eapply Hok.
      * revert Hr. unfold TopologicalSort.
        destruct (kahn_loop _ d _ _ []); [|done]. by case_decide; intros [= <-].
      * revert Hr. unfold TopologicalSort.
        destruct (kahn_loop _ d _ _ []); [|done]. by case_decide.
  - intros order Horder.
    destruct (TopologicalSort_Ok_inv d order Hwf Horder) as (Hnd & Hall & _).
    unfold Nodes. rewrite sort_strings_Permutation.
    apply NoDup_Permutation; [done|apply NoDup_elements|].
    intros n. by rewrite Hall, elem_of_elements.
Qed.

Lemma TopologicalSort_succeeds_iff_acyclic_witness :
  ((∃ order, TopologicalSort chain_ABC = Some (Ok order)) ↔ acyclic chain_ABC) ∧
  (TopologicalSort chain_ABC = Some (Err "cycle detected in graph") ↔
   ¬ acyclic chain_ABC) ∧
  (∀ order, TopologicalSort chain_ABC = Some (Ok order) → order ≡ₚ Nodes chain_ABC).
Proof.
  apply (TopologicalSort_succeeds_iff_acyclic chain_ABC).
  apply reachable_wf. do 2 apply reach_edge. apply reach_new.
Defined.

(** *** Building a graph from an edge list *)

Lemma parent_rel_AddEdge d p c u v :
  wf d → (AddEdge p c d).2 = None →
  parent_rel (AddEdge p c d).1 u v ↔ parent_rel d u v ∨ (u = p ∧ v = c).
Proof.
  intros Hwf Hok. destruct (AddEdge_accepts d p c Hwf Hok) as (_ & _ & Hpa).
  unfold parent_rel. rewrite Hpa. case_decide; subst; set_solver.
Qed.

Lemma add_edges_Ok es : ∀ d d',
  wf d → add_edges es d = Ok d' →
  wf d' ∧
  (∀ n, n ∈ nodes d' ↔ n ∈ nodes d ∨ ∃ e, e ∈ es ∧ (n = e.1 ∨ n = e.2)) ∧
  (∀ u v, parent_rel d' u v ↔ parent_rel d u v ∨ (u, v) ∈ es).
Proof.
  induction es as [|[p c] es IH]; intros d d' Hwf; simpl.
  - intros [= <-]. split; [done|]. split.
    + intros n. split; [by left|]. intros [?|(e & He & _)]; [done|].
      by apply elem_of_nil in He.
    + intros u v. split; [by left|]. intros [?|He]; [done|].
      by apply elem_of_nil in He.
  - destruct (AddEdge p c d).2 as [e|] eqn:E; [done|]. intros Hrest.
    destruct (IH _ _ (wf_AddEdge d p c Hwf) Hrest) as (Hwf' & Hn & Hrel).
    destruct (AddEdge_accepts d p c Hwf E) as (Hn1 & _ & _).
    split; [done|]. split.
    + intros n. rewrite Hn, Hn1. split.
      * intros [Hin|(e & He & Hor)].
        -- apply elem_of_union in Hin as [Hpc|Hin]; [|by left].
           right. exists (p, c). split; [by left|]. simpl. set_solver.
        -- right. exists e. split; [by right|done].
      * intros [Hin|(e & [->|He]%elem_of_cons & Hor)].
        -- left. set_solver.
        -- left. simpl in Hor. set_solver.
        -- right. by exists e.
    + intros u v. rewrite Hrel, (parent_rel_AddEdge d p c u v Hwf E).
      rewrite elem_of_cons. split.
      * intros [[?|[-> ->]]|?]; [by left|right; by left|right; by right].
      * intros [?|[[= -> ->]|?]]; [left; by left|left; by right|by right].
Qed.

Lemma add_edges_err_iff es : ∀ d,
  wf d →
  is_err (add_edges es d) ↔
  ∃ pre p c suf, es = pre ++ (p, c) :: suf ∧ c ≠ p ∧
                 rtc (fun a b => parent_rel d a b ∨ (a, b) ∈ pre) c p.
Proof.
  induction es as [|[p c] es IH]; intros d Hwf; cbn [add_edges].
  - split; [done|]. intros (pre & p & c & suf & Heq & _).
    by destruct pre.
  - pose proof (AddEdge_rejects d p c Hwf) as Hrej.
    destruct (AddEdge p c d).2 as [e|] eqn:E.
    + split; [intros _|done]. exists [], p, c, es. split; [done|].
      destruct (proj1 Hrej (mk_is_Some _ _ eq_refl)) as [Hne Hr].
      split; [done|]. eapply rtc_subrel; [|exact Hr]. intros a b Hab. by left.
    + rewrite (IH _ (wf_AddEdge d p c Hwf)). split.
      * intros (pre & p' & c' & suf & -> & Hne & Hr).
        exists ((p, c) :: pre), p', c', suf. split; [done|]. split; [done|].
        eapply rtc_subrel; [|exact Hr]. intros a b. cbv beta.
        rewrite (parent_rel_AddEdge d p c a b Hwf E), elem_of_cons.
        intros [[?|[-> ->]]|?]; [by left|right; by left|right; by right].
      * intros (pre & p' & c' & suf & Heq & Hne & Hr).
        destruct pre as [|x pre]; simpl in Heq.
        -- assert (p' = p ∧ c' = c ∧ suf = es) as (-> & -> & ->)
             by (by simplify_eq).
           assert (Hsome : is_Some (None : option string)); [|by destruct Hsome].
           apply Hrej. split; [done|].
           eapply rtc_subrel; [|exact Hr]. intros a b [?|Hin]; [done|].
           by apply elem_of_nil in Hin.
        -- assert (x = (p, c) ∧ es = pre ++ (p', c') :: suf) as [-> ->]
             by (by simplify_eq).
           exists pre, p', c', suf. split; [done|]. split; [done|].
           eapply rtc_subrel; [|exact Hr]. intros a b. cbv beta.
           rewrite (parent_rel_AddEdge d p c a b Hwf E), elem_of_cons.
           intros [?|[[= -> ->]|?]]; [left; by left|left; by right|by right].
Qed.

Lemma add_edges_no_panic es : ∀ d, add_edges es d ≠ Panic.
Proof.
  induction es as [|[p c] es IH]; intros d; simpl; [done|].
  by destruct (AddEdge p c d).2.
Qed.

Lemma parent_rel_NewDAG u v : ¬ parent_rel NewDAG u v.
Proof.
  unfold parent_rel, parents_of. simpl. rewrite lookup_empty. apply not_elem_of_empty.
Qed.

(** X7.  When [NewDAGFromEdges] succeeds, the graph is well formed, its
    nodes are the endpoints of the listed edges and its edges are the
    listed ones. *)
Theorem NewDAGFromEdges_builds_listed_edges (es : list (string * string))
    (d : DAG) :
  NewDAGFromEdges es = Ok d →
  wf d ∧
  (∀ n, n ∈ Nodes d ↔ ∃ e, e ∈ es ∧ (n = e.1 ∨ n = e.2)) ∧
  (∀ u v, HasEdge d u v = true ↔ (u, v) ∈ es) ∧
  (∀ u v, u ∈ Parents d v ↔ (u, v) ∈ es).
Proof.
  intros Hok. destruct (add_edges_Ok es _ _ wf_NewDAG Hok) as (Hwf & Hn & Hrel).
  split; [done|]. split; [|split].
  - intros n. unfold Nodes. rewrite elem_of_sort_strings, elem_of_elements, Hn.
    split; [|by right]. intros [Hin|?]; [|done]. by apply elem_of_empty in Hin.
  - intros u v. rewrite HasEdge_true, (wf_mirror d Hwf).
    change (parent_rel d u v ↔ (u, v) ∈ es). rewrite Hrel.
    split; [|by right]. intros [Hin|?]; [|done]. by apply parent_rel_NewDAG in Hin.
  - intros u v. rewrite elem_of_Parents.
    change (parent_rel d u v ↔ (u, v) ∈ es). rewrite Hrel.
    split; [|by right]. intros [Hin|?]; [|done]. by apply parent_rel_NewDAG in Hin.
Qed.

Lemma NewDAGFromEdges_builds_listed_edges_witness :
  wf chain_ABC ∧
  (∀ n, n ∈ Nodes chain_ABC ↔
        ∃ e, e ∈ [("A", "B"); ("B", "C")] ∧ (n = e.1 ∨ n = e.2)) ∧
  (∀ u v, HasEdge chain_ABC u v = true ↔ (u, v) ∈ [("A", "B"); ("B", "C")]) ∧
  (∀ u v, u ∈ Parents chain_ABC v ↔ (u, v) ∈ [("A", "B"); ("B", "C")]).
Proof.
  apply (NewDAGFromEdges_builds_listed_edges [("A", "B"); ("B", "C")] chain_ABC).
  reflexivity.
Defined.

(** X8.  [NewDAGFromEdges] fails exactly when some listed edge [p -> c]
    with [c] different from [p] is preceded in the list by edges that
    lead from [c] to [p]; it never panics.  A list whose only cycles are
    self-edges is accepted. *)
Theorem NewDAGFromEdges_fails_iff_cycle (es : list (string * string)) :
  (is_err (NewDAGFromEdges es) ↔
   ∃ pre p c suf, es = pre ++ (p, c) :: suf ∧ c ≠ p ∧
                  rtc (fun a b => (a, b) ∈ pre) c p) ∧
  NewDAGFromEdges es ≠ Panic.
Proof.
  split; [|apply add_edges_no_panic].
  unfold NewDAGFromEdges. rewrite (add_edges_err_iff es _ wf_NewDAG).
  split; intros (pre & p & c & suf & Heq & Hne & Hr);
    exists pre, p, c, suf; (split; [done|]); (split; [done|]);
    (eapply rtc_subrel; [|exact Hr]); intros a b.
  - intros [Hin|?]; [|done]. by apply parent_rel_NewDAG in Hin.
  - by right.
Qed.

(** *** Copying *)

(** No two distinct nodes reach each other: the only cycles are
    self-loops.  Every graph built through the interface is such. *)
Definition no_proper_cycle (d : DAG) : Prop :=
  ∀ u v, u ≠ v → rtc (parent_rel d) u v → ¬ rtc (parent_rel d) v u.

Lemma rtc_extend {A} (R R' : relation A) (p c : A) :
  (∀ a b, R' a b → R a b ∨ (a = p ∧ b = c)) →
  ∀ x y, rtc R' x y → rtc R x y ∨ (rtc R x p ∧ rtc R c y).
Proof.
  intros Hstep x y Hr. induction Hr as [x|x y z Hxy _ IH].
  - left. apply rtc_refl.
  - destruct (Hstep _ _ Hxy) as [HR|[-> ->]].
    + destruct IH as [Hyz|[Hyp Hcz]]; [left; by eapply rtc_l|].
      right. split; [by eapply rtc_l|done].
    + right. split; [apply rtc_refl|]. by destruct IH as [?|[_ ?]].
Qed.

Lemma no_proper_cycle_subrel d d' :
  (∀ u v, parent_rel d' u v → parent_rel d u v) →
  no_proper_cycle d → no_proper_cycle d'.
Proof.
  intros Hsub Hnpc u v Hne Huv Hvu.
  apply (Hnpc u v Hne); (eapply rtc_subrel; [exact Hsub|done]).
Qed.

Lemma reachable_no_proper_cycle d : reachable d → no_proper_cycle d.
Proof.
  induction 1 as [|d n Hr IH|d p c Hr IH|d p c Hr IH].
  - intros u v Hne Huv _. apply rtc_inv in Huv as [->|(w & Hw & _)]; [done|].
    by apply parent_rel_NewDAG in Hw.
  - apply (no_proper_cycle_subrel d); [|done]. intros u v.
    by rewrite (parent_rel_AddNode d n u v (reachable_wf d Hr)).
  - pose proof (reachable_wf d Hr) as Hwf.
    destruct (AddEdge p c d).2 as [e|] eqn:E.
    + apply (no_proper_cycle_subrel d); [|done]. intros u v.
      revert E. unfold AddEdge. destruct (wouldCreateCycle _ p c); [|done].
      intros _. simpl. unfold parent_rel.
      by rewrite !parents_of_AddNode_wf by (try apply wf_AddNode; done).
    + assert (Hnew : ∀ x y, rtc (parent_rel (AddEdge p c d).1) x y →
                rtc (parent_rel d) x y ∨
                (rtc (parent_rel d) x p ∧ rtc (parent_rel d) c y)).
      { apply rtc_extend. intros a b. by rewrite (parent_rel_AddEdge d p c a b Hwf E). }
      assert (Hacc : c = p ∨ ¬ rtc (parent_rel d) c p).
      { destruct (decide (c = p)) as [|Hne]; [by left|right]. intros Hcp.
        assert (Hsome : is_Some (AddEdge p c d).2)
          by (by apply (AddEdge_rejects d p c Hwf)).
        rewrite E in Hsome. by destruct Hsome. }
      intros u v Hne Huv Hvu. apply Hnew in Huv, Hvu.
      destruct Hacc as [->|Hncp].
      * apply (IH u v Hne).
        -- destruct Huv as [?|[? ?]]; [done|by etrans].
        -- destruct Hvu as [?|[? ?]]; [done|by etrans].
      * destruct Huv as [Huv|[Hup Hcv]], Hvu as [Hvu|[Hvp Hcu]].
        -- by apply (IH u v Hne).
        -- apply Hncp. etrans; [exact Hcu|]. by etrans.
        -- apply Hncp. etrans; [exact Hcv|]. by etrans.
        -- apply Hncp. by etrans.
  - apply (no_proper_cycle_subrel d); [|done]. intros u v. unfold parent_rel.
    rewrite parents_of_RemoveEdge. case_decide; subst; set_solver.
Qed.

Lemma elem_of_Edges d p c : (p, c) ∈ Edges d ↔ c ∈ children_of d p.
Proof.
  unfold Edges, children_of. rewrite list_elem_of_bind. split.
  - intros ([p' cs] & Hin & Hm). simpl in Hin.
    apply list_elem_of_fmap in Hin as (c' & [= -> ->] & Hc).
    apply elem_of_map_to_list in Hm. rewrite Hm. simpl.
    by apply elem_of_elements.
  - destruct (edges d !! p) as [cs|] eqn:E; simpl; [|by intros ?%elem_of_empty].
    intros Hc. exists (p, cs). split; [|by apply elem_of_map_to_list].
    simpl. apply list_elem_of_fmap. exists c. split; [done|].
    by apply elem_of_elements.
Qed.

Lemma foldl_AddNode ns : ∀ d,
  wf d →
  wf (foldl (fun acc n => AddNode n acc) d ns) ∧
  nodes (foldl (fun acc n => AddNode n acc) d ns) = list_to_set ns ∪ nodes d ∧
  ∀ u v, parent_rel (foldl (fun acc n => AddNode n acc) d ns) u v ↔
         parent_rel d u v.
Proof.
  induction ns as [|n ns IH]; intros d Hwf; simpl.
  - split; [done|]. split; [set_solver|done].
  - destruct (IH (AddNode n d) (wf_AddNode d n Hwf)) as (Hwf' & Hn & Hrel).
    split; [done|]. split.
    + rewrite Hn, nodes_AddNode. set_solver.
    + intros u v. by rewrite Hrel, (parent_rel_AddNode d n u v Hwf).
Qed.

Lemma foldl_AddEdge_add_edges es : ∀ d d',
  add_edges es d = Ok d' →
  foldl (fun acc pc => (AddEdge pc.1 pc.2 acc).1) d es = d'.
Proof.
  induction es as [|[p c] es IH]; intros d d'; cbn [add_edges foldl fst snd].
  - by intros [= <-].
  - destruct (AddEdge p c d).2; [done|]. apply IH.
Qed.

(** X9.  For a graph built through the exported interface, [Copy]
    returns a graph with the same nodes and the same edges, in
    whichever order the two loops visit the node map and the edge
    maps. *)
Theorem Copy_preserves_nodes_and_edges (d : DAG) (ns : list string)
    (es : list (string * string)) :
  reachable d →
  ns ≡ₚ elements (nodes d) →
  es ≡ₚ Edges d →
  Nodes (Copy_in ns es) = Nodes d ∧
  ∀ u v, HasEdge (Copy_in ns es) u v = HasEdge d u v ∧
         Parents (Copy_in ns es) v = Parents d v ∧
         Children (Copy_in ns es) u = Children d u.
Proof.
  intros Hreach Hns Hes. pose proof (reachable_wf d Hreach) as Hwf.
  pose proof (reachable_no_proper_cycle d Hreach) as Hnpc.
  unfold Copy_in.
  destruct (foldl_AddNode ns NewDAG wf_NewDAG) as (Hwf1 & Hn1 & Hrel1).
  set (d1 := foldl (fun acc n => AddNode n acc) NewDAG ns) in *.
  assert (Hin : ∀ u v, (u, v) ∈ es ↔ parent_rel d u v).
  { intros u v. by rewrite Hes, elem_of_Edges, (wf_mirror d Hwf). }
  assert (Hn1' : nodes d1 = nodes d).
  { rewrite Hn1. apply set_eq. intros n.
    rewrite elem_of_union, elem_of_list_to_set, Hns, elem_of_elements.
    simpl. set_solver. }
  destruct (add_edges es d1) as [d'|msg|] eqn:Hadd.
  - rewrite (foldl_AddEdge_add_edges es d1 d' Hadd).
    destruct (add_edges_Ok es d1 d' Hwf1 Hadd) as (Hwf' & Hn' & Hrel').
    assert (Hrel : ∀ u v, parent_rel d' u v ↔ parent_rel d u v).
    { intros u v. rewrite Hrel', Hrel1, Hin. split; [|by right].
      intros [Hnew|?]; [|done]. by apply parent_rel_NewDAG in Hnew. }
    assert (Hpar : ∀ v, parents_of d' v = parents_of d v).
    { intros v. apply set_eq. intros u. apply Hrel. }
    assert (Hch : ∀ u, children_of d' u = children_of d u).
    { intros u. apply set_eq. intros v.
      rewrite (wf_mirror d' Hwf'), (wf_mirror d Hwf). apply Hrel. }
    split.
    + unfold Nodes. f_equal. f_equal. apply set_eq. intros n.
      rewrite Hn', Hn1'. split; [|by left].
      intros [?|(e & He & Hor)]; [done|]. destruct e as [u v].
      apply Hin in He. destruct (wf_nodes d Hwf _ _ He). by destruct Hor as [->| ->].
    + intros u v. unfold HasEdge, Parents, Children. by rewrite Hpar, !Hch.
  - exfalso.
    assert (Herr : is_err (add_edges es d1)) by (by rewrite Hadd).
    apply (add_edges_err_iff es d1 Hwf1) in Herr
      as (pre & p & c & suf & Heq & Hne & Hr).
    apply (Hnpc c p Hne).
    + eapply rtc_subrel; [|exact Hr]. intros a b. cbv beta.
      rewrite Hrel1. intros [Hnew|Hpre]; [by apply parent_rel_NewDAG in Hnew|].
      apply Hin. rewrite Heq. apply elem_of_app. by left.
    + apply rtc_once, Hin. rewrite Heq. apply elem_of_app. right. by left.
  - by apply add_edges_no_panic in Hadd.
Qed.

Lemma Copy_preserves_nodes_and_edges_witness :
  Nodes (Copy chain_ABC) = Nodes chain_ABC ∧
  ∀ u v, HasEdge (Copy chain_ABC) u v = HasEdge chain_ABC u v ∧
         Parents (Copy chain_ABC) v = Parents chain_ABC v ∧
         Children (Copy chain_ABC) u = Children chain_ABC u.
Proof.
  apply (Copy_preserves_nodes_and_edges chain_ABC
           (elements (nodes chain_ABC)) (Edges chain_ABC)).
  - do 2 apply reach_edge. apply reach_new.
  - reflexivity.
  - reflexivity.
Defined.

(** *** Undirected graphs

    [UndirectedGraph] keeps one adjacency map; an edge is recorded under
    both of its endpoints.  As for the DAG, an inner map that is absent
    reads as empty; in every state built through the interface the inner
    map of a node exists. *)

Module Undirected.

Record UndirectedGraph : Type := mkUndirectedGraph {
  nodes : gset string;
  edges : gmap string (gset string)
}.

Definition neighbors_of (g : UndirectedGraph) (n : string) : gset string :=
  default ∅ (edges g !! n).

Definition NewUndirectedGraph : UndirectedGraph := mkUndirectedGraph ∅ ∅.

Definition AddNode (node : string) (g : UndirectedGraph) : UndirectedGraph :=
  if decide (node ∈ nodes g) then g
  else mkUndirectedGraph ({[node]} ∪ nodes g) (<[node := ∅]> (edges g)).

Definition AddEdge (node1 node2 : string) (g : UndirectedGraph)
    : UndirectedGraph :=
  let g1 := AddNode node2 (AddNode node1 g) in
  let e1 := <[node1 := {[node2]} ∪ neighbors_of g1 node1]> (edges g1) in
  let e2 := <[node2 := {[node1]} ∪ default ∅ (e1 !! node2)]> e1 in
  mkUndirectedGraph (nodes g1) e2.

Definition RemoveEdge (node1 node2 : string) (g : UndirectedGraph)
    : UndirectedGraph :=
  let e1 := match edges g !! node1 with
            | Some ns => <[node1 := ns ∖ {[node2]}]> (edges g)
            | None => edges g
            end in
  let e2 := match e1 !! node2 with
            | Some ns => <[node2 := ns ∖ {[node1]}]> e1
            | None => e1
            end in
  mkUndirectedGraph (nodes g) e2.

Definition HasEdge (g : UndirectedGraph) (node1 node2 : string) : bool :=
  bool_decide (node2 ∈ neighbors_of g node1).

Definition Nodes (g : UndirectedGraph) : list string :=
  sort_strings (elements (nodes g)).

Definition Neighbors (g : UndirectedGraph) (node : string) : list string :=
  sort_strings (elements (neighbors_of g node)).

(** The [node, neighbor] pairs in the iteration order of the nested
    maps. *)
Definition adjacency (g : UndirectedGraph) : list (string * string) :=
  map_to_list (edges g) ≫= fun pc => (fun c => (pc.1, c)) <$> elements pc.2.

(** [Copy]: every node, then every pair with [node < neighbor] through
    [AddEdge]; the two iteration orders are arguments of [Copy_in]. *)
Definition Copy_in (node_order : list string)
    (pair_order : list (string * string)) : UndirectedGraph :=
  foldl (fun acc pc =>
           if String.ltb pc.1 pc.2 then AddEdge pc.1 pc.2 acc else acc)
        (foldl (fun acc n => AddNode n acc) NewUndirectedGraph node_order)
        pair_order.

Definition Copy (g : UndirectedGraph) : UndirectedGraph :=
  Copy_in (elements (nodes g)) (adjacency g).

(** The invariant of the exported mutators: neighbours are nodes and
    adjacency is symmetric. *)
Record wf (g : UndirectedGraph) : Prop := {
  wf_nodes : ∀ a b, b ∈ neighbors_of g a → a ∈ nodes g;
  wf_sym : ∀ a b, b ∈ neighbors_of g a → a ∈ neighbors_of g b
}.

Inductive reachable : UndirectedGraph → Prop :=
  | reach_new : reachable NewUndirectedGraph
  | reach_node g n : reachable g → reachable (AddNode n g)
  | reach_edge g a b : reachable g → reachable (AddEdge a b g)
  | reach_remove g a b : reachable g → reachable (RemoveEdge a b g).

Lemma ug_nodes_AddNode g n : nodes (AddNode n g) = {[n]} ∪ nodes g.
Proof. unfold AddNode. case_decide; simpl; set_solver. Qed.

Lemma neighbors_of_AddNode g n x :
  wf g → neighbors_of (AddNode n g) x = neighbors_of g x.
Proof.
  intros Hwf. unfold AddNode. case_decide as Hn; [done|].
  unfold neighbors_of. simpl. destruct (decide (x = n)) as [->|Hne].
  - rewrite lookup_insert_eq. simpl. symmetry. apply set_eq. intros b.
    split; [|by intros ?%elem_of_empty]. intros Hb.
    destruct Hn. by apply (wf_nodes g Hwf n b).
  - by rewrite lookup_insert_ne.
Qed.

Lemma ug_wf_AddNode g n : wf g → wf (AddNode n g).
Proof.
  intros Hwf. split.
  - intros a b. rewrite neighbors_of_AddNode, ug_nodes_AddNode by done.
    intros Hb%(wf_nodes g Hwf). set_solver.
  - intros a b. rewrite !neighbors_of_AddNode by done. apply (wf_sym g Hwf).
Qed.

Lemma neighbors_of_AddEdge g a b x :
  wf g →
  neighbors_of (AddEdge a b g) x =
  neighbors_of g x ∪ (if decide (x = a) then {[b]} else ∅)
                   ∪ (if decide (x = b) then {[a]} else ∅).
Proof.
  intros Hwf. unfold AddEdge. unfold neighbors_of at 1. simpl.
  assert (Hg1 : ∀ y, neighbors_of (AddNode b (AddNode a g)) y = neighbors_of g y).
  { intros y. by rewrite !neighbors_of_AddNode by (try apply ug_wf_AddNode; done). }
  destruct (decide (x = b)) as [->|Hxb].
  - rewrite lookup_insert_eq. simpl. destruct (decide (b = a)) as [->|Hba].
    + rewrite lookup_insert_eq. simpl. rewrite Hg1. set_solver.
    + rewrite lookup_insert_ne by done.
      change (default ∅ (edges (AddNode b (AddNode a g)) !! b))
        with (neighbors_of (AddNode b (AddNode a g)) b).
      rewrite Hg1. set_solver.
  - rewrite lookup_insert_ne by done. destruct (decide (x = a)) as [->|Hxa].
    + rewrite lookup_insert_eq. simpl. rewrite Hg1. set_solver.
    + rewrite lookup_insert_ne by done.
      change (default ∅ (edges (AddNode b (AddNode a g)) !! x))
        with (neighbors_of (AddNode b (AddNode a g)) x).
      rewrite Hg1. set_solver.
Qed.

Lemma ug_nodes_AddEdge g a b : nodes (AddEdge a b g) = {[a; b]} ∪ nodes g.
Proof. unfold AddEdge. simpl. rewrite !ug_nodes_AddNode. set_solver. Qed.

Lemma ug_wf_AddEdge g a b : wf g → wf (AddEdge a b g).
Proof.
  intros Hwf. split.
  - intros x y. rewrite neighbors_of_AddEdge, ug_nodes_AddEdge by done.
    rewrite !elem_of_union. intros [[Hy%(wf_nodes g Hwf)|Hy]|Hy].
    + set_solver.
    + case_decide; [subst; set_solver|by apply elem_of_empty in Hy].
    + case_decide; [subst; set_solver|by apply elem_of_empty in Hy].
  - intros x y. rewrite !neighbors_of_AddEdge by done.
    rewrite !elem_of_union. intros [[Hy%(wf_sym g Hwf)|Hy]|Hy].
    + by left; left.
    + case_decide; [subst x|by apply elem_of_empty in Hy].
      apply elem_of_singleton in Hy as ->. right. rewrite decide_True by done.
      by apply elem_of_singleton.
    + case_decide; [subst x|by apply elem_of_empty in Hy].
      apply elem_of_singleton in Hy as ->. left; right.
      rewrite decide_True by done. by apply elem_of_singleton.
Qed.

Lemma neighbors_of_RemoveEdge g a b x :
  neighbors_of (RemoveEdge a b g) x =
  neighbors_of g x ∖ (if decide (x = a) then {[b]} else ∅)
                   ∖ (if decide (x = b) then {[a]} else ∅).
Proof.
  unfold RemoveEdge. unfold neighbors_of at 1. simpl.
  set (e1 := match edges g !! a with
             | Some ns => <[a := ns ∖ {[b]}]> (edges g)
             | None => edges g
             end).
  assert (He1 : ∀ y, default ∅ (e1 !! y) =
            neighbors_of g y ∖ (if decide (y = a) then {[b]} else ∅)).
  { intros y. unfold e1, neighbors_of.
    destruct (decide (y = a)) as [->|Hya]; destruct (edges g !! a) as [ns|] eqn:E.
    - by rewrite lookup_insert_eq.
    - rewrite E. simpl. set_solver.
    - rewrite lookup_insert_ne by done. set_solver.
    - set_solver. }
  destruct (decide (x = b)) as [->|Hxb].
  - destruct (e1 !! b) as [ns|] eqn:E.
    + rewrite lookup_insert_eq. simpl. rewrite <- He1, E. done.
    + rewrite E. rewrite <- He1, E. simpl. set_solver.
  - destruct (e1 !! b) as [ns|] eqn:E.
    + rewrite lookup_insert_ne by done. rewrite He1. set_solver.
    + rewrite He1. set_solver.
Qed.

Lemma ug_wf_RemoveEdge g a b : wf g → wf (RemoveEdge a b g).
Proof.
  intros Hwf. split.
  - intros x y. rewrite neighbors_of_RemoveEdge.
    intros Hy. apply (wf_nodes g Hwf x y). set_solver.
  - intros x y. rewrite !neighbors_of_RemoveEdge.
    rewrite !elem_of_difference. intros [[Hy%(wf_sym g Hwf) Hn1] Hn2].
    destruct (decide (x = a)), (decide (x = b)),
             (decide (y = a)), (decide (y = b)); set_solver.
Qed.

Lemma ug_wf_New : wf NewUndirectedGraph.
Proof.
  split; intros a b; unfold neighbors_of; simpl; rewrite lookup_empty;
    by intros ?%elem_of_empty.
Qed.

Lemma ug_reachable_wf g : reachable g → wf g.
Proof.
  induction 1; [apply ug_wf_New|by apply ug_wf_AddNode|by apply ug_wf_AddEdge|
                by apply ug_wf_RemoveEdge].
Qed.

Lemma HasEdge_iff g a b : HasEdge g a b = true ↔ b ∈ neighbors_of g a.
Proof. unfold HasEdge. apply bool_decide_eq_true. Qed.

Lemma ltb_irrefl (x : string) : String.ltb x x = false.
Proof.
  pose proof (String.compare_antisym x x) as H. unfold String.ltb.
  destruct (String.compare x x); simpl in H; congruence.
Qed.

Lemma ltb_total (x y : string) :
  x ≠ y → String.ltb x y = true ∨ String.ltb y x = true.
Proof.
  intros Hne. unfold String.ltb. rewrite (String.compare_antisym y x).
  destruct (String.compare x y) eqn:E; simpl; auto.
  by apply String.compare_eq_iff in E.
Qed.

Lemma elem_of_adjacency g a b : (a, b) ∈ adjacency g ↔ b ∈ neighbors_of g a.
Proof.
  unfold adjacency, neighbors_of. rewrite list_elem_of_bind. split.
  - intros ([a' ns] & Hin & Hm). simpl in Hin.
    apply list_elem_of_fmap in Hin as (b' & [= -> ->] & Hb).
    apply elem_of_map_to_list in Hm. rewrite Hm. simpl.
    by apply elem_of_elements.
  - destruct (edges g !! a) as [ns|] eqn:E; simpl; [|by intros ?%elem_of_empty].
    intros Hb. exists (a, ns). split; [|by apply elem_of_map_to_list].
    simpl. apply list_elem_of_fmap. exists b. split; [done|].
    by apply elem_of_elements.
Qed.

Lemma foldl_ug_AddNode ns : ∀ g,
  wf g →
  wf (foldl (fun acc n => AddNode n acc) g ns) ∧
  nodes (foldl (fun acc n => AddNode n acc) g ns) = list_to_set ns ∪ nodes g ∧
  ∀ x, neighbors_of (foldl (fun acc n => AddNode n acc) g ns) x = neighbors_of g x.
Proof.
  induction ns as [|n ns IH]; intros g Hwf; simpl.
  - split; [done|]. split; [set_solver|done].
  - destruct (IH (AddNode n g) (ug_wf_AddNode g n Hwf)) as (Hwf' & Hn & Hnb).
    split; [done|]. split.
    + rewrite Hn, ug_nodes_AddNode. set_solver.
    + intros x. by rewrite Hnb, neighbors_of_AddNode.
Qed.

(** A run of [AddEdge] over the pairs that satisfy [keep]. *)
Lemma foldl_ug_AddEdge (keep : string * string → bool) ps : ∀ g,
  wf g →
  let r := foldl (fun acc pc => if keep pc then AddEdge pc.1 pc.2 acc else acc)
                 g ps in
  wf r ∧
  (∀ n, n ∈ nodes r ↔
        n ∈ nodes g ∨ ∃ pc, pc ∈ ps ∧ keep pc = true ∧ (n = pc.1 ∨ n = pc.2)) ∧
  (∀ x y, y ∈ neighbors_of r x ↔
          y ∈ neighbors_of g x ∨
          ((x, y) ∈ ps ∧ keep (x, y) = true) ∨
          ((y, x) ∈ ps ∧ keep (y, x) = true)).
Proof.
  induction ps as [|[a b] ps IH]; intros g Hwf; cbn [foldl fst snd].
  - split; [done|]. split.
    + intros n. split; [by left|]. intros [?|(pc & Hpc & _)]; [done|].
      by apply elem_of_nil in Hpc.
    + intros x y. split; [by left|].
      intros [?|[[Hpc _]|[Hpc _]]]; [done|by apply elem_of_nil in Hpc..].
  - destruct (keep (a, b)) eqn:Hk.
    + destruct (IH _ (ug_wf_AddEdge g a b Hwf)) as (Hwf' & Hn & Hnb).
      split; [done|]. split.
      * intros n. rewrite Hn, ug_nodes_AddEdge. split.
        -- intros [Hin|(pc & Hpc & Hkp & Hor)].
           ++ apply elem_of_union in Hin as [Hab|?]; [|by left].
              right. exists (a, b). split; [by left|]. split; [done|].
              simpl. set_solver.
           ++ right. exists pc. split; [by right|done].
        -- intros [Hin|(pc & [->|Hpc]%elem_of_cons & Hkp & Hor)].
           ++ left. set_solver.
           ++ left. simpl in Hor. set_solver.
           ++ right. by exists pc.
      * intros x y. rewrite Hnb, neighbors_of_AddEdge by done.
        rewrite !elem_of_cons, !elem_of_union. split.
        -- intros [[[?|Hy]|Hy]|[[? ?]|[? ?]]]; [by left| | |by right; left; auto|
                                                 by right; right; auto].
           ++ case_decide; [subst x|by apply elem_of_empty in Hy].
              apply elem_of_singleton in Hy as ->. right; left. auto.
           ++ case_decide; [subst x|by apply elem_of_empty in Hy].
              apply elem_of_singleton in Hy as ->. right; right. auto.
        -- intros [?|[[[[= -> ->]|?] Hkp]|[[[= -> ->]|?] Hkp]]].
           ++ by left; left; left.
           ++ left; left; right. rewrite decide_True by done.
              by apply elem_of_singleton.
           ++ by right; left.
           ++ left; right. rewrite decide_True by done.
              by apply elem_of_singleton.
           ++ by right; right.
    + destruct (IH _ Hwf) as (Hwf' & Hn & Hnb).
      split; [done|]. split.
      * intros n. rewrite Hn. split.
        -- intros [?|(pc & Hpc & Hkp & Hor)]; [by left|].
           right. exists pc. split; [by right|done].
        -- intros [?|(pc & [->|Hpc]%elem_of_cons & Hkp & Hor)]; [by left|congruence|].
           right. by exists pc.
      * intros x y. rewrite Hnb, !elem_of_cons. split.
        -- intros [?|[[? ?]|[? ?]]]; [by left|right; left; auto|right; right; auto].
        -- intros [?|[[[[= -> ->]|?] Hkp]|[[[= -> ->]|?] Hkp]]];
             [by left|congruence|by right; left|congruence|by right; right].
Qed.

(** X10.  In an undirected graph built through its interface, [HasEdge]
    is symmetric and the endpoints of every edge are nodes. *)
Theorem undirected_HasEdge_symmetric (g : UndirectedGraph) (a b : string) :
  reachable g →
  HasEdge g a b = HasEdge g b a ∧
  (HasEdge g a b = true → a ∈ Nodes g ∧ b ∈ Nodes g).
Proof.
  intros Hwf%ug_reachable_wf. split.
  - unfold HasEdge. apply bool_decide_ext. split; apply (wf_sym g Hwf).
  - rewrite HasEdge_iff. intros Hab. unfold Nodes.
    rewrite !elem_of_sort_strings, !elem_of_elements. split.
    + by apply (wf_nodes g Hwf a b).
    + apply (wf_nodes g Hwf b a). by apply (wf_sym g Hwf).
Qed.

Lemma undirected_HasEdge_symmetric_witness :
  HasEdge (AddEdge "A" "B" NewUndirectedGraph) "A" "B" =
    HasEdge (AddEdge "A" "B" NewUndirectedGraph) "B" "A" ∧
  (HasEdge (AddEdge "A" "B" NewUndirectedGraph) "A" "B" = true →
   "A" ∈ Nodes (AddEdge "A" "B" NewUndirectedGraph) ∧
   "B" ∈ Nodes (AddEdge "A" "B" NewUndirectedGraph)).
Proof.
  apply (undirected_HasEdge_symmetric (AddEdge "A" "B" NewUndirectedGraph) "A" "B").
  apply reach_edge, reach_new.
Defined.

(** [AddEdge a b] adds the edge in both directions and nothing else;
    [RemoveEdge a b] removes it in both directions and nothing else, and
    keeps the nodes. *)
Theorem undirected_AddEdge_RemoveEdge (g : UndirectedGraph) (a b : string) :
  reachable g →
  (∀ x y, HasEdge (AddEdge a b g) x y = true ↔
          HasEdge g x y = true ∨ (x = a ∧ y = b) ∨ (x = b ∧ y = a)) ∧
  (∀ x y, HasEdge (RemoveEdge a b g) x y = true ↔
          HasEdge g x y = true ∧ ¬ (x = a ∧ y = b) ∧ ¬ (x = b ∧ y = a)) ∧
  nodes (AddEdge a b g) = {[a; b]} ∪ nodes g ∧
  nodes (RemoveEdge a b g) = nodes g.
Proof.
  intros Hwf%ug_reachable_wf. split; [|split; [|split]].
  - intros x y. rewrite !HasEdge_iff, neighbors_of_AddEdge by done.
    destruct (decide (x = a)), (decide (x = b)); set_solver.
  - intros x y. rewrite !HasEdge_iff, neighbors_of_RemoveEdge.
    destruct (decide (x = a)), (decide (x = b)); set_solver.
  - apply ug_nodes_AddEdge.
  - done.
Qed.

Lemma undirected_AddEdge_RemoveEdge_witness :
  (∀ x y, HasEdge (AddEdge "A" "B" NewUndirectedGraph) x y = true ↔
          HasEdge NewUndirectedGraph x y = true ∨
          (x = "A" ∧ y = "B") ∨ (x = "B" ∧ y = "A")) ∧
  (∀ x y, HasEdge (RemoveEdge "A" "B" NewUndirectedGraph) x y = true ↔
          HasEdge NewUndirectedGraph x y = true ∧
          ¬ (x = "A" ∧ y = "B") ∧ ¬ (x = "B" ∧ y = "A")) ∧
  nodes (AddEdge "A" "B" NewUndirectedGraph) =
    {["A"; "B"]} ∪ nodes NewUndirectedGraph ∧
  nodes (RemoveEdge "A" "B" NewUndirectedGraph) = nodes NewUndirectedGraph.
Proof.
  apply (undirected_AddEdge_RemoveEdge NewUndirectedGraph "A" "B").
  apply reach_new.
Defined.

(** X11.  [Copy] of an undirected graph built through its interface keeps
    the nodes and the edges between distinct nodes, and drops every
    self-loop: the guard [node < neighbor] never holds for one. *)
Theorem undirected_Copy_drops_self_loops (g : UndirectedGraph)
    (ns : list string) (ps : list (string * string)) :
  reachable g →
  ns ≡ₚ elements (nodes g) →
  ps ≡ₚ adjacency g →
  Nodes (Copy_in ns ps) = Nodes g ∧
  ∀ a b, HasEdge (Copy_in ns ps) a b = true ↔ HasEdge g a b = true ∧ a ≠ b.
Proof.
  intros Hwf%ug_reachable_wf Hns Hps. unfold Copy_in.
  destruct (foldl_ug_AddNode ns _ ug_wf_New) as (Hwf1 & Hn1 & Hnb1).
  set (g1 := foldl (fun acc n => AddNode n acc) NewUndirectedGraph ns) in *.
  destruct (foldl_ug_AddEdge (fun pc => String.ltb pc.1 pc.2) ps g1 Hwf1)
    as (Hwf2 & Hn2 & Hnb2).
  cbv zeta in Hn2, Hnb2.
  assert (Hin : ∀ x y, (x, y) ∈ ps ↔ y ∈ neighbors_of g x).
  { intros x y. by rewrite Hps, elem_of_adjacency. }
  split.
  - unfold Nodes. f_equal. f_equal. apply set_eq. intros n.
    rewrite Hn2, Hn1, elem_of_union, elem_of_list_to_set, Hns, elem_of_elements.
    split.
    + intros [[?|Hemp]|([x y] & Hpc & _ & Hor)]; [done|by apply elem_of_empty in Hemp|].
      apply Hin in Hpc. simpl in Hor. destruct Hor as [->| ->].
      * by apply (wf_nodes g Hwf x y).
      * apply (wf_nodes g Hwf y x). by apply (wf_sym g Hwf).
    + intros Hn. left. by left.
  - intros a b. rewrite !HasEdge_iff, Hnb2, Hnb1, !Hin. simpl. split.
    + intros [Hemp|[[Hab Hlt]|[Hba Hlt]]].
      * unfold neighbors_of in Hemp. simpl in Hemp. rewrite lookup_empty in Hemp.
        by apply elem_of_empty in Hemp.
      * split; [done|]. intros ->. by rewrite ltb_irrefl in Hlt.
      * split; [by apply (wf_sym g Hwf)|]. intros ->. by rewrite ltb_irrefl in Hlt.
    + intros [Hab Hne]. right.
      destruct (ltb_total a b Hne) as [Hlt|Hlt]; [left; by split|right].
      split; [by apply (wf_sym g Hwf)|done].
Qed.

Lemma undirected_Copy_drops_self_loops_witness :
  Nodes (Copy (AddEdge "A" "A" (AddEdge "A" "B" NewUndirectedGraph))) =
    Nodes (AddEdge "A" "A" (AddEdge "A" "B" NewUndirectedGraph)) ∧
  ∀ a b,
    HasEdge (Copy (AddEdge "A" "A" (AddEdge "A" "B" NewUndirectedGraph))) a b = true ↔
    HasEdge (AddEdge "A" "A" (AddEdge "A" "B" NewUndirectedGraph)) a b = true ∧ a ≠ b.
Proof.
  apply (undirected_Copy_drops_self_loops
           (AddEdge "A" "A" (AddEdge "A" "B" NewUndirectedGraph))
           (elements (nodes (AddEdge "A" "A" (AddEdge "A" "B" NewUndirectedGraph))))
           (adjacency (AddEdge "A" "A" (AddEdge "A" "B" NewUndirectedGraph)))).
  - do 2 apply reach_edge. apply reach_new.
  - reflexivity.
  - reflexivity.
Defined.

Lemma foldl_AddEdge_all ps g :
  wf g →
  wf (foldl (fun acc pc => AddEdge pc.1 pc.2 acc) g ps) ∧
  (∀ n, n ∈ nodes (foldl (fun acc pc => AddEdge pc.1 pc.2 acc) g ps) ↔
        n ∈ nodes g ∨ ∃ pc, pc ∈ ps ∧ (n = pc.1 ∨ n = pc.2)) ∧
  (∀ x y, y ∈ neighbors_of (foldl (fun acc pc => AddEdge pc.1 pc.2 acc) g ps) x ↔
          y ∈ neighbors_of g x ∨ (x, y) ∈ ps ∨ (y, x) ∈ ps).
Proof.
  intros Hwf.
  destruct (foldl_ug_AddEdge (fun _ => true) ps g Hwf) as (Hwf' & Hn & Hnb).
  cbv beta zeta iota in Hwf', Hn, Hnb.
  split; [done|]. split.
  - intros n. rewrite Hn. split.
    + intros [?|(pc & ? & _ & ?)]; [by left|right; by exists pc].
    + intros [?|(pc & ? & ?)]; [by left|right; by exists pc].
  - intros x y. rewrite Hnb. tauto.
Qed.

End Undirected.

(** *** Moral graph *)

(** The inner double loop of [MoralGraph]: an edge between every two
    parents [parents[i]], [parents[j]] with [i < j]. *)
Fixpoint marry (ps : list string) (ug : Undirected.UndirectedGraph)
    : Undirected.UndirectedGraph :=
  match ps with
  | [] => ug
  | p :: rest =>
      marry rest (foldl (fun acc q => Undirected.AddEdge p q acc) ug rest)
  end.

(** [MoralGraph]: the nodes, then the edges of the DAG as undirected
    edges, then the marriages of the parents of every node.  The three
    loops range over Go maps; their orders are arguments. *)
Definition MoralGraph_in (node_order : list string)
    (edge_order : list (string * string)) (child_order : list string)
    (d : DAG) : Undirected.UndirectedGraph :=
  let ug1 := foldl (fun acc n => Undirected.AddNode n acc)
                   Undirected.NewUndirectedGraph node_order in
  let ug2 := foldl (fun acc pc => Undirected.AddEdge pc.1 pc.2 acc)
                   ug1 edge_order in
  foldl (fun acc child => marry (Parents d child) acc) ug2 child_order.

Definition MoralGraph (d : DAG) : Undirected.UndirectedGraph :=
  MoralGraph_in (elements (nodes d)) (Edges d) (elements (nodes d)) d.

(** The pairs that [marry] visits. *)
Fixpoint pairs (ps : list string) : list (string * string) :=
  match ps with
  | [] => []
  | p :: rest => ((fun q => (p, q)) <$> rest) ++ pairs rest
  end.

Lemma marry_pairs ps : ∀ ug,
  marry ps ug = foldl (fun acc pc => Undirected.AddEdge pc.1 pc.2 acc) ug (pairs ps).
Proof.
  induction ps as [|p rest IH]; intros ug; [done|].
  cbn [marry pairs]. rewrite foldl_app, IH. f_equal.
  by rewrite foldl_fmap.
Qed.

Lemma foldl_marry (P : string → list string) cs : ∀ ug,
  foldl (fun acc child => marry (P child) acc) ug cs =
  foldl (fun acc pc => Undirected.AddEdge pc.1 pc.2 acc) ug
        (cs ≫= fun c => pairs (P c)).
Proof.
  induction cs as [|c cs IH]; intros ug; [done|].
  cbn [foldl]. rewrite bind_cons, foldl_app, IH. by rewrite marry_pairs.
Qed.

Lemma elem_of_pairs ps a b : (a, b) ∈ pairs ps → a ∈ ps ∧ b ∈ ps.
Proof.
  induction ps as [|p rest IH]; [by intros ?%elem_of_nil|].
  cbn [pairs]. rewrite elem_of_app, list_elem_of_fmap.
  intros [(q & [= -> ->] & Hq)|Hin].
  - split; [by left|by right].
  - destruct (IH Hin). split; by right.
Qed.

Lemma pairs_distinct ps a b : NoDup ps → (a, b) ∈ pairs ps → a ≠ b.
Proof.
  induction ps as [|p rest IH]; [by intros _ ?%elem_of_nil|].
  intros [Hp Hnd]%NoDup_cons. cbn [pairs].
  rewrite elem_of_app, list_elem_of_fmap.
  intros [(q & [= -> ->] & Hq)|Hin]; [congruence|by apply IH].
Qed.

Lemma pairs_complete ps a b :
  a ∈ ps → b ∈ ps → a ≠ b → (a, b) ∈ pairs ps ∨ (b, a) ∈ pairs ps.
Proof.
  induction ps as [|p rest IH]; [by intros ?%elem_of_nil|].
  cbn [pairs]. rewrite !elem_of_cons, !elem_of_app, !list_elem_of_fmap.
  intros [->|Ha] [->|Hb] Hne.
  - done.
  - left; left. by exists b.
  - right; left. by exists a.
  - destruct (IH Ha Hb Hne); [left|right]; by right.
Qed.

(** X12.  The moral graph of a well-formed DAG has the nodes of the DAG;
    two nodes are adjacent in it exactly when the DAG has an edge
    between them in either direction or they are distinct parents of a
    common child.  The iteration orders of the three loops do not
    matter. *)
Theorem MoralGraph_adjacency (d : DAG) (ns cs : list string)
    (es : list (string * string)) :
  wf d →
  ns ≡ₚ elements (nodes d) →
  es ≡ₚ Edges d →
  cs ≡ₚ elements (nodes d) →
  Undirected.Nodes (MoralGraph_in ns es cs d) = Nodes d ∧
  ∀ a b,
    Undirected.HasEdge (MoralGraph_in ns es cs d) a b = true ↔
    HasEdge d a b = true ∨ HasEdge d b a = true ∨
    (a ≠ b ∧ ∃ c, HasEdge d a c = true ∧ HasEdge d b c = true).
Proof.
  intros Hwf Hns Hes Hcs. unfold MoralGraph_in. cbv zeta.
  rewrite foldl_marry, <- foldl_app.
  destruct (Undirected.foldl_ug_AddNode ns _ Undirected.ug_wf_New)
    as (Hwf1 & Hn1 & Hnb1).
  set (ug1 := foldl (fun acc n => Undirected.AddNode n acc)
                    Undirected.NewUndirectedGraph ns) in *.
  set (marr := cs ≫= fun c => pairs (Parents d c)).
  destruct (Undirected.foldl_AddEdge_all (es ++ marr) ug1 Hwf1)
    as (_ & Hn2 & Hnb2).
  assert (Hin : ∀ x y, (x, y) ∈ es ↔ parent_rel d x y).
  { intros x y. by rewrite Hes, elem_of_Edges, (wf_mirror d Hwf). }
  assert (Hmarr : ∀ x y, (x, y) ∈ marr →
            x ≠ y ∧ ∃ c, parent_rel d x c ∧ parent_rel d y c).
  { intros x y (c & Hp & Hc)%list_elem_of_bind. split.
    - apply (pairs_distinct (Parents d c)); [|done]. unfold Parents, sort_strings.
      rewrite merge_sort_Permutation. apply NoDup_elements.
    - exists c. apply elem_of_pairs in Hp as [Hx Hy].
      by rewrite !elem_of_Parents in Hx, Hy. }
  assert (Hempty : ∀ x y, y ∉ Undirected.neighbors_of ug1 x).
  { intros x y. rewrite Hnb1. unfold Undirected.neighbors_of. simpl.
    rewrite lookup_empty. apply not_elem_of_empty. }
  assert (Hedge : ∀ x y, HasEdge d x y = true ↔ parent_rel d x y).
  { intros x y. by rewrite HasEdge_true, (wf_mirror d Hwf). }
  split.
  - unfold Undirected.Nodes, Nodes. f_equal. f_equal. apply set_eq. intros n.
    rewrite Hn2, Hn1, elem_of_union, elem_of_list_to_set, Hns, elem_of_elements.
    split; [|by left; left].
    intros [[?|Hemp]|([x y] & Hpc & Hor)]; [done|by apply elem_of_empty in Hemp|].
    simpl in Hor. apply elem_of_app in Hpc as [Hpc|Hpc].
    + apply Hin in Hpc. destruct (wf_nodes d Hwf _ _ Hpc). by destruct Hor as [->| ->].
    + apply Hmarr in Hpc as (_ & c & Hx & Hy).
      destruct (wf_nodes d Hwf _ _ Hx), (wf_nodes d Hwf _ _ Hy).
      by destruct Hor as [->| ->].
  - intros a b. rewrite Undirected.HasEdge_iff, Hnb2, !elem_of_app, !Hedge.
    split.
    + intros [Hemp|[[Hab|Hab]|[Hba|Hba]]].
      * by apply Hempty in Hemp.
      * left. by apply Hin.
      * right; right. apply Hmarr in Hab as (Hne & c & Ha & Hb).
        split; [done|]. exists c. by rewrite !Hedge.
      * right; left. by apply Hin.
      * right; right. apply Hmarr in Hba as (Hne & c & Hb & Ha).
        split; [done|]. exists c. by rewrite !Hedge.
    + intros [Hab|[Hba|(Hne & c & Ha & Hb)]].
      * right; left; left. by apply Hin.
      * right; right; left. by apply Hin.
      * rewrite !Hedge in Ha, Hb.
        destruct (wf_nodes d Hwf _ _ Ha) as [_ Hc].
        assert (Hcs' : c ∈ cs) by (by rewrite Hcs, elem_of_elements).
        destruct (pairs_complete (Parents d c) a b) as [Hp|Hp];
          [by apply elem_of_Parents..|done| |].
        -- right; left; right. apply list_elem_of_bind. by exists c.
        -- right; right; right. apply list_elem_of_bind. by exists c.
Qed.

Definition collider_ACB : DAG := (AddEdge "B" "C" (AddEdge "A" "C" NewDAG).1).1.

Lemma MoralGraph_adjacency_witness :
  Undirected.Nodes (MoralGraph collider_ACB) = Nodes collider_ACB ∧
  ∀ a b,
    Undirected.HasEdge (MoralGraph collider_ACB) a b = true ↔
    HasEdge collider_ACB a b = true ∨ HasEdge collider_ACB b a = true ∨
    (a ≠ b ∧ ∃ c, HasEdge collider_ACB a c = true ∧ HasEdge collider_ACB b c = true).
Proof.
  apply (MoralGraph_adjacency collider_ACB (elements (nodes collider_ACB))
           (elements (nodes collider_ACB)) (Edges collider_ACB)).
  - apply reachable_wf. do 2 apply reach_edge. apply reach_new.
  - reflexivity.
  - reflexivity.
  - reflexivity.
Defined.

(** The parents of a collider are married. *)
Lemma MoralGraph_example :
  Undirected.HasEdge (MoralGraph collider_ACB) "A" "B" = true ∧
  HasEdge collider_ACB "A" "B" = false.
Proof. vm_compute. auto. Qed.

End Graph.

(** ** Package factors: discrete factors *)

Module Factors.

(** Go's [int] on a 64-bit target: results of [+] and [*] wrap. *)
Definition wrap64 (z : Z) : Z := (z + 2 ^ 63) `mod` 2 ^ 64 - 2 ^ 63.
Definition imul (a b : Z) : Z := wrap64 (a * b).
Definition iadd (a b : Z) : Z := wrap64 (a + b).

(** The arithmetic on table entries.  The source fixes [float64]
    ([float_scalar]); the operations on factors only add, multiply and
    copy entries, so they are written once over this interface. *)
Class Scalar (V : Type) : Type := {
  zero : V;
  add : V → V → V;
  mul : V → V → V
}.

#[export] Instance float_scalar : Scalar float :=
  {| zero := 0%float; add := PrimFloat.add; mul := PrimFloat.mul |}.

(** Exact integer arithmetic, used to exercise the statements that
    need an associative and commutative sum. *)
#[export] Instance Z_scalar : Scalar Z :=
  {| zero := 0; add := Z.add; mul := Z.mul |}.

(** [m[k]] on a [map[string]int]: zero when absent. *)
Definition at_key (m : gmap string Z) (k : string) : Z := default 0 (m !! k).

(** [for i := 0; i < n; i++ { body }] over a state that may panic. *)
Definition for_loop {S : Type} (n : Z) (body : Z → S → option S) (st : S)
    : option S :=
  foldl (fun acc i => acc ≫= body i) (Some st) (seqZ 0 n).

(** [size := 1; for _, v := range vars { size *= cardinality[v] }] *)
Definition table_size (vars : list string) (cardinality : gmap string Z) : Z :=
  foldl (fun size v => imul size (at_key cardinality v)) 1 vars.

(** [assignmentToIndex]: the loop runs from the last variable to the
    first, carrying [(idx, stride)]. *)
Definition index_step (assignment cardinality : gmap string Z) (v : string)
    (st : Z * Z) : Z * Z :=
  (iadd st.1 (imul (at_key assignment v) st.2), imul st.2 (at_key cardinality v)).

Definition assignmentToIndex (vars : list string)
    (assignment cardinality : gmap string Z) : Z :=
  (foldr (index_step assignment cardinality) (0, 1) vars).1.

Section discrete.
Context {V : Type} `{!Scalar V}.

Record DiscreteFactor : Type := mkDiscreteFactor {
  Variables : list string;
  Cardinality : gmap string Z;
  Values : list V
}.

(** [s[i]] and [s[i] = x] on a slice: out of range panics. *)
Definition read (s : list V) (i : Z) : option V :=
  if decide (0 ≤ i) then s !! Z.to_nat i else None.

Definition write (s : list V) (i : Z) (x : V) : option (list V) :=
  if decide (0 ≤ i < Z.of_nat (length s)) then Some (<[Z.to_nat i := x]> s)
  else None.

(** [make([]float64, size)]: a negative length panics. *)
Definition make (size : Z) : option (list V) :=
  if decide (0 ≤ size) then Some (replicate (Z.to_nat size) zero) else None.

(** The error texts are the format strings of the source; [%d] verbs
    are left uninterpolated. *)
Definition NewDiscreteFactor (variables : list string)
    (cardinality : gmap string Z) (values : list V) : result DiscreteFactor :=
  let size := table_size variables cardinality in
  if decide (Z.of_nat (length values) ≠ size) then
    Err "values length %d does not match expected size %d"
  else Ok (mkDiscreteFactor variables cardinality values).

Definition projectAssignmentToIndex (f : DiscreteFactor)
    (assignment : gmap string Z) : Z :=
  assignmentToIndex (Variables f) assignment (Cardinality f).

(** The recursive helpers share one shape: [depth] walks along [vars],
    so the model recurses on the variables still to assign, [rest =
    vars[depth:]]; the state is the pair of the two objects the source
    mutates, the assignment map and the result slice. *)
Definition helper_state : Type := gmap string Z * list V.

Definition multiply_leaf (f other : DiscreteFactor) (vars : list string)
    (cardinality : gmap string Z) (st : helper_state) : option helper_state :=
  let idx := assignmentToIndex vars st.1 cardinality in
  let idx1 := projectAssignmentToIndex f st.1 in
  let idx2 := projectAssignmentToIndex other st.1 in
  x1 ← read (Values f) idx1;
  x2 ← read (Values other) idx2;
  result ← write st.2 idx (mul x1 x2);
  Some (st.1, result).

Fixpoint multiplyHelper (f other : DiscreteFactor) (vars : list string)
    (cardinality : gmap string Z) (rest : list string) (st : helper_state)
    : option helper_state :=
  match rest with
  | [] => multiply_leaf f other vars cardinality st
  | v :: rest' =>
      for_loop (at_key cardinality v)
        (fun i st => multiplyHelper f other vars cardinality rest'
                       (<[v := i]> st.1, st.2)) st
  end.

(** Merging the cardinality maps: the first disagreement met while
    ranging over [other.Cardinality] is reported. *)
Definition merge_step (acc : result (gmap string Z)) (kv : string * Z)
    : result (gmap string Z) :=
  match acc with
  | Ok newCard =>
      match newCard !! kv.1 with
      | Some existing =>
          if decide (existing ≠ kv.2)
          then Err ("cardinality mismatch for variable " +:+ kv.1)
          else Ok (<[kv.1 := kv.2]> newCard)
      | None => Ok (<[kv.1 := kv.2]> newCard)
      end
  | other => other
  end.

Definition merge_cardinality (c1 c2 : gmap string Z) : result (gmap string Z) :=
  foldl merge_step (Ok c1) (map_to_list c2).

Definition union_vars (vs1 vs2 : list string) : list string :=
  sort_strings (elements (list_to_set (vs1 ++ vs2) : gset string)).

Definition Multiply (f other : DiscreteFactor) : result DiscreteFactor :=
  let newVars := union_vars (Variables f) (Variables other) in
  match merge_cardinality (Cardinality f) (Cardinality other) with
  | Ok newCard =>
      match make (table_size newVars newCard) with
      | None => Panic
      | Some newValues =>
          match multiplyHelper f other newVars newCard newVars (∅, newValues) with
          | None => Panic
          | Some st => NewDiscreteFactor newVars newCard st.2
          end
      end
  | Err msg => Err msg
  | Panic => Panic
  end.

Definition restrict_cardinality (f : DiscreteFactor) (newVars : list string)
    : gmap string Z :=
  foldl (fun newCard v => <[v := at_key (Cardinality f) v]> newCard) ∅ newVars.

Definition marginalize_leaf (f : DiscreteFactor) (newVars : list string)
    (newCard : gmap string Z) (st : helper_state) : option helper_state :=
  let oldIdx := projectAssignmentToIndex f st.1 in
  let newIdx := assignmentToIndex newVars st.1 newCard in
  x ← read (Values f) oldIdx;
  y ← read st.2 newIdx;
  result ← write st.2 newIdx (add y x);
  Some (st.1, result).

Fixpoint marginalizeHelper (f : DiscreteFactor) (newVars : list string)
    (newCard : gmap string Z) (rest : list string) (st : helper_state)
    : option helper_state :=
  match rest with
  | [] => marginalize_leaf f newVars newCard st
  | v :: rest' =>
      for_loop (at_key (Cardinality f) v)
        (fun i st => marginalizeHelper f newVars newCard rest'
                       (<[v := i]> st.1, st.2)) st
  end.

(** [sum := 0.0; for _, v := range values { sum += v }] *)
Definition sum_values (values : list V) : V := foldl add zero values.

Definition Marginalize (f : DiscreteFactor) (variables : list string)
    : result DiscreteFactor :=
  let toRemove : gset string := list_to_set variables in
  let newVars := filter (fun v => v ∉ toRemove) (Variables f) in
  match newVars with
  | [] => NewDiscreteFactor [] ∅ [sum_values (Values f)]
  | _ :: _ =>
      let newCard := restrict_cardinality f newVars in
      match make (table_size newVars newCard) with
      | None => Panic
      | Some newValues =>
          match marginalizeHelper f newVars newCard (Variables f) (∅, newValues) with
          | None => Panic
          | Some st => NewDiscreteFactor newVars newCard st.2
          end
      end
  end.

Definition reduce_leaf (f : DiscreteFactor) (vars : list string)
    (newCard : gmap string Z) (st : helper_state) : option helper_state :=
  let oldIdx := projectAssignmentToIndex f st.1 in
  let newIdx := assignmentToIndex vars st.1 newCard in
  x ← read (Values f) oldIdx;
  result ← write st.2 newIdx x;
  Some (st.1, result).

Fixpoint reduceHelper (f : DiscreteFactor) (vars : list string)
    (newCard : gmap string Z) (rest : list string) (st : helper_state)
    : option helper_state :=
  match rest with
  | [] => reduce_leaf f vars newCard st
  | v :: rest' =>
      for_loop (at_key newCard v)
        (fun i st => reduceHelper f vars newCard rest' (<[v := i]> st.1, st.2)) st
  end.

(** [Reduce].  The opening loop of the source over [evidence] only
    searches [f.Variables] and has no effect; it is omitted. *)
Definition Reduce (f : DiscreteFactor) (evidence : gmap string Z)
    : result DiscreteFactor :=
  let newVars := filter (fun v => evidence !! v = None) (Variables f) in
  match newVars with
  | [] =>
      match read (Values f) (projectAssignmentToIndex f evidence) with
      | None => Panic
      | Some x => NewDiscreteFactor [] ∅ [x]
      end
  | _ :: _ =>
      let newCard := restrict_cardinality f newVars in
      match make (table_size newVars newCard) with
      | None => Panic
      | Some newValues =>
          match reduceHelper f newVars newCard newVars (evidence, newValues) with
          | None => Panic
          | Some st => NewDiscreteFactor newVars newCard st.2
          end
      end
  end.

End discrete.

Arguments DiscreteFactor V : clear implicits.
Arguments helper_state V : clear implicits.

(** *** Stride arithmetic

    The index of the specification, in unbounded integers:
    [idx = Σᵢ aᵢ · ∏_{j>i} card[vⱼ]]. *)

Fixpoint prod_card (cardinality : gmap string Z) (vars : list string) : Z :=
  match vars with
  | [] => 1
  | v :: vars' => at_key cardinality v * prod_card cardinality vars'
  end.

Fixpoint stride_index (vars : list string) (assignment cardinality : gmap string Z)
    : Z :=
  match vars with
  | [] => 0
  | v :: vars' =>
      at_key assignment v * prod_card cardinality vars' +
      stride_index vars' assignment cardinality
  end.

(** Every listed variable has a declared, positive number of states. *)
Definition positive_on (vars : list string) (cardinality : gmap string Z) : Prop :=
  ∀ v, v ∈ vars → 0 < at_key cardinality v.

(** The assignment gives every listed variable a state in [[0, card)]. *)
Definition valid_on (vars : list string) (assignment cardinality : gmap string Z)
    : Prop :=
  ∀ v, v ∈ vars → 0 ≤ at_key assignment v < at_key cardinality v.

Lemma wrap64_small z : - 2 ^ 63 ≤ z < 2 ^ 63 → wrap64 z = z.
Proof. intros Hz. unfold wrap64. rewrite Z.mod_small; lia. Qed.

Lemma valid_on_positive vars a c : valid_on vars a c → positive_on vars c.
Proof. intros Hv v Hin. specialize (Hv v Hin). lia. Qed.

Lemma positive_on_cons v vars c :
  positive_on (v :: vars) c ↔ 0 < at_key c v ∧ positive_on vars c.
Proof.
  unfold positive_on. split.
  - intros H. split; [apply H; by left|]. intros w Hw. apply H. by right.
  - intros [H1 H2] w [->|Hw]%elem_of_cons; auto.
Qed.

Lemma valid_on_cons v vars a c :
  valid_on (v :: vars) a c ↔
  0 ≤ at_key a v < at_key c v ∧ valid_on vars a c.
Proof.
  unfold valid_on. split.
  - intros H. split; [apply H; by left|]. intros w Hw. apply H. by right.
  - intros [H1 H2] w [->|Hw]%elem_of_cons; auto.
Qed.

Lemma prod_card_pos vars c : positive_on vars c → 0 < prod_card c vars.
Proof.
  induction vars as [|v vars IH]; simpl; [lia|].
  intros [Hv Hp]%positive_on_cons. specialize (IH Hp). nia.
Qed.

Lemma stride_index_range vars a c :
  valid_on vars a c → 0 ≤ stride_index vars a c < prod_card c vars.
Proof.
  induction vars as [|v vars IH]; simpl; [lia|].
  intros [Hv Hp]%valid_on_cons. specialize (IH Hp). nia.
Qed.

(** Within the 64-bit range the loop of [assignmentToIndex] computes
    the stride index and leaves the table size in [stride]. *)
Lemma foldr_index_step vars a c :
  valid_on vars a c → prod_card c vars < 2 ^ 63 →
  foldr (index_step a c) (0, 1) vars = (stride_index vars a c, prod_card c vars).
Proof.
  induction vars as [|v vars IH]; simpl; [done|].
  intros [Hv Hp]%valid_on_cons Hlt.
  pose proof (prod_card_pos vars c (valid_on_positive _ _ _ Hp)) as Hpos.
  pose proof (stride_index_range vars a c Hp) as Hr.
  rewrite IH by (done || nia). unfold index_step, iadd, imul. simpl.
  rewrite (wrap64_small (at_key a v * _)) by nia.
  rewrite !wrap64_small by nia. f_equal; lia.
Qed.

Lemma assignmentToIndex_stride vars a c :
  valid_on vars a c → prod_card c vars < 2 ^ 63 →
  assignmentToIndex vars a c = stride_index vars a c.
Proof.
  intros Hv Hlt. unfold assignmentToIndex. by rewrite foldr_index_step.
Qed.

Lemma table_size_prod vars c :
  positive_on vars c → prod_card c vars < 2 ^ 63 →
  table_size vars c = prod_card c vars.
Proof.
  unfold table_size.
  assert (H : ∀ acc, 0 < acc → positive_on vars c →
            acc * prod_card c vars < 2 ^ 63 →
            foldl (fun size v => imul size (at_key c v)) acc vars =
            acc * prod_card c vars).
  { induction vars as [|v vars IH]; intros acc Hacc Hp Hlt; simpl in *; [lia|].
    apply positive_on_cons in Hp as [Hv Hp].
    pose proof (prod_card_pos vars c Hp) as Hpos.
    unfold imul at 2. rewrite wrap64_small by nia.
    rewrite IH; [lia|nia|done|nia]. }
  intros Hp Hlt. rewrite H; [lia|lia|done|lia].
Qed.

(** Mixed-radix digits are unique. *)
Lemma stride_index_inj vars a1 a2 c :
  valid_on vars a1 c → valid_on vars a2 c →
  stride_index vars a1 c = stride_index vars a2 c →
  ∀ v, v ∈ vars → at_key a1 v = at_key a2 v.
Proof.
  induction vars as [|v vars IH]; simpl.
  { intros _ _ _ w Hw. by apply elem_of_nil in Hw. }
  intros [Hv1 Hp1]%valid_on_cons [Hv2 Hp2]%valid_on_cons Heq.
  pose proof (stride_index_range vars a1 c Hp1) as Hr1.
  pose proof (stride_index_range vars a2 c Hp2) as Hr2.
  assert (Hd : at_key a1 v = at_key a2 v) by nia.
  intros w [->|Hw]%elem_of_cons; [done|].
  apply IH; [done..| |done]. rewrite Hd in Heq. lia.
Qed.

Lemma assignmentToIndex_ext vars a1 a2 c1 c2 :
  (∀ v, v ∈ vars → at_key a1 v = at_key a2 v) →
  (∀ v, v ∈ vars → at_key c1 v = at_key c2 v) →
  assignmentToIndex vars a1 c1 = assignmentToIndex vars a2 c2.
Proof.
  intros Ha Hc. unfold assignmentToIndex. f_equal.
  induction vars as [|v vars IH]; simpl; [done|].
  rewrite IH by (intros; (apply Ha || apply Hc); by right).
  unfold index_step. rewrite Ha, Hc by (by left). done.
Qed.

Lemma stride_index_ext vars a1 a2 c :
  (∀ v, v ∈ vars → at_key a1 v = at_key a2 v) →
  stride_index vars a1 c = stride_index vars a2 c.
Proof.
  intros Ha. induction vars as [|v vars IH]; simpl; [done|].
  rewrite IH by (intros; apply Ha; by right). by rewrite Ha by (by left).
Qed.

Lemma prod_card_ext vars c1 c2 :
  (∀ v, v ∈ vars → at_key c1 v = at_key c2 v) →
  prod_card c1 vars = prod_card c2 vars.
Proof.
  intros Hc. induction vars as [|v vars IH]; simpl; [done|].
  rewrite IH by (intros; apply Hc; by right). by rewrite Hc by (by left).
Qed.

Lemma stride_index_card_ext vars a c1 c2 :
  (∀ v, v ∈ vars → at_key c1 v = at_key c2 v) →
  stride_index vars a c1 = stride_index vars a c2.
Proof.
  intros Hc. induction vars as [|v vars IH]; simpl; [done|].
  rewrite IH by (intros; apply Hc; by right).
  by rewrite (prod_card_ext vars c1 c2) by (intros; apply Hc; by right).
Qed.

(** *** The assignment loops

    The three helpers are instances of one nested loop; its leaves are
    visited in lexicographic order of the assignment. *)

Section loops.
Context {V : Type} `{!Scalar V}.

Fixpoint assignment_loop (bound : string → Z)
    (leaf : helper_state V → option (helper_state V))
    (rest : list string) (st : helper_state V) : option (helper_state V) :=
  match rest with
  | [] => leaf st
  | v :: rest' =>
      for_loop (bound v)
        (fun i st => assignment_loop bound leaf rest' (<[v := i]> st.1, st.2)) st
  end.

(** The assignments seen by the leaves, in order, when the loop starts
    from [a0]. *)
Fixpoint enum (bound : string → Z) (rest : list string) (a0 : gmap string Z)
    : list (gmap string Z) :=
  match rest with
  | [] => [a0]
  | v :: rest' => seqZ 0 (bound v) ≫= (fun i => enum bound rest' (<[v := i]> a0))
  end.

Definition run_leaves (leafR : gmap string Z → list V → option (list V))
    (r : list V) (asgs : list (gmap string Z)) : option (list V) :=
  foldl (fun acc asg => acc ≫= leafR asg) (Some r) asgs.

Definition agree_outside (rest : list string) (a1 a2 : gmap string Z) : Prop :=
  ∀ k, k ∉ rest → a1 !! k = a2 !! k.

Lemma for_loop_ext {S} n (body1 body2 : Z → S → option S) st :
  (∀ i s, body1 i s = body2 i s) → for_loop n body1 st = for_loop n body2 st.
Proof.
  intros Hext. unfold for_loop. generalize (Some st).
  induction (seqZ 0 n) as [|i l IH]; intros acc; simpl; [done|].
  rewrite IH. destruct acc; simpl; [|done]. by rewrite Hext.
Qed.

Lemma multiplyHelper_loop (f other : DiscreteFactor V) vars c rest st :
  multiplyHelper f other vars c rest st =
  assignment_loop (at_key c) (multiply_leaf f other vars c) rest st.
Proof.
  revert st. induction rest as [|v rest IH]; intros st; simpl; [done|].
  apply for_loop_ext. intros i s. apply IH.
Qed.

Lemma marginalizeHelper_loop (f : DiscreteFactor V) newVars newCard rest st :
  marginalizeHelper f newVars newCard rest st =
  assignment_loop (at_key (Cardinality f)) (marginalize_leaf f newVars newCard)
    rest st.
Proof.
  revert st. induction rest as [|v rest IH]; intros st; simpl; [done|].
  apply for_loop_ext. intros i s. apply IH.
Qed.

Lemma reduceHelper_loop (f : DiscreteFactor V) vars newCard rest st :
  reduceHelper f vars newCard rest st =
  assignment_loop (at_key newCard) (reduce_leaf f vars newCard) rest st.
Proof.
  revert st. induction rest as [|v rest IH]; intros st; simpl; [done|].
  apply for_loop_ext. intros i s. apply IH.
Qed.

Lemma run_leaves_None (leafR : gmap string Z → list V → option (list V)) asgs :
  foldl (fun acc asg => acc ≫= leafR asg) None asgs = None.
Proof. induction asgs; simpl; auto. Qed.

Lemma run_leaves_app leafR r l1 l2 :
  run_leaves leafR r (l1 ++ l2) = run_leaves leafR r l1 ≫= fun r1 => run_leaves leafR r1 l2.
Proof.
  unfold run_leaves. rewrite foldl_app.
  destruct (foldl _ (Some r) l1); simpl; [done|]. apply run_leaves_None.
Qed.

Lemma run_leaves_cons leafR r asg l :
  run_leaves leafR r (asg :: l) = leafR asg r ≫= fun r1 => run_leaves leafR r1 l.
Proof.
  unfold run_leaves. simpl. destruct (leafR asg r); simpl; [done|].
  apply run_leaves_None.
Qed.

Section enum_facts.
Variable bound : string → Z.
Variable leaf : helper_state V → option (helper_state V).
Variable leafR : gmap string Z → list V → option (list V).
Hypothesis leaf_keeps_assignment :
  ∀ a r, leaf (a, r) = (fun r' => (a, r')) <$> leafR a r.

(** The loop, although it threads the mutated assignment map through
    all iterations, runs the leaves on the assignments of [enum]. *)
Lemma assignment_loop_enum rest : ∀ a a0 r,
  agree_outside rest a a0 →
  match assignment_loop bound leaf rest (a, r) with
  | Some st => agree_outside rest st.1 a0 ∧
               run_leaves leafR r (enum bound rest a0) = Some st.2
  | None => run_leaves leafR r (enum bound rest a0) = None
  end.
Proof.
  induction rest as [|v rest IH]; intros a a0 r Hag.
  { simpl. assert (a = a0) as ->.
    { apply map_eq. intros k. apply Hag, not_elem_of_nil. }
    rewrite leaf_keeps_assignment, run_leaves_cons.
    destruct (leafR a0 r); simpl; done. }
  simpl. unfold for_loop. generalize (seqZ 0 (bound v)). intros l.
  revert a r Hag. induction l as [|i l IHl]; intros a r Hag.
  { done. }
  cbn [foldl]. rewrite bind_cons, run_leaves_app. cbn [mbind option_bind fst snd].
  assert (Hag' : agree_outside rest (<[v := i]> a) (<[v := i]> a0)).
  { intros k Hk. destruct (decide (k = v)) as [->|Hne].
    - by rewrite !lookup_insert_eq.
    - rewrite !lookup_insert_ne by done. apply Hag.
      rewrite elem_of_cons. naive_solver. }
  specialize (IH _ _ r Hag').
  destruct (assignment_loop bound leaf rest (<[v := i]> a, r)) as [[a1 r1]|].
  - destruct IH as [Hag1 ->]. simpl. apply IHl.
    intros k Hk. rewrite Hag1 by (rewrite elem_of_cons in Hk; naive_solver).
    rewrite lookup_insert_ne; [done|]. rewrite elem_of_cons in Hk. naive_solver.
  - rewrite IH. simpl.
    clear. induction l; simpl; auto.
Qed.

Lemma enum_outside rest : ∀ a0 asg k,
  asg ∈ enum bound rest a0 → k ∉ rest → asg !! k = a0 !! k.
Proof.
  induction rest as [|v rest IH]; intros a0 asg k; simpl.
  { by intros ->%list_elem_of_singleton. }
  intros (i & Hasg & Hi)%list_elem_of_bind Hk.
  rewrite (IH _ _ _ Hasg) by (rewrite elem_of_cons in Hk; naive_solver).
  apply lookup_insert_ne. rewrite elem_of_cons in Hk. naive_solver.
Qed.

Lemma enum_valid rest : ∀ a0 asg v,
  asg ∈ enum bound rest a0 → v ∈ rest → 0 ≤ at_key asg v < bound v.
Proof.
  induction rest as [|w rest IH]; intros a0 asg v; simpl.
  { intros _ Hv. by apply elem_of_nil in Hv. }
  intros (i & Hasg & Hi)%list_elem_of_bind Hv.
  destruct (decide (v ∈ rest)) as [Hin|Hnin]; [by eapply IH|].
  apply elem_of_cons in Hv as [->|]; [|done].
  unfold at_key. rewrite (enum_outside _ _ _ _ Hasg Hnin), lookup_insert_eq.
  simpl. apply elem_of_seqZ in Hi. lia.
Qed.

End enum_facts.

Lemma seqZ_blocks (P : Z) (n : nat) (s : Z) :
  0 ≤ P →
  seqZ s (Z.of_nat n) ≫= (fun i => (fun k => i * P + k) <$> seqZ 0 P) =
  seqZ (s * P) (Z.of_nat n * P).
Proof.
  intros HP. revert s. induction n as [|n IH]; intros s.
  { simpl. rewrite !seqZ_nil by lia. done. }
  rewrite (seqZ_cons s (Z.of_nat (S n))) by lia. rewrite bind_cons.
  replace (Z.pred (Z.of_nat (S n))) with (Z.of_nat n) by lia.
  rewrite IH. change (fun k => s * P + k) with (Z.add (s * P)).
  rewrite (fmap_add_seqZ (s * P) 0 P).
  replace (Z.of_nat (S n) * P) with (P + Z.of_nat n * P) by lia.
  rewrite seqZ_app; [|lia|apply Z.mul_nonneg_nonneg; lia].
  f_equal; [f_equal; lia|]. f_equal; lia.
Qed.

(** The k-th leaf has stride index k. *)
Lemma enum_stride_index c vars : ∀ a0,
  NoDup vars → positive_on vars c →
  (fun asg => stride_index vars asg c) <$> enum (at_key c) vars a0 =
  seqZ 0 (prod_card c vars).
Proof.
  induction vars as [|v vars IH]; intros a0 Hnd Hpos; simpl; [done|].
  apply NoDup_cons in Hnd as [Hv Hnd].
  apply positive_on_cons in Hpos as [Hcv Hpos].
  pose proof (prod_card_pos vars c Hpos) as HP.
  rewrite fmap_list_bind.
  pose proof (seqZ_blocks (prod_card c vars) (Z.to_nat (at_key c v)) 0
                ltac:(lia)) as Hb.
  rewrite Z2Nat.id, Z.mul_0_l in Hb by lia. rewrite <- Hb.
  apply list_bind_ext; [|done]. intros i.
  rewrite <- (IH (<[v := i]> a0)) by done.
  rewrite <- list_fmap_compose. apply Forall_fmap_ext_1, Forall_forall.
  intros asg Hasg. simpl. unfold at_key at 1.
  rewrite (enum_outside _ _ _ _ _ Hasg Hv), lookup_insert_eq. done.
Qed.

Lemma write_length (r r' : list V) i x : write r i x = Some r' → length r' = length r.
Proof. unfold write. case_decide; [|done]. intros [= <-]. apply length_insert. Qed.

Lemma assignment_loop_length bound (leaf : helper_state V → option (helper_state V)) :
  (∀ st st', leaf st = Some st' → length st'.2 = length st.2) →
  ∀ rest st st', assignment_loop bound leaf rest st = Some st' →
                 length st'.2 = length st.2.
Proof.
  intros Hleaf. induction rest as [|v rest IH]; intros st st'; simpl; [apply Hleaf|].
  unfold for_loop. generalize (seqZ 0 (bound v)). intros l. revert st.
  induction l as [|i l IHl]; intros st; simpl.
  { by intros [= <-]. }
  destruct (assignment_loop bound leaf rest (<[v := i]> st.1, st.2)) as [st1|] eqn:E.
  - intros Hf. rewrite (IHl _ Hf). by rewrite (IH _ _ E).
  - simpl. assert (Hn : ∀ l' : list Z, foldl (fun acc i0 => acc ≫=
        fun st0 : helper_state V =>
          assignment_loop bound leaf rest (<[v := i0]> st0.1, st0.2)) None l' = None).
    { induction l'; simpl; auto. }
    by rewrite Hn.
Qed.

Lemma make_length size (r : list V) :
  make size = Some r → Z.of_nat (length r) = size.
Proof.
  unfold make. case_decide; [|done]. intros [= <-].
  rewrite length_replicate. lia.
Qed.

Lemma reduce_leaf_length (f : DiscreteFactor V) vars newCard st st' :
  reduce_leaf f vars newCard st = Some st' → length st'.2 = length st.2.
Proof.
  unfold reduce_leaf. intros H.
  destruct (read (Values f) _); simpl in H; [|done].
  destruct (write st.2 _ _) as [r|] eqn:E; simpl in H; [|done].
  injection H as <-. simpl. by eapply write_length.
Qed.

Lemma NewDiscreteFactor_scalar (x : V) :
  NewDiscreteFactor [] ∅ [x] = Ok (mkDiscreteFactor [] ∅ [x]).
Proof. reflexivity. Qed.

(** *** Merging cardinalities *)

Lemma merge_step_Err msg l :
  foldl merge_step (Err msg) l = Err msg.
Proof. induction l; simpl; auto. Qed.

Lemma merge_fold_ok (c1 : gmap string Z) (l : list (string * Z)) : ∀ m,
  NoDup l.*1 →
  (∀ k v, (k, v) ∈ l → m !! k = c1 !! k) →
  (∀ k v a, (k, v) ∈ l → c1 !! k = Some a → a = v) →
  foldl merge_step (Ok m) l = Ok (list_to_map l ∪ m).
Proof.
  induction l as [|[k v] l IH]; intros m Hnd Hm Hagree; cbn [foldl].
  { simpl. by rewrite (left_id_L ∅ (∪)). }
  apply NoDup_cons in Hnd as [Hk Hnd].
  assert (Hstep : merge_step (Ok m) (k, v) = Ok (<[k := v]> m)).
  { unfold merge_step. simpl. rewrite (Hm k v) by (by left).
    destruct (c1 !! k) as [a|] eqn:E; [|done].
    rewrite (Hagree k v a) by (done || by left). by rewrite decide_False by auto. }
  rewrite Hstep, IH; [| done | | ].
  - rewrite list_to_map_cons, <- insert_union_l, <- insert_union_r; [done|].
    apply not_elem_of_list_to_map_1. done.
  - intros k' v' Hin. rewrite lookup_insert_ne; [apply (Hm k' v'); by right|].
    intros <-. apply Hk. apply list_elem_of_fmap. by exists (k, v').
  - intros k' v' a Hin. apply Hagree. by right.
Qed.

Lemma merge_fold_err (c1 : gmap string Z) (l : list (string * Z)) : ∀ m,
  NoDup l.*1 →
  (∀ k v, (k, v) ∈ l → m !! k = c1 !! k) →
  (∃ k v a, (k, v) ∈ l ∧ c1 !! k = Some a ∧ a ≠ v) →
  is_err (foldl merge_step (Ok m) l).
Proof.
  induction l as [|[k v] l IH]; intros m Hnd Hm (k0 & v0 & a0 & Hin & Hc & Hne).
  { by apply elem_of_nil in Hin. }
  apply NoDup_cons in Hnd as [Hk Hnd]. cbn [foldl].
  unfold merge_step at 2. cbn [fst snd]. rewrite (Hm k v) by (by left).
  assert (Hnext : ∀ k' v', (k', v') ∈ l → <[k := v]> m !! k' = c1 !! k').
  { intros k' v' Hin'. rewrite lookup_insert_ne; [apply (Hm k' v'); by right|].
    intros <-. apply Hk. apply list_elem_of_fmap. by exists (k, v'). }
  apply elem_of_cons in Hin as [[= -> ->]|Hin].
  { rewrite Hc. rewrite decide_True by done. by rewrite merge_step_Err. }
  destruct (c1 !! k) as [a|] eqn:E.
  - case_decide; [by rewrite merge_step_Err|].
    apply IH; [done..|]. by exists k0, v0, a0.
  - apply IH; [done..|]. by exists k0, v0, a0.
Qed.

Lemma merge_cardinality_ok (c1 c2 : gmap string Z) :
  (∀ k a b, c1 !! k = Some a → c2 !! k = Some b → a = b) →
  merge_cardinality c1 c2 = Ok (c2 ∪ c1).
Proof.
  intros Hagree. unfold merge_cardinality.
  rewrite (merge_fold_ok c1); [by rewrite list_to_map_to_list| |done|].
  - apply NoDup_fst_map_to_list.
  - intros k v a Hin%elem_of_map_to_list Hc. by eapply Hagree.
Qed.

Lemma merge_cardinality_err (c1 c2 : gmap string Z) :
  (∃ k a b, c1 !! k = Some a ∧ c2 !! k = Some b ∧ a ≠ b) →
  is_err (merge_cardinality c1 c2).
Proof.
  intros (k & a & b & H1 & H2 & Hne). unfold merge_cardinality.
  apply (merge_fold_err c1); [apply NoDup_fst_map_to_list|done|].
  exists k, b, a. by rewrite elem_of_map_to_list.
Qed.

(** *** Multiplication *)

(** The data-model invariant of a factor: every variable has a declared
    positive cardinality and [Values] has one entry per joint state
    (a slice length, hence below [2^63]). *)
Record wf_factor (f : DiscreteFactor V) : Prop := {
  wf_declared : ∀ v, v ∈ Variables f →
    ∃ c, Cardinality f !! v = Some c ∧ 0 < c;
  wf_length :
    Z.of_nat (length (Values f)) = prod_card (Cardinality f) (Variables f);
  wf_fits : prod_card (Cardinality f) (Variables f) < 2 ^ 63
}.

Lemma wf_positive f : wf_factor f → positive_on (Variables f) (Cardinality f).
Proof.
  intros Hwf v Hv. destruct (wf_declared f Hwf v Hv) as (c & Hc & Hpos).
  unfold at_key. by rewrite Hc.
Qed.

Lemma elem_of_union_vars vs1 vs2 v :
  v ∈ union_vars vs1 vs2 ↔ v ∈ vs1 ∨ v ∈ vs2.
Proof.
  unfold union_vars. rewrite elem_of_sort_strings, elem_of_elements.
  rewrite elem_of_list_to_set, elem_of_app. done.
Qed.

Lemma NoDup_union_vars vs1 vs2 : NoDup (union_vars vs1 vs2).
Proof.
  unfold union_vars, sort_strings. rewrite merge_sort_Permutation.
  apply NoDup_elements.
Qed.

Lemma Sorted_union_vars vs1 vs2 : StronglySorted String.le (union_vars vs1 vs2).
Proof. apply StronglySorted_merge_sort; apply _. Qed.

Lemma write_middle (pre suf : list V) (s x : V) :
  write (pre ++ s :: suf) (Z.of_nat (length pre)) x = Some (pre ++ x :: suf).
Proof.
  unfold write. rewrite decide_True.
  - rewrite Nat2Z.id. f_equal. by rewrite insert_app_r_alt, Nat.sub_diag by lia.
  - rewrite length_app. simpl. lia.
Qed.

(** Leaves that write at consecutive indices fill the slice with their
    values. *)
Lemma run_leaves_seq_writes (leafR : gmap string Z → list V → option (list V))
    (idx : gmap string Z → Z) (val : gmap string Z → V) (asgs : list (gmap string Z)) :
  ∀ pre suf,
    idx <$> asgs = seqZ (Z.of_nat (length pre)) (Z.of_nat (length asgs)) →
    length suf = length asgs →
    (∀ asg r, asg ∈ asgs → leafR asg r = write r (idx asg) (val asg)) →
    run_leaves leafR (pre ++ suf) asgs = Some (pre ++ (val <$> asgs)).
Proof.
  induction asgs as [|asg asgs IH]; intros pre suf Hidx Hlen Hleaf.
  { destruct suf; [|done]. done. }
  destruct suf as [|s suf]; [done|].
  rewrite seqZ_cons in Hidx by (simpl; lia).
  rewrite fmap_cons in Hidx. injection Hidx as Hi Hidx.
  rewrite run_leaves_cons, (Hleaf asg) by (by left). rewrite Hi, write_middle.
  cbn [mbind option_bind]. rewrite fmap_cons.
  replace (pre ++ val asg :: (val <$> asgs))
    with ((pre ++ [val asg]) ++ (val <$> asgs)) by (by rewrite <- app_assoc).
  replace (pre ++ val asg :: suf)
    with ((pre ++ [val asg]) ++ suf) by (by rewrite <- app_assoc).
  apply IH.
  - rewrite Hidx, length_app. simpl. f_equal; lia.
  - simpl in Hlen. lia.
  - intros a r Ha. apply Hleaf. by right.
Qed.

Definition multiply_leafR (f other : DiscreteFactor V) (vars : list string)
    (c : gmap string Z) (asg : gmap string Z) (r : list V) : option (list V) :=
  x1 ← read (Values f) (projectAssignmentToIndex f asg);
  x2 ← read (Values other) (projectAssignmentToIndex other asg);
  write r (assignmentToIndex vars asg c) (mul x1 x2).

Lemma multiply_leaf_keeps f other vars c a r :
  multiply_leaf f other vars c (a, r) =
  (fun r' => (a, r')) <$> multiply_leafR f other vars c a r.
Proof.
  unfold multiply_leaf, multiply_leafR. simpl.
  destruct (read (Values f) _); simpl; [|done].
  destruct (read (Values other) _); simpl; [|done].
  by destruct (write r _ _).
Qed.

(** Reading a well-formed factor at a valid assignment succeeds. *)
Lemma read_valid (f : DiscreteFactor V) asg :
  wf_factor f → valid_on (Variables f) asg (Cardinality f) →
  projectAssignmentToIndex f asg = stride_index (Variables f) asg (Cardinality f) ∧
  is_Some (read (Values f) (projectAssignmentToIndex f asg)).
Proof.
  intros Hwf Hvalid. unfold projectAssignmentToIndex.
  rewrite assignmentToIndex_stride by (done || apply Hwf). split; [done|].
  pose proof (stride_index_range _ _ _ Hvalid) as Hr.
  unfold read. rewrite decide_True by lia.
  apply lookup_lt_is_Some. pose proof (wf_length f Hwf). lia.
Qed.

Lemma at_key_union_l (c1 c2 : gmap string Z) v :
  is_Some (c2 !! v) → at_key (c2 ∪ c1) v = at_key c2 v.
Proof.
  intros [x Hx]. unfold at_key. by rewrite (lookup_union_Some_l _ _ _ _ Hx), Hx.
Qed.

Lemma at_key_union_r (c1 c2 : gmap string Z) v :
  (∀ a b, c1 !! v = Some a → c2 !! v = Some b → a = b) →
  is_Some (c1 !! v) → at_key (c2 ∪ c1) v = at_key c1 v.
Proof.
  intros Hagree [a Ha]. unfold at_key. rewrite lookup_union.
  destruct (c2 !! v) as [b|] eqn:Hb; rewrite Ha; simpl; [|done].
  symmetry. by eapply Hagree.
Qed.

Definition multiply_val (f other : DiscreteFactor V) (asg : gmap string Z) : V :=
  mul (default zero (read (Values f) (projectAssignmentToIndex f asg)))
      (default zero (read (Values other) (projectAssignmentToIndex other asg))).

Lemma multiply_run (f other : DiscreteFactor V) vars nc :
  wf_factor f → wf_factor other →
  NoDup vars → positive_on vars nc → prod_card nc vars < 2 ^ 63 →
  (∀ v, v ∈ Variables f → v ∈ vars ∧ at_key nc v = at_key (Cardinality f) v) →
  (∀ v, v ∈ Variables other → v ∈ vars ∧ at_key nc v = at_key (Cardinality other) v) →
  run_leaves (multiply_leafR f other vars nc)
    (replicate (Z.to_nat (prod_card nc vars)) zero) (enum (at_key nc) vars ∅) =
  Some (multiply_val f other <$> enum (at_key nc) vars ∅).
Proof.
  intros Hf Ho Hnd Hpos Hfits Hsubf Hsubo.
  pose proof (enum_stride_index nc vars ∅ Hnd Hpos) as Hidx.
  pose proof (prod_card_pos vars nc Hpos) as HP.
  assert (Hlen : length (enum (at_key nc) vars ∅) = Z.to_nat (prod_card nc vars)).
  { rewrite <- (length_fmap (fun asg => stride_index vars asg nc)), Hidx.
    apply length_seqZ. }
  apply (run_leaves_seq_writes _ (fun asg => stride_index vars asg nc)
           (multiply_val f other) _ [] _).
  - simpl. rewrite Hidx, Hlen. f_equal. lia.
  - by rewrite length_replicate.
  - intros asg r Hasg.
    assert (Hvalid : valid_on vars asg nc).
    { intros v Hv. by eapply enum_valid. }
    assert (Hvf : valid_on (Variables f) asg (Cardinality f)).
    { intros v Hv. destruct (Hsubf v Hv) as [Hin <-]. by apply Hvalid. }
    assert (Hvo : valid_on (Variables other) asg (Cardinality other)).
    { intros v Hv. destruct (Hsubo v Hv) as [Hin <-]. by apply Hvalid. }
    destruct (read_valid f asg Hf Hvf) as [_ [x Hx]].
    destruct (read_valid other asg Ho Hvo) as [_ [y Hy]].
    unfold multiply_leafR, multiply_val. rewrite Hx, Hy. simpl.
    by rewrite assignmentToIndex_stride.
Qed.


(** *** Marginalization *)

Lemma restrict_cardinality_lookup (f : DiscreteFactor V) (newVars : list string) v :
  v ∈ newVars →
  at_key (restrict_cardinality f newVars) v = at_key (Cardinality f) v.
Proof.
  unfold restrict_cardinality.
  assert (H : ∀ m, (v ∈ newVars ∨ at_key m v = at_key (Cardinality f) v) →
            at_key (foldl (fun nc w => <[w := at_key (Cardinality f) w]> nc) m newVars) v
            = at_key (Cardinality f) v).
  { induction newVars as [|w vs IH]; intros m Hor; simpl.
    - destruct Hor as [Hin|]; [by apply elem_of_nil in Hin|done].
    - apply IH. destruct (decide (v = w)) as [->|Hne].
      + right. unfold at_key at 1. by rewrite lookup_insert_eq.
      + destruct Hor as [Hin|Hm].
        * left. apply elem_of_cons in Hin as [|]; done.
        * right. unfold at_key at 1. by rewrite lookup_insert_ne. }
  intros Hin. apply H. by left.
Qed.

Lemma prod_card_filter_le (P : string → Prop) `{!∀ v, Decision (P v)} vars c :
  positive_on vars c →
  0 < prod_card c (filter P vars) ≤ prod_card c vars.
Proof.
  induction vars as [|v vars IH]; simpl; [lia|].
  intros [Hv Hpos]%positive_on_cons. specialize (IH Hpos).
  rewrite filter_cons. destruct (decide (P v)); simpl; nia.
Qed.

Definition marginalize_leafR (f : DiscreteFactor V) (newVars : list string)
    (newCard : gmap string Z) (asg : gmap string Z) (r : list V) : option (list V) :=
  x ← read (Values f) (projectAssignmentToIndex f asg);
  y ← read r (assignmentToIndex newVars asg newCard);
  write r (assignmentToIndex newVars asg newCard) (add y x).

Lemma marginalize_leaf_keeps f newVars newCard a r :
  marginalize_leaf f newVars newCard (a, r) =
  (fun r' => (a, r')) <$> marginalize_leafR f newVars newCard a r.
Proof.
  unfold marginalize_leaf, marginalize_leafR. simpl.
  destruct (read (Values f) _); simpl; [|done].
  destruct (read r _); simpl; [|done].
  by destruct (write r _ _).
Qed.

(** Reading a slice at the indices [0, 1, ..., len-1] returns it. *)
Lemma read_all (l : list V) (idx : gmap string Z → Z) (asgs : list (gmap string Z)) :
  idx <$> asgs = seqZ 0 (Z.of_nat (length l)) →
  (fun asg => default zero (read l (idx asg))) <$> asgs = l.
Proof.
  intros Hidx.
  assert (Hlen : length asgs = length l).
  { rewrite <- (length_fmap idx), Hidx, length_seqZ. lia. }
  apply list_eq. intros i. rewrite list_lookup_fmap.
  destruct (asgs !! i) as [asg|] eqn:E; simpl.
  - assert (Hi : idx asg = Z.of_nat i).
    { assert (Hl : (idx <$> asgs) !! i = Some (idx asg))
        by (by rewrite list_lookup_fmap, E).
      rewrite Hidx in Hl. apply lookup_seqZ in Hl. lia. }
    rewrite Hi. unfold read. rewrite decide_True by lia. rewrite Nat2Z.id.
    apply lookup_lt_Some in E. rewrite Hlen in E.
    destruct (lookup_lt_is_Some_2 l i E) as [x Hx]. by rewrite Hx.
  - apply lookup_ge_None in E. symmetry. apply lookup_ge_None. lia.
Qed.

Section exact_sum.
(** Exact arithmetic: the sum is associative and commutative with
    [zero] neutral.  Rounded [float64] addition is not associative. *)
Hypothesis add_assoc : ∀ x y z : V, add x (add y z) = add (add x y) z.
Hypothesis add_comm : ∀ x y : V, add x y = add y x.
Hypothesis add_zero_l : ∀ x : V, add zero x = x.

Lemma foldl_add_shift (l : list V) : ∀ w x,
  foldl add (add w x) l = add (foldl add w l) x.
Proof.
  induction l as [|a l IH]; intros w x; simpl; [done|].
  rewrite <- IH. f_equal. rewrite <- !add_assoc. f_equal. apply add_comm.
Qed.

Lemma foldl_add_insert (l : list V) : ∀ (i : nat) z y x,
  l !! i = Some y →
  foldl add z (<[i := add y x]> l) = add (foldl add z l) x.
Proof.
  induction l as [|a l IH]; intros i z y x Hi; [done|].
  destruct i as [|i]; simpl in *.
  - injection Hi as ->. rewrite add_assoc. apply foldl_add_shift.
  - by apply IH.
Qed.

Lemma sum_replicate_zero n : sum_values (replicate n zero) = zero.
Proof.
  unfold sum_values. induction n as [|n IH]; simpl; [done|].
  by rewrite add_zero_l.
Qed.

Lemma run_leaves_sum (f : DiscreteFactor V) newVars newCard
    (asgs : list (gmap string Z)) : ∀ r,
  (∀ asg, asg ∈ asgs →
     0 ≤ assignmentToIndex newVars asg newCard < Z.of_nat (length r) ∧
     is_Some (read (Values f) (projectAssignmentToIndex f asg))) →
  ∃ r', run_leaves (marginalize_leafR f newVars newCard) r asgs = Some r' ∧
        length r' = length r ∧
        sum_values r' =
        foldl add (sum_values r)
          ((fun asg => default zero (read (Values f) (projectAssignmentToIndex f asg)))
             <$> asgs).
Proof.
  induction asgs as [|asg asgs IH]; intros r Hok.
  { exists r. done. }
  destruct (Hok asg ltac:(by left)) as [Hidx [x Hx]].
  destruct (lookup_lt_is_Some_2 r
              (Z.to_nat (assignmentToIndex newVars asg newCard))) as [y Hy]; [lia|].
  assert (Hleaf : marginalize_leafR f newVars newCard asg r =
            Some (<[Z.to_nat (assignmentToIndex newVars asg newCard) := add y x]> r)).
  { unfold marginalize_leafR. rewrite Hx. simpl.
    unfold read. rewrite decide_True by lia. rewrite Hy. simpl.
    unfold write. by rewrite decide_True by lia. }
  rewrite run_leaves_cons, Hleaf. cbn [mbind option_bind].
  destruct (IH (<[Z.to_nat (assignmentToIndex newVars asg newCard) := add y x]> r))
    as (r' & Hrun & Hlen & Hsum).
  { intros a Ha. rewrite length_insert. apply Hok. by right. }
  exists r'. split; [done|]. split; [by rewrite Hlen, length_insert|].
  rewrite Hsum, fmap_cons. cbn [foldl]. rewrite Hx. simpl. f_equal.
  unfold sum_values. by apply foldl_add_insert.
Qed.

Lemma Marginalize_exact_sum (f : DiscreteFactor V) (variables : list string) :
  wf_factor f → NoDup (Variables f) →
  ∃ g, Marginalize f variables = Ok g ∧
       sum_values (Values g) = sum_values (Values f).
Proof.
  intros Hwf Hnd. unfold Marginalize.
  set (P := fun v => v ∉ (list_to_set variables : gset string)).
  destruct (filter P (Variables f)) as [|w newVars'] eqn:Hvars.
  { eexists. split; [reflexivity|]. simpl. unfold sum_values at 1. simpl.
    apply add_zero_l. }
  rewrite <- Hvars. set (newVars := filter P (Variables f)) in *.
  set (newCard := restrict_cardinality f newVars).
  pose proof (wf_positive f Hwf) as Hpos.
  assert (Hcard : ∀ v, v ∈ newVars → at_key newCard v = at_key (Cardinality f) v).
  { intros v Hv. by apply restrict_cardinality_lookup. }
  assert (Hsub : ∀ v, v ∈ newVars → v ∈ Variables f).
  { intros v Hv. by apply list_elem_of_filter in Hv as [_ Hv]. }
  assert (Hpos' : positive_on newVars newCard).
  { intros v Hv. rewrite Hcard by done. auto. }
  assert (Hprod : prod_card newCard newVars = prod_card (Cardinality f) newVars).
  { by apply prod_card_ext. }
  pose proof (prod_card_filter_le P (Variables f) (Cardinality f) Hpos) as Hle.
  fold newVars in Hle. pose proof (wf_fits f Hwf) as Hfits.
  rewrite (table_size_prod newVars newCard Hpos') by lia.
  unfold make. rewrite decide_True by lia.
  rewrite marginalizeHelper_loop.
  pose proof (assignment_loop_enum (at_key (Cardinality f)) _ _
                (marginalize_leaf_keeps f newVars newCard) (Variables f) ∅ ∅
                (replicate (Z.to_nat (prod_card newCard newVars)) zero)
                (fun _ _ => eq_refl)) as Hloop.
  pose proof (enum_stride_index (Cardinality f) (Variables f) ∅ Hnd Hpos) as Hidx.
  destruct (run_leaves_sum f newVars newCard
              (enum (at_key (Cardinality f)) (Variables f) ∅)
              (replicate (Z.to_nat (prod_card newCard newVars)) zero))
    as (r' & Hrun & Hlen & Hsum).
  { intros asg Hasg.
    assert (Hvalid : valid_on (Variables f) asg (Cardinality f)).
    { intros v Hv. by eapply enum_valid. }
    split; [|by apply read_valid].
    assert (Hvalid' : valid_on newVars asg newCard).
    { intros v Hv. rewrite Hcard by done. auto. }
    rewrite assignmentToIndex_stride by (done || lia).
    pose proof (stride_index_range _ _ _ Hvalid'). rewrite length_replicate. lia. }
  rewrite Hrun in Hloop.
  destruct (assignment_loop _ _ _ _) as [st|]; [|done].
  destruct Hloop as [_ [= <-]].
  unfold NewDiscreteFactor. rewrite (table_size_prod newVars newCard Hpos') by lia.
  rewrite decide_False by (rewrite Hlen, length_replicate; lia).
  eexists. split; [reflexivity|]. simpl. rewrite Hsum, sum_replicate_zero.
  unfold sum_values. f_equal.
  apply (read_all (Values f) (projectAssignmentToIndex f)).
  rewrite (wf_length f Hwf), <- Hidx.
  apply Forall_fmap_ext_1, Forall_forall. intros asg Hasg.
  apply read_valid; [done|]. intros v Hv. by eapply enum_valid.
Qed.

End exact_sum.

Lemma Marginalize_all (f : DiscreteFactor V) (variables : list string) :
  (∀ v, v ∈ Variables f → v ∈ variables) →
  Marginalize f variables = Ok (mkDiscreteFactor [] ∅ [sum_values (Values f)]).
Proof.
  intros Hall. unfold Marginalize. rewrite filter_none; [done|].
  intros v Hv Hnot. apply Hnot, elem_of_list_to_set. auto.
Qed.


(** C2, as the code has it.  [Reduce] does not validate evidence
    states: it never returns an error.  When the evidence covers every
    variable of the factor, the result is the scalar factor holding the
    entry at the stride index of the evidence if that index lies inside
    [Values], and a run-time panic otherwise. *)
Theorem Reduce_never_errors (f : DiscreteFactor V) (evidence : gmap string Z) :
  ¬ is_err (Reduce f evidence) ∧
  ((∀ v, v ∈ Variables f → is_Some (evidence !! v)) →
   Reduce f evidence =
   match read (Values f) (projectAssignmentToIndex f evidence) with
   | Some x => Ok (mkDiscreteFactor [] ∅ [x])
   | None => Panic
   end).
Proof.
  split.
  - unfold Reduce.
    destruct (filter _ (Variables f)) as [|w newVars'] eqn:Hvars.
    { destruct (read _ _); [|tauto]. rewrite NewDiscreteFactor_scalar. tauto. }
    destruct (make _) as [newValues|] eqn:Hmake; [|tauto].
    destruct (reduceHelper _ _ _ _ _) as [st|] eqn:Hhelp; [|tauto].
    rewrite reduceHelper_loop in Hhelp.
    apply (assignment_loop_length _ _ (reduce_leaf_length f _ _)) in Hhelp.
    apply make_length in Hmake. simpl in Hhelp.
    unfold NewDiscreteFactor. rewrite decide_False; [tauto|].
    rewrite Hhelp. intros Hne. by apply Hne.
  - intros Hall. unfold Reduce.
    assert (filter (fun v => evidence !! v = None) (Variables f) = []) as ->.
    { apply filter_none. intros v Hv Hnone.
      destruct (Hall v Hv) as [x Hx]. congruence. }
    destruct (read _ _); [|done]. apply NewDiscreteFactor_scalar.
Qed.

End loops.

(** *** Executable well-formedness checks, for concrete factors *)

Definition wf_factorb {V} (f : DiscreteFactor V) : bool :=
  forallb (fun v => match Cardinality f !! v with
                    | Some c => bool_decide (0 < c)
                    | None => false
                    end) (Variables f) &&
  bool_decide (Z.of_nat (length (Values f)) =
               prod_card (Cardinality f) (Variables f)) &&
  bool_decide (prod_card (Cardinality f) (Variables f) < 2 ^ 63).

Lemma wf_factorb_sound {V} `{!Scalar V} (f : DiscreteFactor V) :
  wf_factorb f = true → wf_factor f.
Proof.
  unfold wf_factorb. rewrite !andb_true_iff, !bool_decide_eq_true.
  intros [[Hall Hlen] Hfits]. split; [|done..].
  intros v Hv. rewrite forallb_forall in Hall.
  specialize (Hall v (proj1 (list_elem_of_In _ _) Hv)).
  destruct (Cardinality f !! v) as [c|]; [|done].
  exists c. split; [done|]. by apply bool_decide_eq_true in Hall.
Qed.

Definition agree_cardb (c1 c2 : gmap string Z) : bool :=
  forallb (fun kv => match c1 !! kv.1 with
                     | Some a => bool_decide (a = kv.2)
                     | None => true
                     end) (map_to_list c2).

Lemma agree_cardb_sound (c1 c2 : gmap string Z) :
  agree_cardb c1 c2 = true →
  ∀ k a b, c1 !! k = Some a → c2 !! k = Some b → a = b.
Proof.
  unfold agree_cardb. rewrite forallb_forall. intros Hall k a b Ha Hb.
  specialize (Hall (k, b)). simpl in Hall. rewrite Ha in Hall.
  eapply bool_decide_eq_true_1, Hall, list_elem_of_In. by apply elem_of_map_to_list.
Qed.

Definition factor_A : DiscreteFactor float :=
  mkDiscreteFactor ["A"] {["A" := 2]} [0.25; 0.75]%float.
Definition factor_AB : DiscreteFactor float :=
  mkDiscreteFactor ["B"; "A"] {["A" := 2; "B" := 3]}
    [0.5; 0.5; 0.25; 0.75; 1; 0]%float.

Lemma factor_A_wf : wf_factor factor_A.
Proof. apply wf_factorb_sound. vm_compute. reflexivity. Qed.

Lemma factor_AB_wf : wf_factor factor_AB.
Proof. apply wf_factorb_sound. vm_compute. reflexivity. Qed.

Lemma factor_A_AB_agree :
  ∀ k a b, Cardinality factor_A !! k = Some a →
           Cardinality factor_AB !! k = Some b → a = b.
Proof. apply agree_cardb_sound. vm_compute. reflexivity. Qed.

Lemma factor_A_AB_fits :
  prod_card (Cardinality factor_AB ∪ Cardinality factor_A)
            (union_vars (Variables factor_A) (Variables factor_AB)) < 2 ^ 63.
Proof. vm_compute. reflexivity. Qed.


Example Multiply_example :
  Multiply factor_A factor_AB =
  Ok (mkDiscreteFactor ["A"; "B"] {["A" := 2; "B" := 3]}
        [0.125; 0.0625; 0.25; 0.375; 0.5625; 0]%float).
Proof. vm_compute. reflexivity. Qed.

Definition factor_Z : DiscreteFactor Z :=
  mkDiscreteFactor ["A"; "B"] {["A" := 2; "B" := 2]} [1; 2; 3; 4].



Lemma Reduce_never_errors_witness :
  ¬ is_err (Reduce factor_A {["A" := 5]}) ∧
  Reduce factor_A {["A" := 5]} = Panic ∧
  Reduce factor_A {["A" := 1]} = Ok (mkDiscreteFactor [] ∅ [0.75%float]).
Proof.
  split; [apply (Reduce_never_errors factor_A {["A" := 5]})|].
  split.
  - destruct (Reduce_never_errors factor_A {["A" := 5]}) as [_ ->].
    + vm_compute. reflexivity.
    + intros v ->%list_elem_of_singleton. by eexists.
  - destruct (Reduce_never_errors factor_A {["A" := 1]}) as [_ ->].
    + vm_compute. reflexivity.
    + intros v ->%list_elem_of_singleton. by eexists.
Defined.

(** C2 fails on the code: with [B] ranging over two states, the
    evidence [B = 3] is out of range, yet its stride index [0·2 + 3]
    lies inside the table and [Reduce] returns a factor. *)
Lemma Reduce_out_of_range_accepted :
  let f := mkDiscreteFactor ["A"; "B"] {["A" := 2; "B" := 2]}
             [0.125; 0.25; 0.125; 0.5]%float in
  let evidence : gmap string Z := {["A" := 0; "B" := 3]} in
  ("B" ∈ Variables f ∧ evidence !! "B" = Some 3 ∧
   ¬ (0 ≤ 3 < at_key (Cardinality f) "B")) ∧
  Reduce f evidence = Ok (mkDiscreteFactor [] ∅ [0.5%float]).
Proof.
  simpl. split; [split; [set_solver|split; [done|]]|].
  - vm_compute. intros [_ H]. discriminate H.
  - vm_compute. reflexivity.
Qed.

(** *** Tables filled leaf by leaf

    What the recursive helpers compute when every leaf writes one
    entry, and the consequences for [Reduce], [Marginalize] and
    [Multiply]. *)

Section tables.
Context {V : Type} `{!Scalar V}.

Lemma fill_table (leaf : helper_state V → option (helper_state V))
    (leafR : gmap string Z → list V → option (list V))
    (val : gmap string Z → V) (vars : list string) (nc a0 : gmap string Z) :
  (∀ a r, leaf (a, r) = (fun r' => (a, r')) <$> leafR a r) →
  NoDup vars → positive_on vars nc → prod_card nc vars < 2 ^ 63 →
  (∀ asg r, asg ∈ enum (at_key nc) vars a0 →
     leafR asg r = write r (assignmentToIndex vars asg nc) (val asg)) →
  ∃ st, assignment_loop (at_key nc) leaf vars
          (a0, replicate (Z.to_nat (prod_card nc vars)) zero) = Some st ∧
        Z.of_nat (length st.2) = prod_card nc vars ∧
        ∀ asg, valid_on vars asg nc →
          ∃ asg', (∀ v, v ∈ vars → at_key asg' v = at_key asg v) ∧
                  (∀ k, k ∉ vars → asg' !! k = a0 !! k) ∧
                  read st.2 (stride_index vars asg nc) = Some (val asg').
Proof.
  intros Hkeeps Hnd Hpos Hfits Hleaf.
  pose proof (enum_stride_index nc vars a0 Hnd Hpos) as Hidx.
  pose proof (prod_card_pos vars nc Hpos) as HP.
  assert (Hlen : length (enum (at_key nc) vars a0) = Z.to_nat (prod_card nc vars)).
  { rewrite <- (length_fmap (fun asg => stride_index vars asg nc)), Hidx.
    apply length_seqZ. }
  assert (Hrun : run_leaves leafR (replicate (Z.to_nat (prod_card nc vars)) zero)
                   (enum (at_key nc) vars a0) =
                 Some (val <$> enum (at_key nc) vars a0)).
  { apply (run_leaves_seq_writes _ (fun asg => stride_index vars asg nc) val _ [] _).
    - simpl. rewrite Hidx, Hlen. f_equal. lia.
    - by rewrite length_replicate.
    - intros asg r Hasg. rewrite (Hleaf asg r Hasg).
      rewrite assignmentToIndex_stride; [done| |done].
      intros v Hv. by eapply enum_valid. }
  pose proof (assignment_loop_enum (at_key nc) leaf leafR Hkeeps vars a0 a0
                (replicate (Z.to_nat (prod_card nc vars)) zero)
                (fun _ _ => eq_refl)) as Hloop.
  rewrite Hrun in Hloop.
  destruct (assignment_loop _ _ _ _) as [st|]; [|done].
  destruct Hloop as [_ [= Hst]].
  exists st. split; [done|]. split.
  { rewrite <- Hst, length_fmap, Hlen. lia. }
  intros asg Hvalid.
  pose proof (stride_index_range vars asg nc Hvalid) as Hr.
  destruct (lookup_lt_is_Some_2 (enum (at_key nc) vars a0)
              (Z.to_nat (stride_index vars asg nc))) as [asg' Hasg']; [lia|].
  assert (Hin : asg' ∈ enum (at_key nc) vars a0)
    by (by eapply list_elem_of_lookup_2).
  assert (Hk : stride_index vars asg' nc = stride_index vars asg nc).
  { assert (Hl : ((fun a => stride_index vars a nc) <$> enum (at_key nc) vars a0)
                   !! Z.to_nat (stride_index vars asg nc) =
                 Some (stride_index vars asg' nc)).
    { by rewrite list_lookup_fmap, Hasg'. }
    rewrite Hidx in Hl. apply lookup_seqZ in Hl. lia. }
  assert (Hvalid' : valid_on vars asg' nc).
  { intros v Hv. by eapply enum_valid. }
  exists asg'. split; [|split].
  - by apply (stride_index_inj vars asg' asg nc).
  - intros k Hk'. by eapply enum_outside.
  - unfold read. rewrite decide_True by lia.
    by rewrite <- Hst, list_lookup_fmap, Hasg'.
Qed.

Definition reduce_leafR (f : DiscreteFactor V) (vars : list string)
    (newCard : gmap string Z) (asg : gmap string Z) (r : list V) : option (list V) :=
  x ← read (Values f) (projectAssignmentToIndex f asg);
  write r (assignmentToIndex vars asg newCard) x.

Lemma reduce_leaf_keeps f vars newCard a r :
  reduce_leaf f vars newCard (a, r) =
  (fun r' => (a, r')) <$> reduce_leafR f vars newCard a r.
Proof.
  unfold reduce_leaf, reduce_leafR. simpl.
  destruct (read (Values f) _); simpl; [|done].
  by destruct (write r _ _).
Qed.

Lemma wf_scalar_factor (x : V) : wf_factor (mkDiscreteFactor [] ∅ [x]).
Proof.
  split; simpl; [by intros v ?%elem_of_nil|done|lia].
Qed.

Lemma wf_restricted (f : DiscreteFactor V) (P : string → Prop)
    `{!∀ v, Decision (P v)} (values : list V) :
  wf_factor f →
  Z.of_nat (length values) =
    prod_card (restrict_cardinality f (filter P (Variables f)))
              (filter P (Variables f)) →
  wf_factor (mkDiscreteFactor (filter P (Variables f))
               (restrict_cardinality f (filter P (Variables f))) values).
Proof.
  intros Hwf Hlen.
  assert (Hcard : ∀ v, v ∈ filter P (Variables f) →
            at_key (restrict_cardinality f (filter P (Variables f))) v =
            at_key (Cardinality f) v).
  { intros v Hv. by apply restrict_cardinality_lookup. }
  split; simpl.
  - intros v Hv. pose proof (Hcard v Hv) as Hc.
    apply list_elem_of_filter in Hv as [_ Hv].
    pose proof (wf_positive f Hwf v Hv) as Hpos.
    unfold at_key in Hc at 1.
    destruct (restrict_cardinality f _ !! v) as [c|] eqn:E; simpl in Hc.
    + exists c. split; [done|]. lia.
    + lia.
  - done.
  - rewrite (prod_card_ext _ _ (Cardinality f)) by done.
    pose proof (prod_card_filter_le P (Variables f) (Cardinality f)
                  (wf_positive f Hwf)).
    pose proof (wf_fits f Hwf). lia.
Qed.

(** X13.  [Reduce] on a well-formed factor with distinct variables and
    in-range evidence returns the well-formed factor over the
    unobserved variables (in their original order, with their
    cardinalities) whose entry at any valid assignment consistent with
    the evidence is the entry of the original factor at that
    assignment. *)
Theorem Reduce_selects_entries (f : DiscreteFactor V) (evidence : gmap string Z) :
  wf_factor f →
  NoDup (Variables f) →
  (∀ v e, v ∈ Variables f → evidence !! v = Some e →
          0 ≤ e < at_key (Cardinality f) v) →
  ∃ g, Reduce f evidence = Ok g ∧
       Variables g = filter (fun v => evidence !! v = None) (Variables f) ∧
       wf_factor g ∧
       (∀ v, v ∈ Variables g → at_key (Cardinality g) v = at_key (Cardinality f) v) ∧
       ∀ asg, valid_on (Variables f) asg (Cardinality f) →
              (∀ v e, v ∈ Variables f → evidence !! v = Some e → at_key asg v = e) →
              ∃ x, read (Values f) (projectAssignmentToIndex f asg) = Some x ∧
                   read (Values g) (projectAssignmentToIndex g asg) = Some x.
Proof.
  intros Hwf Hnd Hev. unfold Reduce.
  set (P := fun v => evidence !! v = None).
  destruct (filter P (Variables f)) as [|w newVars'] eqn:Hvars.
  { assert (Hall : ∀ v, v ∈ Variables f → is_Some (evidence !! v)).
    { intros v Hv. destruct (evidence !! v) eqn:E; [by eexists|].
      assert (Hin : v ∈ filter P (Variables f))
        by (by apply list_elem_of_filter).
      rewrite Hvars in Hin. by apply elem_of_nil in Hin. }
    assert (Hvalid : valid_on (Variables f) evidence (Cardinality f)).
    { intros v Hv. destruct (Hall v Hv) as [e He]. unfold at_key at 1 2.
      rewrite He. simpl. by apply Hev. }
    destruct (read_valid f evidence Hwf Hvalid) as [_ [x Hx]]. rewrite Hx.
    exists (mkDiscreteFactor [] ∅ [x]). split; [apply NewDiscreteFactor_scalar|].
    split; [done|]. split; [apply wf_scalar_factor|]. split.
    { by intros v ?%elem_of_nil. }
    intros asg Hvasg Hcons. exists x. split; [|done].
    rewrite <- Hx. f_equal. unfold projectAssignmentToIndex.
    apply assignmentToIndex_ext; [|done]. intros v Hv.
    destruct (Hall v Hv) as [e He]. rewrite (Hcons v e Hv He).
    unfold at_key. by rewrite He. }
  rewrite <- Hvars. set (newVars := filter P (Variables f)) in *.
  set (newCard := restrict_cardinality f newVars).
  pose proof (wf_positive f Hwf) as Hpos.
  assert (Hcard : ∀ v, v ∈ newVars → at_key newCard v = at_key (Cardinality f) v).
  { intros v Hv. by apply restrict_cardinality_lookup. }
  assert (Hpos' : positive_on newVars newCard).
  { intros v Hv. rewrite Hcard by done.
    apply Hpos. by apply list_elem_of_filter in Hv as [_ Hv]. }
  assert (Hprod : prod_card newCard newVars = prod_card (Cardinality f) newVars).
  { by apply prod_card_ext. }
  pose proof (prod_card_filter_le P (Variables f) (Cardinality f) Hpos) as Hle.
  fold newVars in Hle. pose proof (wf_fits f Hwf) as Hfits.
  assert (Hnd' : NoDup newVars) by (by apply NoDup_filter).
  assert (Hfull : ∀ asg,
            valid_on newVars asg newCard →
            (∀ k, k ∉ newVars → asg !! k = evidence !! k) →
            valid_on (Variables f) asg (Cardinality f)).
  { intros asg Hv1 Hout v Hv. destruct (decide (v ∈ newVars)) as [Hin|Hnin].
    - rewrite <- Hcard by done. by apply Hv1.
    - destruct (evidence !! v) as [e|] eqn:E.
      + unfold at_key at 1 2. rewrite (Hout v Hnin), E. simpl. by apply Hev.
      + destruct Hnin. by apply list_elem_of_filter. }
  rewrite (table_size_prod newVars newCard Hpos') by lia.
  unfold make. rewrite decide_True by lia.
  rewrite reduceHelper_loop.
  destruct (fill_table (reduce_leaf f newVars newCard)
              (reduce_leafR f newVars newCard)
              (fun asg => default zero (read (Values f) (projectAssignmentToIndex f asg)))
              newVars newCard evidence (reduce_leaf_keeps f newVars newCard)
              Hnd' Hpos' ltac:(lia))
    as (st & Hst & Hlen & Hread).
  { intros asg r Hasg. unfold reduce_leafR.
    destruct (read_valid f asg Hwf) as [_ [x Hx]]; [|by rewrite Hx].
    apply Hfull; [intros v Hv; by eapply enum_valid|].
    intros k Hk. by eapply enum_outside. }
  rewrite Hst. unfold NewDiscreteFactor.
  rewrite (table_size_prod newVars newCard Hpos') by lia.
  rewrite decide_False by lia.
  eexists. split; [done|]. simpl. split; [done|].
  split; [by apply wf_restricted|]. split; [done|].
  intros asg Hvasg Hcons.
  assert (Hvasg' : valid_on newVars asg newCard).
  { intros v Hv. rewrite Hcard by done.
    apply Hvasg. by apply list_elem_of_filter in Hv as [_ Hv]. }
  destruct (Hread asg Hvasg') as (asg' & Hsame & Hout & Hr).
  destruct (read_valid f asg Hwf Hvasg) as [_ [x Hx]].
  exists x. split; [done|].
  unfold projectAssignmentToIndex at 1. simpl.
  rewrite assignmentToIndex_stride by (done || lia). rewrite Hr. f_equal.
  unfold projectAssignmentToIndex in Hx |- *.
  rewrite (assignmentToIndex_ext (Variables f) asg' asg _ (Cardinality f)).
  - by rewrite Hx.
  - intros v Hv. destruct (decide (v ∈ newVars)) as [Hin|Hnin]; [by apply Hsame|].
    destruct (evidence !! v) as [e|] eqn:E.
    + rewrite (Hcons v e Hv E). unfold at_key. by rewrite (Hout v Hnin), E.
    + destruct Hnin. by apply list_elem_of_filter.
  - done.
Qed.

Lemma run_leaves_marginalize_total (f : DiscreteFactor V) newVars newCard
    (asgs : list (gmap string Z)) : ∀ r,
  (∀ asg, asg ∈ asgs →
     0 ≤ assignmentToIndex newVars asg newCard < Z.of_nat (length r) ∧
     is_Some (read (Values f) (projectAssignmentToIndex f asg))) →
  ∃ r', run_leaves (marginalize_leafR f newVars newCard) r asgs = Some r' ∧
        length r' = length r.
Proof.
  induction asgs as [|asg asgs IH]; intros r Hok.
  { exists r. done. }
  destruct (Hok asg ltac:(by left)) as [Hidx [x Hx]].
  destruct (lookup_lt_is_Some_2 r
              (Z.to_nat (assignmentToIndex newVars asg newCard))) as [y Hy]; [lia|].
  assert (Hleaf : marginalize_leafR f newVars newCard asg r =
            Some (<[Z.to_nat (assignmentToIndex newVars asg newCard) := add y x]> r)).
  { unfold marginalize_leafR. rewrite Hx. simpl.
    unfold read. rewrite decide_True by lia. rewrite Hy. simpl.
    unfold write. by rewrite decide_True by lia. }
  rewrite run_leaves_cons, Hleaf. cbn [mbind option_bind].
  destruct (IH (<[Z.to_nat (assignmentToIndex newVars asg newCard) := add y x]> r))
    as (r' & Hrun & Hlen).
  { intros a Ha. rewrite length_insert. apply Hok. by right. }
  exists r'. split; [done|]. by rewrite Hlen, length_insert.
Qed.

(** X14.  [Marginalize] never fails on a well-formed factor with distinct
    variables: it returns a well-formed factor over the remaining
    variables, in their original order and with their cardinalities. *)
Theorem Marginalize_keeps_remaining_variables (f : DiscreteFactor V)
    (variables : list string) :
  wf_factor f →
  NoDup (Variables f) →
  ∃ g, Marginalize f variables = Ok g ∧
       Variables g = filter (fun v => v ∉ variables) (Variables f) ∧
       wf_factor g ∧
       ∀ v, v ∈ Variables g → at_key (Cardinality g) v = at_key (Cardinality f) v.
Proof.
  intros Hwf Hnd. unfold Marginalize.
  set (P := fun v => v ∉ (list_to_set variables : gset string)).
  assert (HP : filter P (Variables f) = filter (fun v => v ∉ variables) (Variables f)).
  { apply filter_ext_elem_of. intros v _. unfold P. by rewrite elem_of_list_to_set. }
  destruct (filter P (Variables f)) as [|w newVars'] eqn:Hvars.
  { eexists. split; [reflexivity|]. simpl. split; [done|].
    split; [apply wf_scalar_factor|]. by intros v ?%elem_of_nil. }
  rewrite <- Hvars. rewrite <- Hvars in HP. set (newVars := filter P (Variables f)) in *.
  set (newCard := restrict_cardinality f newVars).
  pose proof (wf_positive f Hwf) as Hpos.
  assert (Hcard : ∀ v, v ∈ newVars → at_key newCard v = at_key (Cardinality f) v).
  { intros v Hv. by apply restrict_cardinality_lookup. }
  assert (Hpos' : positive_on newVars newCard).
  { intros v Hv. rewrite Hcard by done.
    apply Hpos. by apply list_elem_of_filter in Hv as [_ Hv]. }
  assert (Hprod : prod_card newCard newVars = prod_card (Cardinality f) newVars).
  { by apply prod_card_ext. }
  pose proof (prod_card_filter_le P (Variables f) (Cardinality f) Hpos) as Hle.
  fold newVars in Hle. pose proof (wf_fits f Hwf) as Hfits.
  rewrite (table_size_prod newVars newCard Hpos') by lia.
  unfold make. rewrite decide_True by lia.
  rewrite marginalizeHelper_loop.
  pose proof (assignment_loop_enum (at_key (Cardinality f)) _ _
                (marginalize_leaf_keeps f newVars newCard) (Variables f) ∅ ∅
                (replicate (Z.to_nat (prod_card newCard newVars)) zero)
                (fun _ _ => eq_refl)) as Hloop.
  destruct (run_leaves_marginalize_total f newVars newCard
              (enum (at_key (Cardinality f)) (Variables f) ∅)
              (replicate (Z.to_nat (prod_card newCard newVars)) zero))
    as (r' & Hrun & Hlen).
  { intros asg Hasg.
    assert (Hvalid : valid_on (Variables f) asg (Cardinality f)).
    { intros v Hv. by eapply enum_valid. }
    split; [|by apply read_valid].
    assert (Hvalid' : valid_on newVars asg newCard).
    { intros v Hv. rewrite Hcard by done.
      apply Hvalid. by apply list_elem_of_filter in Hv as [_ Hv]. }
    rewrite assignmentToIndex_stride by (done || lia).
    pose proof (stride_index_range _ _ _ Hvalid'). rewrite length_replicate. lia. }
  rewrite Hrun in Hloop.
  destruct (assignment_loop _ _ _ _) as [st|]; [|done].
  destruct Hloop as [_ [= <-]].
  unfold NewDiscreteFactor. rewrite (table_size_prod newVars newCard Hpos') by lia.
  rewrite decide_False by (rewrite Hlen, length_replicate; lia).
  eexists. split; [reflexivity|]. simpl. split; [done|]. split; [|done].
  apply wf_restricted; [done|]. rewrite Hlen, length_replicate. fold newVars newCard. lia.
Qed.

Lemma union_vars_comm (vs1 vs2 : list string) : union_vars vs1 vs2 = union_vars vs2 vs1.
Proof.
  unfold union_vars. f_equal. f_equal. apply set_eq. intros v.
  rewrite !elem_of_list_to_set, !elem_of_app. tauto.
Qed.

Lemma multiplyHelper_comm (f g : DiscreteFactor V) vars c :
  (∀ x y : V, mul x y = mul y x) →
  ∀ rest st, multiplyHelper f g vars c rest st = multiplyHelper g f vars c rest st.
Proof.
  intros Hcomm. induction rest as [|v rest IH]; intros st.
  - cbn [multiplyHelper]. unfold multiply_leaf.
    destruct (read (Values f) _) as [x|], (read (Values g) _) as [y|]; simpl;
      try done. by rewrite Hcomm.
  - cbn [multiplyHelper]. apply for_loop_ext. intros i s. apply IH.
Qed.

Lemma Multiply_comm_gen (f g : DiscreteFactor V) :
  (∀ x y : V, mul x y = mul y x) →
  (∀ k a b, Cardinality f !! k = Some a → Cardinality g !! k = Some b → a = b) →
  Multiply f g = Multiply g f.
Proof.
  intros Hcomm Hagree. unfold Multiply.
  rewrite (merge_cardinality_ok (Cardinality f) (Cardinality g)) by done.
  rewrite (merge_cardinality_ok (Cardinality g) (Cardinality f))
    by (intros k a b Ha Hb; symmetry; by eapply Hagree).
  assert (Hc : Cardinality g ∪ Cardinality f = Cardinality f ∪ Cardinality g).
  { apply map_eq. intros k. rewrite !lookup_union.
    destruct (Cardinality f !! k) as [a|] eqn:Ea,
             (Cardinality g !! k) as [b|] eqn:Eb; try done.
    rewrite (Hagree k a b Ea Eb). done. }
  rewrite Hc, (union_vars_comm (Variables g) (Variables f)).
  destruct (make _) as [newValues|]; [|done].
  by rewrite multiplyHelper_comm.
Qed.

End tables.

(** X15.  [Multiply] is commutative on [float64] tables: when the two
    cardinality maps agree on the variables they both declare,
    [f.Multiply(g)] and [g.Multiply(f)] return the same factor, the same
    variables in the same order and bit-for-bit the same values, or
    fail alike. *)
Theorem Multiply_commutative (f g : DiscreteFactor float) :
  (∀ k a b, Cardinality f !! k = Some a → Cardinality g !! k = Some b → a = b) →
  Multiply f g = Multiply g f.
Proof. apply Multiply_comm_gen. intros x y. apply float_mul_comm. Qed.

Lemma Multiply_commutative_witness :
  Multiply factor_A factor_AB = Multiply factor_AB factor_A.
Proof. apply (Multiply_commutative factor_A factor_AB), factor_A_AB_agree. Defined.

Lemma Reduce_selects_entries_witness :
  ∃ g, Reduce factor_AB {["A" := 1]} = Ok g ∧
       Variables g =
         filter (fun v => ({["A" := 1]} : gmap string Z) !! v = None)
                (Variables factor_AB) ∧
       wf_factor g ∧
       (∀ v, v ∈ Variables g →
             at_key (Cardinality g) v = at_key (Cardinality factor_AB) v) ∧
       ∀ asg, valid_on (Variables factor_AB) asg (Cardinality factor_AB) →
              (∀ v e, v ∈ Variables factor_AB →
                      ({["A" := 1]} : gmap string Z) !! v = Some e →
                      at_key asg v = e) →
              ∃ x, read (Values factor_AB)
                     (projectAssignmentToIndex factor_AB asg) = Some x ∧
                   read (Values g) (projectAssignmentToIndex g asg) = Some x.
Proof.
  apply (Reduce_selects_entries factor_AB {["A" := 1]} factor_AB_wf).
  - apply (bool_decide_unpack _). vm_compute. exact I.
  - intros v e Hv. vm_compute in Hv.
    apply elem_of_cons in Hv as [->|Hv];
      [|apply elem_of_cons in Hv as [->|Hv]; [|by apply elem_of_nil in Hv]].
    + vm_compute. discriminate.
    + vm_compute. intros [= <-]. split; discriminate || reflexivity.
Defined.

Lemma Reduce_example :
  Reduce factor_AB {["A" := 1]} =
  Ok (mkDiscreteFactor ["B"] {["B" := 3]} [0.5; 0.75; 0]%float).
Proof. vm_compute. reflexivity. Qed.

Lemma Marginalize_keeps_remaining_variables_witness :
  ∃ g, Marginalize factor_AB ["A"] = Ok g ∧
       Variables g = filter (fun v => v ∉ ["A"]) (Variables factor_AB) ∧
       wf_factor g ∧
       ∀ v, v ∈ Variables g →
            at_key (Cardinality g) v = at_key (Cardinality factor_AB) v.
Proof.
  apply (Marginalize_keeps_remaining_variables factor_AB ["A"] factor_AB_wf).
  apply (bool_decide_unpack _). vm_compute. exact I.
Defined.

(** *** Max-marginalization

    [MaxMarginalize] has the shape of [Marginalize] with [max] in place
    of [+] and [math.Inf(-1)] in place of [0]; it compares, so it is
    stated on [float64] tables. *)

(** [if v > maxVal { maxVal = v }] *)
Definition max_step (maxVal v : float) : float :=
  if (maxVal <? v)%float then v else maxVal.

Definition max_values (values : list float) : float :=
  foldl max_step neg_infinity values.

Definition max_marginalize_leaf (f : DiscreteFactor float) (newVars : list string)
    (newCard : gmap string Z) (st : helper_state float)
    : option (helper_state float) :=
  let oldIdx := projectAssignmentToIndex f st.1 in
  let newIdx := assignmentToIndex newVars st.1 newCard in
  x ← read (Values f) oldIdx;
  y ← read st.2 newIdx;
  if (y <? x)%float then
    result ← write st.2 newIdx x; Some (st.1, result)
  else Some st.

Fixpoint maxMarginalizeHelper (f : DiscreteFactor float) (newVars : list string)
    (newCard : gmap string Z) (rest : list string) (st : helper_state float)
    : option (helper_state float) :=
  match rest with
  | [] => max_marginalize_leaf f newVars newCard st
  | v :: rest' =>
      for_loop (at_key (Cardinality f) v)
        (fun i st => maxMarginalizeHelper f newVars newCard rest'
                       (<[v := i]> st.1, st.2)) st
  end.

Definition MaxMarginalize (f : DiscreteFactor float) (variables : list string)
    : result (DiscreteFactor float) :=
  let toRemove : gset string := list_to_set variables in
  let newVars := filter (fun v => v ∉ toRemove) (Variables f) in
  match newVars with
  | [] => NewDiscreteFactor [] ∅ [max_values (Values f)]
  | _ :: _ =>
      let newCard := restrict_cardinality f newVars in
      match make (table_size newVars newCard) with
      | None => Panic
      | Some zeros =>
          let newValues := (fun _ => neg_infinity) <$> zeros in
          match maxMarginalizeHelper f newVars newCard (Variables f)
                  (∅, newValues) with
          | None => Panic
          | Some st => NewDiscreteFactor newVars newCard st.2
          end
      end
  end.

Definition max_marginalize_leafR (f : DiscreteFactor float) (newVars : list string)
    (newCard : gmap string Z) (asg : gmap string Z) (r : list float)
    : option (list float) :=
  x ← read (Values f) (projectAssignmentToIndex f asg);
  y ← read r (assignmentToIndex newVars asg newCard);
  if (y <? x)%float then write r (assignmentToIndex newVars asg newCard) x
  else Some r.

Lemma max_marginalize_leaf_keeps f newVars newCard a r :
  max_marginalize_leaf f newVars newCard (a, r) =
  (fun r' => (a, r')) <$> max_marginalize_leafR f newVars newCard a r.
Proof.
  unfold max_marginalize_leaf, max_marginalize_leafR. simpl.
  destruct (read (Values f) _) as [x|]; simpl; [|done].
  destruct (read r _) as [y|]; simpl; [|done].
  destruct (y <? x)%float; [|done]. by destruct (write r _ _).
Qed.

Lemma maxMarginalizeHelper_loop (f : DiscreteFactor float) newVars newCard rest st :
  maxMarginalizeHelper f newVars newCard rest st =
  assignment_loop (at_key (Cardinality f)) (max_marginalize_leaf f newVars newCard)
    rest st.
Proof.
  revert st. induction rest as [|v rest IH]; intros st; [done|].
  cbn [maxMarginalizeHelper assignment_loop]. apply for_loop_ext. intros i s. apply IH.
Qed.

(** The running maximum dominates what it has seen and is one of the
    values seen, or the initial value. *)
Lemma foldl_max_step (l : list float) : ∀ m0,
  (∀ v, v ∈ l → (foldl max_step m0 l <? v)%float = false) ∧
  (∀ x, (m0 <? x)%float = false → (foldl max_step m0 l <? x)%float = false) ∧
  (foldl max_step m0 l = m0 ∨ foldl max_step m0 l ∈ l).
Proof.
  induction l as [|a l IH]; intros m0; simpl.
  { split; [by intros v ?%elem_of_nil|]. split; [done|by left]. }
  destruct (IH (max_step m0 a)) as (Hdom & Hmono & Hin).
  assert (Ha : (max_step m0 a <? a)%float = false).
  { unfold max_step. destruct (m0 <? a)%float eqn:E; [apply float_ltb_irrefl|done]. }
  assert (Hm0 : ∀ x, (m0 <? x)%float = false → (max_step m0 a <? x)%float = false).
  { intros x Hx. unfold max_step. destruct (m0 <? a)%float eqn:E; [|done].
    destruct (a <? x)%float eqn:E'; [|done].
    by rewrite (float_ltb_trans m0 a x E E') in Hx. }
  split; [|split].
  - intros v [->|Hv]%elem_of_cons; [by apply Hmono|by apply Hdom].
  - intros x Hx. by apply Hmono, Hm0.
  - destruct Hin as [Heq|Hin]; [|right; by right].
    rewrite Heq. unfold max_step. destruct (m0 <? a)%float; [right; by left|by left].
Qed.

(** Every valid assignment is enumerated, up to the variables that are
    not enumerated. *)
Lemma enum_complete (c : gmap string Z) (vars : list string) (a0 asg : gmap string Z) :
  NoDup vars → positive_on vars c → valid_on vars asg c →
  ∃ asg', asg' ∈ enum (at_key c) vars a0 ∧
          ∀ v, v ∈ vars → at_key asg' v = at_key asg v.
Proof.
  intros Hnd Hpos Hvalid.
  pose proof (enum_stride_index c vars a0 Hnd Hpos) as Hidx.
  assert (Hlen : length (enum (at_key c) vars a0) = Z.to_nat (prod_card c vars)).
  { rewrite <- (length_fmap (fun asg => stride_index vars asg c)), Hidx.
    apply length_seqZ. }
  pose proof (stride_index_range vars asg c Hvalid) as Hr.
  destruct (lookup_lt_is_Some_2 (enum (at_key c) vars a0)
              (Z.to_nat (stride_index vars asg c))) as [asg' Hasg']; [lia|].
  assert (Hin : asg' ∈ enum (at_key c) vars a0)
    by (by eapply list_elem_of_lookup_2).
  exists asg'. split; [done|].
  apply (stride_index_inj vars asg' asg c); [|done|].
  - intros v Hv. by eapply enum_valid.
  - assert (Hl : ((fun a => stride_index vars a c) <$> enum (at_key c) vars a0)
                   !! Z.to_nat (stride_index vars asg c) =
                 Some (stride_index vars asg' c)).
    { by rewrite list_lookup_fmap, Hasg'. }
    rewrite Hidx in Hl. apply lookup_seqZ in Hl. lia.
Qed.

(** The state of the result slice after the leaves [seen]: every entry
    is [-Inf] or an entry of [f], and the entry that a seen leaf maps
    to is not below the entry of [f] at that leaf. *)
Definition max_inv (f : DiscreteFactor float) (newVars : list string)
    (newCard : gmap string Z) (seen : gmap string Z → Prop) (r : list float) : Prop :=
  (∀ i y, r !! i = Some y → y = neg_infinity ∨ y ∈ Values f) ∧
  (∀ asg x y, seen asg →
     read (Values f) (projectAssignmentToIndex f asg) = Some x →
     read r (assignmentToIndex newVars asg newCard) = Some y →
     (y <? x)%float = false).

Lemma run_leaves_max (f : DiscreteFactor float) newVars newCard
    (asgs : list (gmap string Z)) : ∀ (seen : gmap string Z → Prop) r,
  max_inv f newVars newCard seen r →
  (∀ asg, asg ∈ asgs →
     0 ≤ assignmentToIndex newVars asg newCard < Z.of_nat (length r) ∧
     is_Some (read (Values f) (projectAssignmentToIndex f asg))) →
  ∃ r', run_leaves (max_marginalize_leafR f newVars newCard) r asgs = Some r' ∧
        length r' = length r ∧
        max_inv f newVars newCard (fun asg => seen asg ∨ asg ∈ asgs) r'.
Proof.
  induction asgs as [|asg asgs IH]; intros seen r Hinv Hok.
  { exists r. split; [done|]. split; [done|]. destruct Hinv as [H1 H2].
    split; [done|]. intros a x y [Hs|Hin]; [by apply H2|by apply elem_of_nil in Hin]. }
  destruct (Hok asg ltac:(by left)) as [Hidx [x Hx]].
  set (i := assignmentToIndex newVars asg newCard) in *.
  destruct (lookup_lt_is_Some_2 r (Z.to_nat i)) as [y Hy]; [lia|].
  assert (Hry : read r i = Some y).
  { unfold read. by rewrite decide_True by lia. }
  destruct Hinv as [Hent Hdom].
  set (r1 := if (y <? x)%float then <[Z.to_nat i := x]> r else r).
  assert (Hleaf : max_marginalize_leafR f newVars newCard asg r = Some r1).
  { unfold max_marginalize_leafR. fold i. rewrite Hx, Hry. simpl. unfold r1.
    destruct (y <? x)%float; [|done]. unfold write. by rewrite decide_True by lia. }
  assert (Hlen1 : length r1 = length r).
  { unfold r1. destruct (y <? x)%float; [apply length_insert|done]. }
  assert (Hx_in : x ∈ Values f).
  { unfold read in Hx. case_decide; [|done]. by eapply list_elem_of_lookup_2. }
  assert (Hinv1 : max_inv f newVars newCard (fun a => seen a ∨ a = asg) r1).
  { split.
    - intros j z Hz. unfold r1 in Hz. destruct (y <? x)%float; [|by eapply Hent].
      destruct (decide (j = Z.to_nat i)) as [->|Hne].
      + rewrite list_lookup_insert_eq in Hz by (apply lookup_lt_is_Some; by eexists).
        injection Hz as <-. by right.
      + rewrite list_lookup_insert_ne in Hz by done. by eapply Hent.
    - intros a xa ya Ha Hxa Hya.
      set (j := assignmentToIndex newVars a newCard) in *.
      unfold read in Hya. case_decide as Hj; [|done].
      unfold r1 in Hya. destruct (y <? x)%float eqn:Elt.
      + destruct (decide (Z.to_nat j = Z.to_nat i)) as [Heq|Hne].
        * rewrite Heq, list_lookup_insert_eq in Hya
            by (apply lookup_lt_is_Some; by eexists).
          injection Hya as <-.
          destruct Ha as [Hs| ->].
          -- assert (Hyxa : (y <? xa)%float = false).
             { apply (Hdom a xa y Hs Hxa). fold j. unfold read.
               rewrite decide_True by done. by rewrite Heq. }
             destruct (x <? xa)%float eqn:E'; [|done].
             by rewrite (float_ltb_trans y x xa Elt E') in Hyxa.
          -- rewrite Hx in Hxa. injection Hxa as <-. apply float_ltb_irrefl.
        * rewrite list_lookup_insert_ne in Hya by done.
          destruct Ha as [Hs| ->]; [|done].
          apply (Hdom a xa ya Hs Hxa). fold j. unfold read.
          by rewrite decide_True by done.
      + destruct Ha as [Hs| ->].
        * apply (Hdom a xa ya Hs Hxa). fold j. unfold read.
          by rewrite decide_True by done.
        * rewrite Hx in Hxa. injection Hxa as <-.
          change (r !! Z.to_nat i = Some ya) in Hya. rewrite Hy in Hya.
          by injection Hya as <-. }
  rewrite run_leaves_cons, Hleaf. cbn [mbind option_bind].
  destruct (IH _ r1 Hinv1) as (r' & Hrun & Hlen & [Hent' Hdom']).
  { intros a Ha. rewrite Hlen1. apply Hok. by right. }
  exists r'. split; [done|]. split; [congruence|]. split; [done|].
  intros a xa ya Ha. apply Hdom'.
  destruct Ha as [Hs|[->|Hin]%elem_of_cons]; [left; by left|left; by right|by right].
Qed.

(** X16.  [MaxMarginalize] never fails on a well-formed factor with
    distinct variables.  The result is a well-formed factor over the
    remaining variables; each of its entries is [-Inf] or an entry of
    the original, and at every valid assignment it is not below the
    original entry: it is an upper bound over the values maximised
    away, NaN entries being ignored. *)
Theorem MaxMarginalize_dominates (f : DiscreteFactor float)
    (variables : list string) :
  wf_factor f →
  NoDup (Variables f) →
  ∃ g, MaxMarginalize f variables = Ok g ∧
       Variables g = filter (fun v => v ∉ variables) (Variables f) ∧
       wf_factor g ∧
       (∀ y, y ∈ Values g → y = neg_infinity ∨ y ∈ Values f) ∧
       ∀ asg, valid_on (Variables f) asg (Cardinality f) →
         ∃ x y, read (Values f) (projectAssignmentToIndex f asg) = Some x ∧
                read (Values g) (projectAssignmentToIndex g asg) = Some y ∧
                (y <? x)%float = false.
Proof.
  intros Hwf Hnd. unfold MaxMarginalize.
  set (P := fun v => v ∉ (list_to_set variables : gset string)).
  assert (HP : filter P (Variables f) = filter (fun v => v ∉ variables) (Variables f)).
  { apply filter_ext_elem_of. intros v _. unfold P. by rewrite elem_of_list_to_set. }
  destruct (filter P (Variables f)) as [|w newVars'] eqn:Hvars.
  { destruct (foldl_max_step (Values f) neg_infinity) as (Hdom & _ & Hin).
    eexists. split; [apply NewDiscreteFactor_scalar|]. simpl.
    split; [done|]. split; [apply wf_scalar_factor|]. split.
    { intros y ->%list_elem_of_singleton. exact Hin. }
    intros asg Hvalid. destruct (read_valid f asg Hwf Hvalid) as [_ [x Hx]].
    exists x, (max_values (Values f)). split; [done|]. split; [done|].
    apply Hdom. unfold read in Hx. case_decide; [|done].
    by eapply list_elem_of_lookup_2. }
  rewrite <- Hvars. rewrite <- Hvars in HP. set (newVars := filter P (Variables f)) in *.
  set (newCard := restrict_cardinality f newVars).
  pose proof (wf_positive f Hwf) as Hpos.
  assert (Hsub : ∀ v, v ∈ newVars → v ∈ Variables f).
  { intros v Hv. by apply list_elem_of_filter in Hv as [_ Hv]. }
  assert (Hcard : ∀ v, v ∈ newVars → at_key newCard v = at_key (Cardinality f) v).
  { intros v Hv. by apply restrict_cardinality_lookup. }
  assert (Hpos' : positive_on newVars newCard).
  { intros v Hv. rewrite Hcard by done. auto. }
  assert (Hprod : prod_card newCard newVars = prod_card (Cardinality f) newVars).
  { by apply prod_card_ext. }
  pose proof (prod_card_filter_le P (Variables f) (Cardinality f) Hpos) as Hle.
  fold newVars in Hle. pose proof (wf_fits f Hwf) as Hfits.
  assert (Hidx_new : ∀ asg, valid_on (Variables f) asg (Cardinality f) →
            assignmentToIndex newVars asg newCard = stride_index newVars asg newCard ∧
            0 ≤ stride_index newVars asg newCard < prod_card newCard newVars).
  { intros asg Hvalid.
    assert (Hvalid' : valid_on newVars asg newCard).
    { intros v Hv. rewrite Hcard by done. auto. }
    split; [apply assignmentToIndex_stride; [done|lia]|].
    by apply stride_index_range. }
  rewrite (table_size_prod newVars newCard Hpos') by lia.
  unfold make. rewrite decide_True by lia.
  rewrite fmap_replicate, maxMarginalizeHelper_loop.
  set (n := Z.to_nat (prod_card newCard newVars)).
  pose proof (assignment_loop_enum (at_key (Cardinality f)) _ _
                (max_marginalize_leaf_keeps f newVars newCard) (Variables f) ∅ ∅
                (replicate n neg_infinity) (fun _ _ => eq_refl)) as Hloop.
  destruct (run_leaves_max f newVars newCard
              (enum (at_key (Cardinality f)) (Variables f) ∅)
              (fun _ => False) (replicate n neg_infinity))
    as (r' & Hrun & Hlen & Hent & Hdom).
  { split; [|done]. intros i y [-> _]%lookup_replicate. by left. }
  { intros asg Hasg.
    assert (Hvalid : valid_on (Variables f) asg (Cardinality f)).
    { intros v Hv. by eapply enum_valid. }
    split; [|by apply read_valid].
    destruct (Hidx_new asg Hvalid) as [-> Hr]. rewrite length_replicate. lia. }
  rewrite Hrun in Hloop.
  destruct (assignment_loop _ _ _ _) as [st|]; [|done].
  destruct Hloop as [_ [= <-]].
  rewrite length_replicate in Hlen.
  unfold NewDiscreteFactor. rewrite (table_size_prod newVars newCard Hpos') by lia.
  rewrite decide_False by lia.
  eexists. split; [reflexivity|]. simpl. split; [done|]. split; [|split].
  - apply wf_restricted; [done|]. fold newVars newCard. lia.
  - intros y (i & Hi)%list_elem_of_lookup. by eapply Hent.
  - intros asg Hvalid.
    destruct (read_valid f asg Hwf Hvalid) as [_ [x Hx]].
    destruct (Hidx_new asg Hvalid) as [Hi Hr].
    destruct (lookup_lt_is_Some_2 r' (Z.to_nat (stride_index newVars asg newCard)))
      as [y Hy]; [lia|].
    assert (Hry : read r' (assignmentToIndex newVars asg newCard) = Some y).
    { rewrite Hi. unfold read. by rewrite decide_True by lia. }
    exists x, y. split; [done|]. split; [done|].
    destruct (enum_complete (Cardinality f) (Variables f) ∅ asg Hnd Hpos Hvalid)
      as (asg' & Hin & Hsame).
    apply (Hdom asg' x y); [by right| |].
    + rewrite <- Hx. f_equal. unfold projectAssignmentToIndex.
      by apply assignmentToIndex_ext.
    + rewrite <- Hry. f_equal. apply assignmentToIndex_ext; [|done].
      intros v Hv. by apply Hsame, Hsub.
Qed.

Lemma MaxMarginalize_dominates_witness :
  ∃ g, MaxMarginalize factor_AB ["A"] = Ok g ∧
       Variables g = filter (fun v => v ∉ ["A"]) (Variables factor_AB) ∧
       wf_factor g ∧
       (∀ y, y ∈ Values g → y = neg_infinity ∨ y ∈ Values factor_AB) ∧
       ∀ asg, valid_on (Variables factor_AB) asg (Cardinality factor_AB) →
         ∃ x y, read (Values factor_AB)
                  (projectAssignmentToIndex factor_AB asg) = Some x ∧
                read (Values g) (projectAssignmentToIndex g asg) = Some y ∧
                (y <? x)%float = false.
Proof.
  apply (MaxMarginalize_dominates factor_AB ["A"] factor_AB_wf).
  apply (bool_decide_unpack _). vm_compute. exact I.
Defined.

Lemma MaxMarginalize_example :
  MaxMarginalize factor_AB ["A"] =
  Ok (mkDiscreteFactor ["B"] {["B" := 3]} [0.5; 0.75; 1]%float).
Proof. vm_compute. reflexivity. Qed.

End Factors.

(** ** Package factors: tabular CPDs *)

Module Tabular.
Import Factors.

(** [type TabularCPD struct]; [Values[row][state]], one row for each
    combination of evidence states. *)
Record TabularCPD : Type := mkTabularCPD {
  Variable_ : string;   (* [Variable]; the name is reserved in Rocq *)
  VariableCard : Z;
  Evidence : list string;
  EvidenceCard : gmap string Z;
  Values : list (list float)
}.

(** [sum := 0.0; for _, p := range row { sum += p }] *)
Definition row_sum (row : list float) : float := foldl PrimFloat.add 0%float row.

(** The checks made on one row, in the order of the source. *)
Definition check_row (variableCard : Z) (row : list float) : option string :=
  if decide (Z.of_nat (length row) ≠ variableCard)
  then Some "row %d has %d columns, expected %d"
  else if (row_sum row <? 0.999)%float || (1.001 <? row_sum row)%float
       then Some "row %d probabilities sum to %f, expected 1.0"
       else None.

Fixpoint check_rows (variableCard : Z) (values : list (list float))
    : option string :=
  match values with
  | [] => None
  | row :: rest =>
      match check_row variableCard row with
      | Some e => Some e
      | None => check_rows variableCard rest
      end
  end.

Definition NewTabularCPD (variable : string) (variableCard : Z)
    (values : list (list float)) (evidence : list string)
    (evidenceCard : gmap string Z) : result TabularCPD :=
  let expectedRows := table_size evidence evidenceCard in
  if decide (Z.of_nat (length values) ≠ expectedRows)
  then Err "values has %d rows, expected %d"
  else match check_rows variableCard values with
       | Some e => Err e
       | None => Ok (mkTabularCPD variable variableCard evidence evidenceCard values)
       end.

(** [cpd.Values[rowIdx][colIdx]]: either index out of range panics. *)
Definition read2 (rows : list (list float)) (i j : Z) : option float :=
  row ← read rows i; read row j.

(** [GetValue]: the row index is accumulated from the last evidence
    variable to the first; a missing evidence value is an error. *)
Definition row_step (cpd : TabularCPD) (evidenceValues : gmap string Z)
    (e : string) (acc : result (Z * Z)) : result (Z * Z) :=
  match acc with
  | Ok st =>
      match evidenceValues !! e with
      | None => Err ("missing evidence value for " +:+ e)
      | Some val =>
          Ok (iadd st.1 (imul val st.2), imul st.2 (at_key (EvidenceCard cpd) e))
      end
  | other => other
  end.

Definition GetValue (cpd : TabularCPD) (varState : Z)
    (evidenceValues : gmap string Z) : result float :=
  if decide (varState < 0 ∨ varState >= VariableCard cpd)
  then Err "invalid variable state %d"
  else match foldr (row_step cpd evidenceValues) (Ok (0, 1)) (Evidence cpd) with
       | Ok st =>
           match read2 (Values cpd) st.1 varState with
           | Some x => Ok x
           | None => Panic
           end
       | Err e => Err e
       | Panic => Panic
       end.

(** [ToFactor] and its helper.  The variables are the evidence followed
    by the variable, sorted; the three index computations of the leaf
    are the loop of [assignmentToIndex]. *)
Definition factor_vars (cpd : TabularCPD) : list string :=
  sort_strings (Evidence cpd ++ [Variable_ cpd]).

Definition factor_card (cpd : TabularCPD) : gmap string Z :=
  <[Variable_ cpd := VariableCard cpd]> (EvidenceCard cpd).

Definition toFactor_leaf (cpd : TabularCPD) (vars : list string)
    (card : gmap string Z) (st : helper_state float)
    : option (helper_state float) :=
  let rowIdx := assignmentToIndex (Evidence cpd) st.1 (EvidenceCard cpd) in
  let colIdx := at_key st.1 (Variable_ cpd) in
  let resIdx := assignmentToIndex vars st.1 card in
  x ← read2 (Values cpd) rowIdx colIdx;
  result ← write st.2 resIdx x;
  Some (st.1, result).

Fixpoint toFactorHelper (cpd : TabularCPD) (vars : list string)
    (card : gmap string Z) (rest : list string) (st : helper_state float)
    : option (helper_state float) :=
  match rest with
  | [] => toFactor_leaf cpd vars card st
  | v :: rest' =>
      for_loop (at_key card v)
        (fun i st => toFactorHelper cpd vars card rest' (<[v := i]> st.1, st.2)) st
  end.

Definition ToFactor (cpd : TabularCPD) : result (DiscreteFactor float) :=
  let allVars := factor_vars cpd in
  let card := factor_card cpd in
  match make (table_size allVars card) with
  | None => Panic
  | Some values =>
      match toFactorHelper cpd allVars card allVars (∅, values) with
      | None => Panic
      | Some st => NewDiscreteFactor allVars card st.2
      end
  end.

Lemma check_rows_None variableCard values :
  check_rows variableCard values = None ↔
  ∀ row, row ∈ values → check_row variableCard row = None.
Proof.
  induction values as [|row rest IH]; simpl.
  - split; [by intros _ row ?%elem_of_nil|done].
  - destruct (check_row variableCard row) eqn:E.
    + split; [done|]. intros H. specialize (H row ltac:(by left)). congruence.
    + rewrite IH. split.
      * intros H r [->|Hr]%elem_of_cons; [done|by apply H].
      * intros H r Hr. apply H. by right.
Qed.

Lemma check_row_None variableCard row :
  check_row variableCard row = None ↔
  Z.of_nat (length row) = variableCard ∧
  (row_sum row <? 0.999)%float = false ∧ (1.001 <? row_sum row)%float = false.
Proof.
  unfold check_row. case_decide as Hlen.
  - split; [done|]. by intros [? _].
  - destruct (row_sum row <? 0.999)%float, (1.001 <? row_sum row)%float; simpl;
      split; try done; by intros (_ & ? & ?).
Qed.

(** X17.  [NewTabularCPD] accepts a table exactly when it has one row for
    each combination of evidence states (the product of the evidence
    cardinalities), every row has [variableCard] entries, and no row
    sum is below 0.999 or above 1.001.  A row whose sum is NaN passes
    both comparisons and is accepted. *)
Theorem NewTabularCPD_accepts_iff (variable : string) (variableCard : Z)
    (values : list (list float)) (evidence : list string)
    (evidenceCard : gmap string Z) :
  (NewTabularCPD variable variableCard values evidence evidenceCard =
     Ok (mkTabularCPD variable variableCard evidence evidenceCard values) ↔
   Z.of_nat (length values) = table_size evidence evidenceCard ∧
   ∀ row, row ∈ values →
     Z.of_nat (length row) = variableCard ∧
     (row_sum row <? 0.999)%float = false ∧
     (1.001 <? row_sum row)%float = false) ∧
  (∀ cpd, NewTabularCPD variable variableCard values evidence evidenceCard = Ok cpd →
          cpd = mkTabularCPD variable variableCard evidence evidenceCard values) ∧
  NewTabularCPD variable variableCard values evidence evidenceCard ≠ Panic.
Proof.
  unfold NewTabularCPD. split; [|split].
  - case_decide as Hlen.
    + split; [done|]. by intros [? _].
    + destruct (check_rows variableCard values) as [e|] eqn:E.
      * split; [done|]. intros [_ Hrows].
        assert (check_rows variableCard values = None); [|congruence].
        apply check_rows_None. intros row Hrow. by apply check_row_None, Hrows.
      * split; [|done]. intros _. split; [done|].
        intros row Hrow. apply check_row_None.
        by apply (proj1 (check_rows_None _ _) E).
  - intros cpd. case_decide; [done|].
    destruct (check_rows variableCard values); [done|]. by intros [= <-].
  - case_decide; [done|]. by destruct (check_rows variableCard values).
Qed.

Lemma NewTabularCPD_NaN_row_accepted :
  NewTabularCPD "X" 2 [[infinity; neg_infinity]] [] ∅ =
    Ok (mkTabularCPD "X" 2 [] ∅ [[infinity; neg_infinity]]) ∧
  (row_sum [infinity; neg_infinity] =? row_sum [infinity; neg_infinity])%float = false.
Proof. vm_compute. auto. Qed.

Lemma foldr_row_step (cpd : TabularCPD) (ev : gmap string Z) (l : list string) :
  (∀ e, e ∈ l → is_Some (ev !! e)) →
  foldr (row_step cpd ev) (Ok (0, 1)) l =
  Ok (foldr (index_step ev (EvidenceCard cpd)) (0, 1) l).
Proof.
  induction l as [|e l IH]; intros Hall; [done|].
  cbn [foldr]. rewrite IH by (intros x Hx; apply Hall; by right).
  destruct (Hall e ltac:(by left)) as [val Hval].
  unfold row_step, index_step, at_key. by rewrite Hval.
Qed.

Lemma foldr_row_step_cases (cpd : TabularCPD) (ev : gmap string Z) (l : list string) :
  match foldr (row_step cpd ev) (Ok (0, 1)) l with
  | Ok _ => ∀ e, e ∈ l → is_Some (ev !! e)
  | Err _ => ∃ e, e ∈ l ∧ ev !! e = None
  | Panic => False
  end.
Proof.
  induction l as [|e l IH]; cbn [foldr]; [by intros e ?%elem_of_nil|].
  destruct (foldr (row_step cpd ev) (Ok (0, 1)) l) as [st|msg|]; simpl; [| |done].
  - destruct (ev !! e) as [val|] eqn:E.
    + intros x [->|Hx]%elem_of_cons; [by eexists|by apply IH].
    + exists e. split; [by left|done].
  - destruct IH as (x & Hx & Hnone). exists x. split; [by right|done].
Qed.

(** X18.  [GetValue] returns an error exactly when the state is out of
    range or a value is missing for some evidence variable; it never
    checks that the evidence values are in range. *)
Theorem GetValue_error_iff (cpd : TabularCPD) (varState : Z)
    (evidenceValues : gmap string Z) :
  is_err (GetValue cpd varState evidenceValues) ↔
  varState < 0 ∨ varState >= VariableCard cpd ∨
  ∃ e, e ∈ Evidence cpd ∧ evidenceValues !! e = None.
Proof.
  unfold GetValue. case_decide as Hstate.
  - split; [intros _|done]. tauto.
  - pose proof (foldr_row_step_cases cpd evidenceValues (Evidence cpd)) as Hc.
    destruct (foldr _ _ (Evidence cpd)) as [st|msg|]; [| |done].
    + assert (Hno : ¬ ∃ e, e ∈ Evidence cpd ∧ evidenceValues !! e = None).
      { intros (e & He & Hnone). destruct (Hc e He) as [? ?]. congruence. }
      destruct (read2 _ _ _); simpl; (split; [done|]); intros [?|[?|?]]; tauto.
    + split; [intros _|done]. by right; right.
Qed.

(** A table that [ToFactor] and [GetValue] can index: distinct names,
    positive cardinalities, the shape that the constructor checks, and
    a size that fits a Go [int]. *)
Record wf_cpd (cpd : TabularCPD) : Prop := {
  wf_distinct : NoDup (Variable_ cpd :: Evidence cpd);
  wf_var_card : 0 < VariableCard cpd;
  wf_ev_card : ∀ e, e ∈ Evidence cpd →
    ∃ c, EvidenceCard cpd !! e = Some c ∧ 0 < c;
  wf_rows :
    Z.of_nat (length (Values cpd)) = prod_card (EvidenceCard cpd) (Evidence cpd);
  wf_cols : ∀ row, row ∈ Values cpd → Z.of_nat (length row) = VariableCard cpd;
  wf_size : prod_card (EvidenceCard cpd) (Evidence cpd) * VariableCard cpd < 2 ^ 63
}.

Lemma prod_card_Permutation (c : gmap string Z) (l1 l2 : list string) :
  l1 ≡ₚ l2 → prod_card c l1 = prod_card c l2.
Proof.
  induction 1 as [|x l1 l2 _ IH|x y l|l1 l2 l3 _ IH1 _ IH2]; simpl; lia.
Qed.

Lemma prod_card_app (c : gmap string Z) (l1 l2 : list string) :
  prod_card c (l1 ++ l2) = prod_card c l1 * prod_card c l2.
Proof. induction l1 as [|x l1 IH]; simpl; [lia|]. rewrite IH. lia. Qed.

Lemma toFactorHelper_loop (cpd : TabularCPD) vars card rest st :
  toFactorHelper cpd vars card rest st =
  assignment_loop (at_key card) (toFactor_leaf cpd vars card) rest st.
Proof.
  revert st. induction rest as [|v rest IH]; intros st; [done|].
  cbn [toFactorHelper assignment_loop]. apply for_loop_ext. intros i s. apply IH.
Qed.

Definition toFactor_leafR (cpd : TabularCPD) (vars : list string)
    (card : gmap string Z) (asg : gmap string Z) (r : list float)
    : option (list float) :=
  x ← read2 (Values cpd) (assignmentToIndex (Evidence cpd) asg (EvidenceCard cpd))
            (at_key asg (Variable_ cpd));
  write r (assignmentToIndex vars asg card) x.

Lemma toFactor_leaf_keeps cpd vars card a r :
  toFactor_leaf cpd vars card (a, r) =
  (fun r' => (a, r')) <$> toFactor_leafR cpd vars card a r.
Proof.
  unfold toFactor_leaf, toFactor_leafR. simpl.
  destruct (read2 _ _ _); simpl; [|done]. by destruct (write r _ _).
Qed.

Section cpd_facts.
Variable cpd : TabularCPD.
Hypothesis Hwf : wf_cpd cpd.

Lemma factor_vars_elem v :
  v ∈ factor_vars cpd ↔ v ∈ Evidence cpd ∨ v = Variable_ cpd.
Proof.
  unfold factor_vars.
  by rewrite elem_of_sort_strings, elem_of_app, list_elem_of_singleton.
Qed.

Lemma factor_card_variable : at_key (factor_card cpd) (Variable_ cpd) = VariableCard cpd.
Proof. unfold at_key, factor_card. by rewrite lookup_insert_eq. Qed.

Lemma evidence_not_variable e : e ∈ Evidence cpd → e ≠ Variable_ cpd.
Proof.
  intros He ->. pose proof (wf_distinct cpd Hwf) as Hnd.
  by apply NoDup_cons in Hnd as [? _].
Qed.

Lemma factor_card_evidence e :
  e ∈ Evidence cpd → at_key (factor_card cpd) e = at_key (EvidenceCard cpd) e.
Proof.
  intros He. unfold at_key, factor_card.
  rewrite lookup_insert_ne; [done|]. intros Heq. by apply (evidence_not_variable e).
Qed.

Lemma evidence_positive : positive_on (Evidence cpd) (EvidenceCard cpd).
Proof.
  intros e He. destruct (wf_ev_card cpd Hwf e He) as (c & Hc & Hpos).
  unfold at_key. by rewrite Hc.
Qed.

Lemma factor_positive : positive_on (factor_vars cpd) (factor_card cpd).
Proof.
  intros v [He| ->]%factor_vars_elem.
  - rewrite factor_card_evidence by done. by apply evidence_positive.
  - rewrite factor_card_variable. apply (wf_var_card cpd Hwf).
Qed.

Lemma factor_NoDup : NoDup (factor_vars cpd).
Proof.
  unfold factor_vars. rewrite sort_strings_Permutation.
  rewrite <- Permutation_cons_append. apply (wf_distinct cpd Hwf).
Qed.

Lemma factor_prod :
  prod_card (factor_card cpd) (factor_vars cpd) =
  prod_card (EvidenceCard cpd) (Evidence cpd) * VariableCard cpd.
Proof.
  unfold factor_vars.
  rewrite (prod_card_Permutation _ _ _ (sort_strings_Permutation _)).
  rewrite prod_card_app. simpl. rewrite factor_card_variable.
  rewrite (prod_card_ext (Evidence cpd) (factor_card cpd) (EvidenceCard cpd)).
  - lia.
  - intros v Hv. by apply factor_card_evidence.
Qed.

Lemma evidence_fits : prod_card (EvidenceCard cpd) (Evidence cpd) < 2 ^ 63.
Proof.
  pose proof (wf_size cpd Hwf). pose proof (wf_var_card cpd Hwf).
  pose proof (prod_card_pos _ _ evidence_positive). nia.
Qed.

(** Reading the table at a valid assignment succeeds. *)
Lemma read2_valid asg :
  valid_on (factor_vars cpd) asg (factor_card cpd) →
  assignmentToIndex (Evidence cpd) asg (EvidenceCard cpd) =
    stride_index (Evidence cpd) asg (EvidenceCard cpd) ∧
  is_Some (read2 (Values cpd)
             (assignmentToIndex (Evidence cpd) asg (EvidenceCard cpd))
             (at_key asg (Variable_ cpd))).
Proof.
  intros Hvalid.
  assert (Hev : valid_on (Evidence cpd) asg (EvidenceCard cpd)).
  { intros e He. rewrite <- factor_card_evidence by done.
    apply Hvalid, factor_vars_elem. by left. }
  assert (Hvar : 0 ≤ at_key asg (Variable_ cpd) < VariableCard cpd).
  { rewrite <- factor_card_variable. apply Hvalid, factor_vars_elem. by right. }
  rewrite assignmentToIndex_stride by (done || apply evidence_fits).
  split; [done|].
  pose proof (stride_index_range _ _ _ Hev) as Hr.
  unfold read2, read. rewrite decide_True by lia.
  destruct (lookup_lt_is_Some_2 (Values cpd)
              (Z.to_nat (stride_index (Evidence cpd) asg (EvidenceCard cpd))))
    as [row Hrow]; [pose proof (wf_rows cpd Hwf); lia|].
  rewrite Hrow. simpl. rewrite decide_True by lia.
  apply lookup_lt_is_Some.
  pose proof (wf_cols cpd Hwf row (list_elem_of_lookup_2 _ _ _ Hrow)). lia.
Qed.

End cpd_facts.


(** P(G | D) with a binary parent [D] and a ternary variable [G]. *)
Definition cpd_G : TabularCPD :=
  mkTabularCPD "G" 3 ["D"] {["D" := 2]}
    [[0.5; 0.25; 0.25]; [0.125; 0.125; 0.75]]%float.

Lemma cpd_G_wf : wf_cpd cpd_G.
Proof.
  split; simpl.
  - apply (bool_decide_unpack _). vm_compute. exact I.
  - lia.
  - intros e ->%list_elem_of_singleton. exists 2. split; [reflexivity|lia].
  - reflexivity.
  - intros row Hrow. repeat (apply elem_of_cons in Hrow as [->|Hrow]; [reflexivity|]).
    by apply elem_of_nil in Hrow.
  - vm_compute. reflexivity.
Qed.


Lemma ToFactor_example :
  NewTabularCPD "G" 3 (Values cpd_G) ["D"] {["D" := 2]} = Ok cpd_G ∧
  ToFactor cpd_G =
    Ok (mkDiscreteFactor ["D"; "G"] {["D" := 2; "G" := 3]}
          [0.5; 0.25; 0.25; 0.125; 0.125; 0.75]%float) ∧
  GetValue cpd_G 2 {["D" := 1]} = Ok 0.75%float ∧
  GetValue cpd_G 3 {["D" := 1]} = Err "invalid variable state %d" ∧
  GetValue cpd_G 2 ∅ = Err "missing evidence value for D" ∧
  GetValue cpd_G 2 {["D" := 5]} = Panic.
Proof. vm_compute. auto 10. Qed.

End Tabular.

(** ** Package factors: Gaussian factors *)

Module Gaussian.

Local Open Scope float_scope.

Record GaussianFactor : Type := mkGaussianFactor {
  Variables : list string;
  Mean : gmap string float;
  Covariance : gmap string (gmap string float)
}.

(** [m[k]] on a [map[string]float64], and [c[k1][k2]] on the nested
    covariance map (a missing row reads as the nil map). *)
Definition mean_at (m : gmap string float) (k : string) : float :=
  default 0 (m !! k).
Definition cov_at (c : gmap string (gmap string float)) (k1 k2 : string) : float :=
  default 0 (default ∅ (c !! k1) !! k2).

(** The first error raised by a loop body over a slice, if any. *)
Fixpoint first_error {A} (check : A → option string) (l : list A) : option string :=
  match l with
  | [] => None
  | x :: l' =>
      match check x with
      | Some e => Some e
      | None => first_error check l'
      end
  end.

Definition check_mean (mean : gmap string float) (v : string) : option string :=
  match mean !! v with
  | Some _ => None
  | None => Some ("mean missing for variable " +:+ v)
  end.

Definition check_entry (covariance : gmap string (gmap string float))
    (v1 v2 : string) : option string :=
  match default ∅ (covariance !! v1) !! v2 with
  | None => Some ("covariance missing for variables " +:+ v1 +:+ ", " +:+ v2)
  | Some _ =>
      if 1e-9 <? abs (cov_at covariance v1 v2 - cov_at covariance v2 v1)
      then Some "covariance matrix not symmetric"
      else None
  end.

Definition check_row (variables : list string)
    (covariance : gmap string (gmap string float)) (v1 : string) : option string :=
  match covariance !! v1 with
  | None => Some ("covariance missing for variable " +:+ v1)
  | Some _ => first_error (check_entry covariance v1) variables
  end.

Definition NewGaussianFactor (variables : list string) (mean : gmap string float)
    (covariance : gmap string (gmap string float)) : result GaussianFactor :=
  match variables with
  | [] => Err "variables cannot be empty"
  | _ :: _ =>
      match first_error (check_mean mean) variables with
      | Some e => Err e
      | None =>
          match first_error (check_row variables covariance) variables with
          | Some e => Err e
          | None => Ok (mkGaussianFactor variables mean covariance)
          end
      end
  end.

(** [for k, v := range m { c[k] = v }] *)
Definition copy_map {A} (m : gmap string A) : gmap string A :=
  map_fold (fun k v acc => <[k := v]> acc) ∅ m.

Definition Copy (gf : GaussianFactor) : GaussianFactor :=
  mkGaussianFactor (Variables gf) (copy_map (Mean gf))
    (map_fold (fun k1 v1 acc => <[k1 := copy_map v1]> acc) ∅ (Covariance gf)).

(** *** Matrix inversion by Gauss-Jordan elimination *)

Definition matrix : Type := list (list float).
Definition row (m : matrix) (i : nat) : list float := default [] (m !! i).
Definition entry (m : matrix) (i j : nat) : float := default 0 (row m i !! j).

Definition find_pivot (m : matrix) (n i : nat) : nat :=
  foldl (fun maxRow k =>
           if abs (entry m maxRow i) <? abs (entry m k i) then k else maxRow)
        i (seq (S i) (n - S i)).

Definition swap_rows (m : matrix) (i j : nat) : matrix :=
  <[j := row m i]> (<[i := row m j]> m).

Definition eliminate_row (mi : matrix * matrix) (i k : nat) : matrix * matrix :=
  if decide (k = i) then mi
  else
    let factor := entry mi.1 k i in
    (<[k := zip_with (fun a b => a - factor * b) (row mi.1 k) (row mi.1 i)]> mi.1,
     <[k := zip_with (fun a b => a - factor * b) (row mi.2 k) (row mi.2 i)]> mi.2).

Definition invert_step (n : nat) (acc : result (matrix * matrix)) (i : nat)
    : result (matrix * matrix) :=
  match acc with
  | Ok (m, inv) =>
      let maxRow := find_pivot m n i in
      let m := swap_rows m i maxRow in
      let inv := swap_rows inv i maxRow in
      if abs (entry m i i) <? 1e-10 then
        Err "matrix is singular or nearly singular"
      else
        let pivot := entry m i i in
        let m := <[i := (fun x => x / pivot) <$> row m i]> m in
        let inv := <[i := (fun x => x / pivot) <$> row inv i]> inv in
        Ok (foldl (fun mi k => eliminate_row mi i k) (m, inv) (seq 0 n))
  | other => other
  end.

Definition identity_matrix (n : nat) : matrix :=
  (fun i => (fun j => if decide (i = j) then 1 else 0) <$> seq 0 n) <$> seq 0 n.

Definition invertSubMatrix (gf : GaussianFactor) (vars : list string)
    : result matrix :=
  let n := length vars in
  let m := (fun v1 => (fun v2 => cov_at (Covariance gf) v1 v2) <$> vars) <$> vars in
  match foldl (invert_step n) (Ok (m, identity_matrix n)) (seq 0 n) with
  | Ok (_, inv) => Ok inv
  | Err e => Err e
  | Panic => Panic
  end.

(** *** Conditioning *)

(** [Σ₁₂ Σ₂₂⁻¹ z], accumulated in the order of the two nested loops. *)
Definition quad_sum (observed : list string) (sigma22Inv : matrix)
    (init : float) (term : nat → string → nat → string → float)
    (accumulate : float → float → float) : float :=
  foldl (fun acc iv =>
           foldl (fun acc jv => accumulate acc (term iv.1 iv.2 jv.1 jv.2))
                 acc (imap pair observed))
        init (imap pair observed).

Definition Reduce (gf : GaussianFactor) (evidence : gmap string float)
    : result GaussianFactor :=
  let observed := filter (fun v => is_Some (evidence !! v)) (Variables gf) in
  let unobserved := filter (fun v => ¬ is_Some (evidence !! v)) (Variables gf) in
  match observed with
  | [] => Ok (Copy gf)
  | _ :: _ =>
      match unobserved with
      | [] => Err "all variables observed, cannot reduce to Gaussian"
      | _ :: _ =>
          match invertSubMatrix gf observed with
          | Err e => Err ("failed to invert covariance matrix: " +:+ e)
          | Panic => Panic
          | Ok sigma22Inv =>
              let adjustment v1 :=
                quad_sum observed sigma22Inv 0
                  (fun i v2i j v2j =>
                     cov_at (Covariance gf) v1 v2i * entry sigma22Inv i j *
                     (mean_at evidence v2j - mean_at (Mean gf) v2j))
                  PrimFloat.add in
              let newMean :=
                foldl (fun m v => <[v := mean_at (Mean gf) v + adjustment v]> m)
                      ∅ unobserved in
              let newCov :=
                foldl (fun c v1 =>
                         <[v1 :=
                            foldl (fun r v2 =>
                                     <[v2 :=
                                        quad_sum observed sigma22Inv
                                          (cov_at (Covariance gf) v1 v2)
                                          (fun i obs1 j obs2 =>
                                             cov_at (Covariance gf) v1 obs1 *
                                             entry sigma22Inv i j *
                                             cov_at (Covariance gf) obs2 v2)
                                          PrimFloat.sub]> r)
                                  ∅ unobserved]> c)
                      ∅ unobserved in
              NewGaussianFactor unobserved newMean newCov
          end
      end
  end.

(** *** Multiplication *)

Definition union_vars (vs1 vs2 : list string) : list string :=
  sort_strings (elements (list_to_set (vs1 ++ vs2) : gset string)).

(** The nested search for a common variable. *)
Definition disjoint_vars (vs1 vs2 : list string) : bool :=
  forallb (fun v => forallb (fun v2 => negb (String.eqb v v2)) vs2) vs1.

Definition Multiply (gf other : GaussianFactor) : result GaussianFactor :=
  let newVars := union_vars (Variables gf) (Variables other) in
  if disjoint_vars (Variables gf) (Variables other) then
    let newMean :=
      foldl (fun m v =>
               <[v := match Mean gf !! v with
                      | Some _ => mean_at (Mean gf) v
                      | None => mean_at (Mean other) v
                      end]> m) ∅ newVars in
    let newCov :=
      foldl (fun c v =>
               <[v :=
                  foldl (fun r v2 =>
                           <[v2 :=
                              match Mean gf !! v with
                              | Some _ =>
                                  match Mean gf !! v2 with
                                  | Some _ => cov_at (Covariance gf) v v2
                                  | None => 0
                                  end
                              | None =>
                                  match Mean other !! v2 with
                                  | Some _ => cov_at (Covariance other) v v2
                                  | None => 0
                                  end
                              end]> r) ∅ newVars]> c) ∅ newVars in
    NewGaussianFactor newVars newMean newCov
  else
    Err "multiplication of dependent Gaussian factors not yet fully implemented".

(** *** Facts about the constructor and the map-building loops *)

Lemma first_error_None {A} (check : A → option string) (l : list A) :
  first_error check l = None ↔ ∀ x, x ∈ l → check x = None.
Proof.
  induction l as [|a l IH]; simpl.
  { split; [|done]. intros _ x Hx. by apply elem_of_nil in Hx. }
  destruct (check a) eqn:E.
  - split; [done|]. intros Hall. rewrite Hall in E; [done|by left].
  - rewrite IH. split.
    + intros Hall x [->|Hx]%elem_of_cons; auto.
    + intros Hall x Hx. apply Hall. by right.
Qed.

Lemma foldl_insert_lookup {A} (g : string → A) (l : list string) (v : string) :
  foldl (fun m w => <[w := g w]> m) (∅ : gmap string A) l !! v =
  if decide (v ∈ l) then Some (g v) else None.
Proof.
  assert (H : ∀ m : gmap string A,
            foldl (fun m w => <[w := g w]> m) m l !! v =
            if decide (v ∈ l) then Some (g v) else m !! v).
  { induction l as [|w l IH]; intros m; simpl.
    - destruct (decide (v ∈ [])) as [Hin|]; [|done]. by apply elem_of_nil in Hin.
    - rewrite IH. destruct (decide (v ∈ l)) as [Hin|Hnin].
      + rewrite decide_True; [done|]. by right.
      + destruct (decide (v = w)) as [->|Hne].
        * rewrite decide_True by (by left). by rewrite lookup_insert_eq.
        * rewrite decide_False by (rewrite elem_of_cons; naive_solver).
          by rewrite lookup_insert_ne. }
  rewrite H. by case_decide.
Qed.

Lemma copy_map_id {A} (m : gmap string A) : copy_map m = m.
Proof.
  unfold copy_map.
  apply (map_fold_weak_ind (fun r m => r = m)); [done|].
  by intros i x m' r _ ->.
Qed.

Lemma Copy_id (gf : GaussianFactor) : Copy gf = gf.
Proof.
  destruct gf as [vars mean cov]. unfold Copy. simpl. f_equal.
  - apply copy_map_id.
  - apply (map_fold_weak_ind (fun r m => r = m)); [done|].
    intros i x m' r _ ->. by rewrite copy_map_id.
Qed.

(** C10.  [Reduce] with evidence on none of the factor's variables
    returns a copy, which equals the factor; with evidence on every
    variable of a factor that has variables it returns an error. *)
Theorem Reduce_edge_cases (gf : GaussianFactor) (evidence : gmap string float) :
  ((∀ v, v ∈ Variables gf → evidence !! v = None) →
   Reduce gf evidence = Ok (Copy gf) ∧ Copy gf = gf) ∧
  (Variables gf ≠ [] →
   (∀ v, v ∈ Variables gf → is_Some (evidence !! v)) →
   Reduce gf evidence =
   Err "all variables observed, cannot reduce to Gaussian").
Proof.
  split.
  - intros Hnone. split; [|apply Copy_id]. unfold Reduce.
    rewrite filter_none; [done|].
    intros v Hv [x Hx]. rewrite Hnone in Hx; done.
  - intros Hne Hall. unfold Reduce.
    destruct (filter (fun v => is_Some (evidence !! v)) (Variables gf)) as [|w obs] eqn:Hobs.
    { destruct (Variables gf) as [|v vs] eqn:Hvars; [done|].
      assert (Hin : v ∈ filter (fun v => is_Some (evidence !! v)) (v :: vs)).
      { apply list_elem_of_filter. split; [apply Hall|]; by left. }
      rewrite Hobs in Hin. by apply elem_of_nil in Hin. }
    rewrite filter_none; [done|]. intros v Hv Hnot. by apply Hnot, Hall.
Qed.

(** *** Multiplication of factors over disjoint variables *)

(** The data-model invariant of a Gaussian factor: it passes the
    checks of [NewGaussianFactor], and its mean map is over exactly its
    variables. *)
Definition wf_gaussian (gf : GaussianFactor) : Prop :=
  NewGaussianFactor (Variables gf) (Mean gf) (Covariance gf) = Ok gf ∧
  ∀ v, is_Some (Mean gf !! v) ↔ v ∈ Variables gf.

Lemma disjoint_vars_true vs1 vs2 :
  disjoint_vars vs1 vs2 = true ↔ ∀ v, v ∈ vs1 → v ∉ vs2.
Proof.
  unfold disjoint_vars. rewrite forallb_forall. split.
  - intros Hall v Hv Hin. specialize (Hall v (proj1 (list_elem_of_In _ _) Hv)).
    rewrite forallb_forall in Hall.
    specialize (Hall v (proj1 (list_elem_of_In _ _) Hin)).
    by rewrite String.eqb_refl in Hall.
  - intros Hdis v Hv%list_elem_of_In. apply forallb_forall.
    intros v2 Hv2%list_elem_of_In. apply negb_true_iff, String.eqb_neq.
    intros ->. by apply (Hdis v2).
Qed.

Lemma NewGaussianFactor_Ok variables mean covariance gf :
  NewGaussianFactor variables mean covariance = Ok gf →
  variables ≠ [] ∧
  (∀ v, v ∈ variables → is_Some (mean !! v)) ∧
  (∀ v1 v2, v1 ∈ variables → v2 ∈ variables →
     (1e-9 <? abs (cov_at covariance v1 v2 - cov_at covariance v2 v1)) = false).
Proof.
  intros Hok. assert (Hne : variables ≠ []) by (by intros ->).
  split; [done|]. revert Hok. unfold NewGaussianFactor.
  destruct variables as [|w vs]; [done|]. clear Hne.
  generalize (w :: vs). intros variables.
  destruct (first_error (check_mean mean) variables) eqn:Hm; [done|].
  destruct (first_error (check_row variables covariance) variables) eqn:Hc; [done|].
  intros _. split.
  - intros v Hv. rewrite first_error_None in Hm. specialize (Hm v Hv).
    unfold check_mean in Hm. by destruct (mean !! v).
  - intros v1 v2 Hv1 Hv2. rewrite first_error_None in Hc. specialize (Hc v1 Hv1).
    unfold check_row in Hc. destruct (covariance !! v1); [|done].
    rewrite first_error_None in Hc. specialize (Hc v2 Hv2).
    unfold check_entry in Hc. destruct (default ∅ _ !! v2); [|done].
    by destruct (1e-9 <? _).
Qed.

Lemma NewGaussianFactor_intro variables mean covariance :
  variables ≠ [] →
  (∀ v, v ∈ variables → is_Some (mean !! v)) →
  (∀ v1 v2, v1 ∈ variables → v2 ∈ variables →
     is_Some (default ∅ (covariance !! v1) !! v2) ∧
     (1e-9 <? abs (cov_at covariance v1 v2 - cov_at covariance v2 v1)) = false) →
  NewGaussianFactor variables mean covariance =
  Ok (mkGaussianFactor variables mean covariance).
Proof.
  intros Hne Hmean Hcov. unfold NewGaussianFactor.
  destruct variables as [|w vs]; [done|].
  assert (Hin : w ∈ w :: vs) by (by left). revert Hmean Hcov Hin. clear Hne.
  generalize (w :: vs) at 1 2 3 4 5 6 7 8 9. intros variables Hmean Hcov Hin.
  replace (first_error (check_mean mean) variables) with (@None string).
  2:{ symmetry. apply first_error_None. intros v Hv. unfold check_mean.
      by destruct (Hmean v Hv) as [x ->]. }
  replace (first_error (check_row variables covariance) variables) with (@None string).
  2:{ symmetry. apply first_error_None. intros v1 Hv1. unfold check_row.
      destruct (covariance !! v1) eqn:E.
      - apply first_error_None. intros v2 Hv2. unfold check_entry.
        destruct (Hcov v1 v2 Hv1 Hv2) as [[x Hx] Hsym].
        rewrite E in Hx. simpl in Hx. rewrite E. simpl. by rewrite Hx, Hsym.
      - destruct (Hcov v1 w Hv1 Hin) as [[x Hx] _]. rewrite E in Hx.
        simpl in Hx. by rewrite lookup_empty in Hx. }
  done.
Qed.

Lemma elem_of_gaussian_union_vars vs1 vs2 v :
  v ∈ union_vars vs1 vs2 ↔ v ∈ vs1 ∨ v ∈ vs2.
Proof.
  unfold union_vars. rewrite elem_of_sort_strings, elem_of_elements.
  rewrite elem_of_list_to_set, elem_of_app. done.
Qed.


(** *** Concrete factors *)

Definition gauss_XY : GaussianFactor :=
  mkGaussianFactor ["X"; "Y"] {["X" := 1; "Y" := 2]}
    {["X" := {["X" := 2; "Y" := 1]}; "Y" := {["X" := 1; "Y" := 2]}]}.

Definition gauss_Z : GaussianFactor :=
  mkGaussianFactor ["Z"] {["Z" := 3]} {["Z" := {["Z" := 4]}]}.

Lemma mean_keys_check (gf : GaussianFactor) :
  bool_decide (dom (Mean gf) = list_to_set (Variables gf)) = true →
  ∀ v, is_Some (Mean gf !! v) ↔ v ∈ Variables gf.
Proof.
  intros Hd%bool_decide_eq_true_1 v.
  by rewrite <- elem_of_dom, Hd, elem_of_list_to_set.
Qed.

Lemma gauss_XY_wf : wf_gaussian gauss_XY.
Proof.
  split; [vm_compute; reflexivity|].
  apply mean_keys_check. vm_compute. reflexivity.
Qed.

Lemma gauss_Z_wf : wf_gaussian gauss_Z.
Proof.
  split; [vm_compute; reflexivity|].
  apply mean_keys_check. vm_compute. reflexivity.
Qed.


Example Multiply_gaussian_example :
  Multiply gauss_XY gauss_Z =
  Ok (mkGaussianFactor ["X"; "Y"; "Z"] {["X" := 1; "Y" := 2; "Z" := 3]}
        {["X" := {["X" := 2; "Y" := 1; "Z" := 0]};
          "Y" := {["X" := 1; "Y" := 2; "Z" := 0]};
          "Z" := {["X" := 0; "Y" := 0; "Z" := 4]}]}).
Proof. vm_compute. reflexivity. Qed.

Lemma Reduce_edge_cases_witness :
  (Reduce gauss_XY {["Z" := 1]} = Ok (Copy gauss_XY) ∧ Copy gauss_XY = gauss_XY) ∧
  Reduce gauss_XY {["X" := 0; "Y" := 0]} =
  Err "all variables observed, cannot reduce to Gaussian".
Proof.
  split.
  - apply (proj1 (Reduce_edge_cases gauss_XY {["Z" := 1]})).
    intros v Hv. apply lookup_singleton_ne. intros <-.
    revert Hv. apply (bool_decide_eq_false_1 _). vm_compute. reflexivity.
  - apply (proj2 (Reduce_edge_cases gauss_XY {["X" := 0; "Y" := 0]})).
    + discriminate.
    + intros v [->|[->|Hv]%elem_of_cons]%elem_of_cons.
      * by eexists.
      * by eexists.
      * by apply elem_of_nil in Hv.
Defined.

(** *** Marginalization *)

(** [Marginalize]: the sub-mean and the sub-covariance over the
    remaining variables, handed to the constructor. *)
Definition sub_mean (gf : GaussianFactor) (newVars : list string)
    : gmap string float :=
  foldl (fun m v => <[v := mean_at (Mean gf) v]> m) ∅ newVars.

Definition sub_cov (gf : GaussianFactor) (newVars : list string)
    : gmap string (gmap string float) :=
  foldl (fun c v1 =>
           <[v1 := foldl (fun r v2 => <[v2 := cov_at (Covariance gf) v1 v2]> r)
                         ∅ newVars]> c) ∅ newVars.

Definition Marginalize (gf : GaussianFactor) (variables : list string)
    : result GaussianFactor :=
  let toRemove : gset string := list_to_set variables in
  let newVars := filter (fun v => v ∉ toRemove) (Variables gf) in
  match newVars with
  | [] => Err "cannot marginalize out all variables"
  | _ :: _ => NewGaussianFactor newVars (sub_mean gf newVars) (sub_cov gf newVars)
  end.

Lemma foldl_insert_ext {A} (g1 g2 : string → A) (l : list string) :
  (∀ v, v ∈ l → g1 v = g2 v) →
  foldl (fun m w => <[w := g1 w]> m) (∅ : gmap string A) l =
  foldl (fun m w => <[w := g2 w]> m) ∅ l.
Proof. intros Hext. apply foldl_ext_elem. intros m v Hv. by rewrite Hext. Qed.

Lemma sub_mean_lookup gf l v :
  sub_mean gf l !! v = if decide (v ∈ l) then Some (mean_at (Mean gf) v) else None.
Proof. apply foldl_insert_lookup. Qed.

Lemma sub_cov_at gf l v1 v2 :
  v1 ∈ l → v2 ∈ l →
  is_Some (default ∅ (sub_cov gf l !! v1) !! v2) ∧
  cov_at (sub_cov gf l) v1 v2 = cov_at (Covariance gf) v1 v2.
Proof.
  intros H1 H2. unfold cov_at at 1, sub_cov.
  rewrite (foldl_insert_lookup
             (fun v1 => foldl (fun r v2 => <[v2 := cov_at (Covariance gf) v1 v2]> r)
                              ∅ l) l v1).
  rewrite decide_True by done. simpl.
  rewrite (foldl_insert_lookup (fun v2 => cov_at (Covariance gf) v1 v2) l v2).
  rewrite decide_True by done. split; [by eexists|done].
Qed.

Lemma NewGaussianFactor_result variables mean covariance gf :
  NewGaussianFactor variables mean covariance = Ok gf →
  gf = mkGaussianFactor variables mean covariance.
Proof.
  unfold NewGaussianFactor. destruct variables; [done|].
  destruct (first_error _ _); [done|]. destruct (first_error _ _); [done|].
  by intros [= <-].
Qed.

Lemma filter_remove_twice (vs1 vs2 vars : list string) :
  filter (fun v => v ∉ (list_to_set vs2 : gset string))
         (filter (fun v => v ∉ (list_to_set vs1 : gset string)) vars) =
  filter (fun v => v ∉ (list_to_set (vs1 ++ vs2) : gset string)) vars.
Proof.
  induction vars as [|x vars IH]; [done|].
  rewrite !filter_cons. rewrite <- IH.
  destruct (decide (x ∉ (list_to_set vs1 : gset string))) as [H1|H1].
  - rewrite filter_cons.
    destruct (decide (x ∉ (list_to_set vs2 : gset string))) as [H2|H2].
    + rewrite decide_True; [done|].
      rewrite elem_of_list_to_set, elem_of_app.
      rewrite elem_of_list_to_set in H1, H2. tauto.
    + rewrite decide_False; [done|].
      rewrite elem_of_list_to_set, elem_of_app.
      rewrite elem_of_list_to_set in H1, H2. tauto.
  - rewrite decide_False; [done|].
    rewrite elem_of_list_to_set, elem_of_app.
    rewrite elem_of_list_to_set in H1. tauto.
Qed.

(** X20.  [Marginalize] on a Gaussian factor that passes the constructor's
    checks fails exactly when no variable remains; otherwise it returns
    the factor over the remaining variables, in their order, with their
    means and the covariances among them, and that factor again passes
    the checks. *)
Theorem Marginalize_restricts (gf : GaussianFactor) (variables : list string) :
  NewGaussianFactor (Variables gf) (Mean gf) (Covariance gf) = Ok gf →
  ((∀ v, v ∈ Variables gf → v ∈ variables) →
   Marginalize gf variables = Err "cannot marginalize out all variables") ∧
  ((∃ v, v ∈ Variables gf ∧ v ∉ variables) →
   ∃ g, Marginalize gf variables = Ok g ∧
        Variables g = filter (fun v => v ∉ variables) (Variables gf) ∧
        (∀ v, Mean g !! v =
              if decide (v ∈ Variables g) then Some (mean_at (Mean gf) v) else None) ∧
        (∀ v1 v2, v1 ∈ Variables g → v2 ∈ Variables g →
                  cov_at (Covariance g) v1 v2 = cov_at (Covariance gf) v1 v2) ∧
        wf_gaussian g).
Proof.
  intros Hok. unfold Marginalize.
  set (P := fun v => v ∉ (list_to_set variables : gset string)).
  assert (HP : filter P (Variables gf) = filter (fun v => v ∉ variables) (Variables gf)).
  { apply filter_ext_elem_of. intros v _. unfold P. by rewrite elem_of_list_to_set. }
  split.
  - intros Hall. rewrite (filter_none P); [done|].
    intros v Hv. unfold P. rewrite elem_of_list_to_set. auto.
  - intros (w & Hw & Hnw).
    destruct (filter P (Variables gf)) as [|u newVars'] eqn:Hvars.
    { assert (Hin : w ∈ filter P (Variables gf)).
      { apply list_elem_of_filter. split; [|done]. unfold P.
        by rewrite elem_of_list_to_set. }
      rewrite Hvars in Hin. by apply elem_of_nil in Hin. }
    rewrite <- Hvars. rewrite <- Hvars in HP.
    set (newVars := filter P (Variables gf)) in *.
    assert (Hsub : ∀ v, v ∈ newVars → v ∈ Variables gf).
    { intros v Hv. by apply list_elem_of_filter in Hv as [_ Hv]. }
    destruct (NewGaussianFactor_Ok _ _ _ _ Hok) as (_ & _ & Hsym).
    assert (Hnew : NewGaussianFactor newVars (sub_mean gf newVars) (sub_cov gf newVars) =
              Ok (mkGaussianFactor newVars (sub_mean gf newVars) (sub_cov gf newVars))).
    { apply NewGaussianFactor_intro.
      - rewrite Hvars. done.
      - intros v Hv. rewrite sub_mean_lookup, decide_True by done. by eexists.
      - intros v1 v2 H1 H2.
        destruct (sub_cov_at gf newVars v1 v2 H1 H2) as [Hsome H12].
        destruct (sub_cov_at gf newVars v2 v1 H2 H1) as [_ H21].
        split; [done|]. rewrite H12, H21. apply Hsym; by apply Hsub. }
    eexists. split; [exact Hnew|]. simpl. split; [done|]. split; [|split].
    + intros v. apply sub_mean_lookup.
    + intros v1 v2 H1 H2. by apply sub_cov_at.
    + split; [exact Hnew|]. simpl. intros v. rewrite sub_mean_lookup.
      case_decide as Hv.
      * split; [done|]. intros _. by eexists.
      * split; [by intros [? ?]|done].
Qed.

Lemma Marginalize_restricts_witness :
  ((∀ v, v ∈ Variables gauss_XY → v ∈ ["Y"]) →
   Marginalize gauss_XY ["Y"] = Err "cannot marginalize out all variables") ∧
  ((∃ v, v ∈ Variables gauss_XY ∧ v ∉ ["Y"]) →
   ∃ g, Marginalize gauss_XY ["Y"] = Ok g ∧
        Variables g = filter (fun v => v ∉ ["Y"]) (Variables gauss_XY) ∧
        (∀ v, Mean g !! v =
              if decide (v ∈ Variables g) then Some (mean_at (Mean gauss_XY) v)
              else None) ∧
        (∀ v1 v2, v1 ∈ Variables g → v2 ∈ Variables g →
                  cov_at (Covariance g) v1 v2 = cov_at (Covariance gauss_XY) v1 v2) ∧
        wf_gaussian g).
Proof.
  apply (Marginalize_restricts gauss_XY ["Y"]). vm_compute. reflexivity.
Defined.

(** X21.  Marginalizing a Gaussian factor in two steps gives what one step
    over both lists gives, the same factor or the same error. *)
Theorem Marginalize_twice (gf g : GaussianFactor) (vs1 vs2 : list string) :
  Marginalize gf vs1 = Ok g →
  Marginalize g vs2 = Marginalize gf (vs1 ++ vs2).
Proof.
  unfold Marginalize at 1.
  set (newVars1 := filter (fun v => v ∉ (list_to_set vs1 : gset string)) (Variables gf)).
  destruct newVars1 as [|u l1] eqn:H1; [done|]. rewrite <- H1.
  intros Hg%NewGaussianFactor_result. subst g. unfold Marginalize. simpl.
  unfold newVars1. rewrite filter_remove_twice.
  set (newVars := filter (fun v => v ∉ (list_to_set (vs1 ++ vs2) : gset string))
                         (Variables gf)).
  assert (Hsub : ∀ v, v ∈ newVars → v ∈ newVars1).
  { intros v Hv. unfold newVars, newVars1 in *.
    rewrite <- filter_remove_twice in Hv.
    by apply list_elem_of_filter in Hv as [_ Hv]. }
  destruct newVars as [|w l] eqn:Hnv; [done|]. rewrite <- Hnv in *.
  f_equal.
  - unfold sub_mean at 1. simpl. apply foldl_insert_ext. intros v Hv.
    unfold mean_at at 1. rewrite sub_mean_lookup.
    by rewrite decide_True by (by apply Hsub).
  - unfold sub_cov at 1. simpl. apply foldl_insert_ext. intros v1 Hv1.
    apply foldl_insert_ext. intros v2 Hv2.
    apply sub_cov_at; by apply Hsub.
Qed.

Lemma Marginalize_twice_witness :
  Marginalize (mkGaussianFactor ["X"] (sub_mean gauss_XY ["X"]) (sub_cov gauss_XY ["X"]))
              ["X"] =
  Marginalize gauss_XY (["Y"] ++ ["X"]).
Proof.
  apply (Marginalize_twice gauss_XY _ ["Y"] ["X"]). vm_compute. reflexivity.
Defined.

End Gaussian.

(** ** Package models: fitting a linear-Gaussian CPD *)

Module Models.

Local Open Scope float_scope.

(** [float64(n)] for a length [n]. *)
Definition float_of_nat (n : nat) : float :=
  PrimFloat.of_uint63 (Uint63.of_Z (Z.of_nat n)).

(** Package factors: [LinearGaussianCPD] and its constructor for
    continuous parents. *)
Record GaussianParams : Type := mkGaussianParams {
  ParamMean : float;
  ParamVariance : float
}.

Record LinearGaussianCPD : Type := mkLinearGaussianCPD {
  Variable_ : string;
  CPDParents : list string;
  ParentTypes : gmap string string;
  Intercept : float;
  Coefficients : gmap string float;
  Variance : float;
  DiscreteStates : gmap string GaussianParams;
  CPDCardinality : gmap string Z
}.

Definition NewLinearGaussianCPD (variable : string) (parents : list string)
    (intercept : float) (coefficients : gmap string float) (variance : float)
    : result LinearGaussianCPD :=
  if variance <=? 0 then Err "variance must be positive"
  else
    let parentTypes :=
      foldl (fun m p => <[p := "continuous"%string]> m) ∅ parents in
    Ok (mkLinearGaussianCPD variable parents parentTypes intercept coefficients
          variance ∅ ∅).

(** The fields of [BayesianNetwork] and [Sample] read by the fit. *)
Record BayesianNetwork : Type := mkBayesianNetwork {
  DAG : Graph.DAG;
  VariableType : gmap string string
}.

Record Sample : Type := mkSample {
  Discrete : gmap string Z;
  Continuous : gmap string float
}.

Definition IsDiscrete (bn : BayesianNetwork) (variable : string) : bool :=
  match VariableType bn !! variable with
  | Some vtype => String.eqb vtype "discrete"
  | None => false
  end.

(** *** Normal equations *)

Definition matrix : Type := list (list float).
Definition row (m : matrix) (i : nat) : list float := default [] (m !! i).
Definition entry (m : matrix) (i j : nat) : float := default 0 (row m i !! j).
Definition at_index (l : list float) (i : nat) : float := default 0 (l !! i).

(** [sum := 0.0; for k := 0; k < n; k++ { sum += term k }] *)
Definition sum_over (n : nat) (term : nat → float) : float :=
  foldl (fun sum k => sum + term k) 0 (seq 0 n).

Definition find_pivot (m : matrix) (p i : nat) : nat :=
  foldl (fun maxRow k =>
           if abs (entry m maxRow i) <? abs (entry m k i) then k else maxRow)
        i (seq (S i) (p - S i)).

Definition swap_rows (m : matrix) (i j : nat) : matrix :=
  <[j := row m i]> (<[i := row m j]> m).

(** [for j := i; j <= p; j++ { aug[k][j] -= factor * aug[i][j] }] *)
Definition eliminate_below (aug : matrix) (p i k : nat) : matrix :=
  let factor := entry aug k i / entry aug i i in
  <[k := imap (fun j a => if decide (i ≤ j)%nat
                          then a - factor * entry aug i j else a)
              (row aug k)]> aug.

Definition forward_step (p : nat) (acc : result matrix) (i : nat) : result matrix :=
  match acc with
  | Ok aug =>
      let aug := swap_rows aug i (find_pivot aug p i) in
      if abs (entry aug i i) <? 1e-10 then
        Err "singular matrix in linear regression"
      else
        Ok (foldl (fun aug k => eliminate_below aug p i k) aug
              (seq (S i) (p - S i)))
  | other => other
  end.

(** Back substitution, [i] running from [p-1] down to [0]. *)
Definition back_step (aug : matrix) (p : nat) (beta : list float) (i : nat)
    : list float :=
  let b := foldl (fun b j => b - entry aug i j * at_index beta j)
                 (entry aug i p) (seq (S i) (p - S i)) in
  <[i := b / entry aug i i]> beta.

Definition solveLinearRegression (Y : matrix) (X : list float)
    : result (list float) :=
  if decide (length Y = 0%nat ∨ length Y ≠ length X) then
    Err "invalid input dimensions"
  else
    let n := length Y in
    let p := length (row Y 0) in
    let YtY : matrix :=
      (fun i => (fun j => sum_over n (fun k => entry Y k i * entry Y k j))
                  <$> seq 0 p) <$> seq 0 p in
    let YtX : list float :=
      (fun i => sum_over n (fun k => entry Y k i * at_index X k)) <$> seq 0 p in
    let augmented : matrix :=
      (fun i => row YtY i ++ [at_index YtX i]) <$> seq 0 p in
    match foldl (forward_step p) (Ok augmented) (seq 0 p) with
    | Ok aug =>
        Ok (foldl (back_step aug p) (replicate p 0) (reverse (seq 0 p)))
    | Err e => Err e
    | Panic => Panic
    end.

(** *** [learnGaussianCPDFromMixed] *)

(** The parent values [[y1, ..., yp]] of a sample, when the sample has
    a value for every parent. *)
Fixpoint parent_values (parents : list string) (sample : Sample)
    : option (list float) :=
  match parents with
  | [] => Some []
  | p :: parents' =>
      match Continuous sample !! p with
      | None => None
      | Some pVal => (fun r => pVal :: r) <$> parent_values parents' sample
      end
  end.

Definition collect_step (variable : string) (parents : list string)
    (acc : list float * matrix) (sample : Sample) : list float * matrix :=
  match Continuous sample !! variable with
  | None => acc
  | Some xVal =>
      match parent_values parents sample with
      | None => acc
      | Some r => (acc.1 ++ [xVal], acc.2 ++ [1 :: r])
      end
  end.

Definition collect_rows (variable : string) (parents : list string)
    (data : list Sample) : list float * matrix :=
  foldl (collect_step variable parents) ([], []) data.

Definition residual_variance (parents : list string)
    (intercept : float) (parentCoeffs : gmap string float)
    (xVals : list float) (yMatrix : matrix) : float :=
  let sumSqResid :=
    foldl (fun acc ir =>
             let predicted :=
               foldl (fun pr jp =>
                        pr + default 0 (parentCoeffs !! jp.2) *
                             at_index ir.2 (S jp.1))
                     intercept (imap pair parents) in
             let residual := at_index xVals ir.1 - predicted in
             acc + residual * residual)
          0 (imap pair yMatrix) in
  let variance := sumSqResid / float_of_nat (length xVals) in
  if variance <? 1e-6 then 1e-6 else variance.

Definition learn_no_parents (variable : string) (data : list Sample)
    : result LinearGaussianCPD :=
  let st :=
    foldl (fun st sample =>
             match Continuous sample !! variable with
             | Some val => (st.1.1 + val, st.1.2 + val * val, st.2 + 1)
             | None => st
             end) (0, 0, 0) data in
  let sum := st.1.1 in
  let sumSq := st.1.2 in
  let count := st.2 in
  if count =? 0 then Err ("no data for variable " +:+ variable)
  else
    let mean := sum / count in
    let variance := sumSq / count - mean * mean in
    let variance := if variance <? 1e-6 then 1e-6 else variance in
    NewLinearGaussianCPD variable [] mean ∅ variance.

Definition learnGaussianCPDFromMixed (bn : BayesianNetwork) (variable : string)
    (data : list Sample) : result LinearGaussianCPD :=
  let parents := sort_strings (Graph.Parents (DAG bn) variable) in
  match parents with
  | [] => learn_no_parents variable data
  | _ :: _ =>
      if forallb (fun p => negb (IsDiscrete bn p)) parents then
        let rows := collect_rows variable parents data in
        let xVals := rows.1 in
        let yMatrix := rows.2 in
        if decide (length xVals < length parents + 1)%nat then
          Err ("insufficient data for learning Gaussian CPD for " +:+ variable)
        else
          match solveLinearRegression yMatrix xVals with
          | Err e => Err ("failed to solve linear regression: " +:+ e)
          | Panic => Panic
          | Ok coeffs =>
              let intercept := at_index coeffs 0 in
              let parentCoeffs :=
                foldl (fun m ip => <[ip.2 := at_index coeffs (S ip.1)]> m)
                      ∅ (imap pair parents) in
              let variance :=
                residual_variance parents intercept parentCoeffs xVals yMatrix in
              NewLinearGaussianCPD variable parents intercept parentCoeffs variance
          end
      else
        Err "learning Gaussian CPD with discrete parents not yet fully implemented"
  end.

(** *** The data-sufficiency guard *)

(** A data row counts when it has the child value and all parent
    values. *)
Definition complete_row (variable : string) (parents : list string)
    (sample : Sample) : bool :=
  bool_decide (is_Some (Continuous sample !! variable)) &&
  forallb (fun p => bool_decide (is_Some (Continuous sample !! p))) parents.

Definition complete_count (variable : string) (parents : list string)
    (data : list Sample) : nat :=
  length (filter (fun sample => complete_row variable parents sample) data).

Lemma parent_values_Some parents sample :
  is_Some (parent_values parents sample) ↔
  forallb (fun p => bool_decide (is_Some (Continuous sample !! p))) parents = true.
Proof.
  induction parents as [|p ps IH]; cbn [parent_values forallb].
  { split; [done|]. by eexists. }
  destruct (Continuous sample !! p) as [x|].
  - rewrite bool_decide_eq_true_2 by (by eexists).
    rewrite fmap_is_Some, IH. done.
  - rewrite bool_decide_eq_false_2 by (by intros [??]).
    split; [by intros [??]|done].
Qed.

Lemma collect_step_length variable parents acc sample :
  length (collect_step variable parents acc sample).1 =
  (length acc.1 + if complete_row variable parents sample then 1 else 0)%nat.
Proof.
  unfold collect_step, complete_row.
  pose proof (parent_values_Some parents sample) as Hpv.
  destruct (Continuous sample !! variable) as [x|].
  - rewrite bool_decide_eq_true_2 by (by eexists). cbn [andb].
    destruct (parent_values parents sample) as [r|].
    + rewrite (proj1 Hpv) by (by eexists). cbn [fst]. rewrite length_app. done.
    + destruct (forallb _ parents); [|lia].
      destruct (proj2 Hpv eq_refl) as [? ?]. done.
  - rewrite bool_decide_eq_false_2 by (by intros [??]). cbn [andb]. lia.
Qed.

Lemma collect_rows_length variable parents data :
  length (collect_rows variable parents data).1 =
  complete_count variable parents data.
Proof.
  unfold collect_rows, complete_count.
  assert (H : ∀ acc,
            length (foldl (collect_step variable parents) acc data).1 =
            (length acc.1 +
             length (filter (fun s => complete_row variable parents s) data))%nat).
  { induction data as [|s data IH]; intros acc; simpl; [lia|].
    rewrite IH, collect_step_length, filter_cons.
    case_decide as Hc; destruct (complete_row variable parents s);
      simpl in *; solve [lia | tauto]. }
  by rewrite H.
Qed.


Definition bn_xy : BayesianNetwork :=
  mkBayesianNetwork (Graph.AddEdge "Y" "X" Graph.NewDAG).1 ∅.

Definition one_row : list Sample :=
  [mkSample ∅ {["X" := 1; "Y" := 0]}].

Definition two_rows : list Sample :=
  [mkSample ∅ {["X" := 1; "Y" := 0]}; mkSample ∅ {["X" := 3; "Y" := 1]}].

Definition repeated_rows : list Sample :=
  [mkSample ∅ {["X" := 1; "Y" := 2]}; mkSample ∅ {["X" := 3; "Y" := 2]}].



End Models.

(** ** Package models: assembling and checking a network *)

Module Network.
Import Tabular.

Local Open Scope Z_scope.

(** [type BayesianNetwork struct], all five fields. *)
Record BayesianNetwork : Type := mkBayesianNetwork {
  DAG : Graph.DAG;
  CPDs : gmap string TabularCPD;
  GaussianCPDs : gmap string Models.LinearGaussianCPD;
  VariableType : gmap string string;
  Cardinality : gmap string Z
}.

Definition NewBayesianNetwork (edges : list (string * string))
    : result BayesianNetwork :=
  match Graph.NewDAGFromEdges edges with
  | Ok dag => Ok (mkBayesianNetwork dag ∅ ∅ ∅ ∅)
  | Err e => Err e
  | Panic => Panic
  end.

(** [for i := range parents { if parents[i] != sorted[i] {...} }] after
    the lengths were found equal. *)
Definition same_elements (parents sorted : list string) : bool :=
  forallb (fun ab => String.eqb ab.1 ab.2) (zip parents sorted).

(** [for k, v := range cpd.EvidenceCard { bn.Cardinality[k] = v;
    bn.VariableType[k] = Discrete }] on the pair of the two maps. *)
Definition record_evidence (evidenceCard : gmap string Z)
    (st : gmap string Z * gmap string string)
    : gmap string Z * gmap string string :=
  foldl (fun st kv => (<[kv.1 := kv.2]> st.1, <[kv.1 := "discrete"]> st.2))
        st (map_to_list evidenceCard).

(** [AddCPD] mutates the network and returns an error or nil. *)
Definition AddCPD (cpd : TabularCPD) (bn : BayesianNetwork)
    : BayesianNetwork * option string :=
  if negb (bool_decide (Variable_ cpd ∈ Graph.Nodes (DAG bn))) then
    (bn, Some ("variable " +:+ Variable_ cpd +:+ " not in network"))
  else
    let parents := sort_strings (Graph.Parents (DAG bn) (Variable_ cpd)) in
    let evidenceSorted := sort_strings (Evidence cpd) in
    if decide (length parents ≠ length evidenceSorted) then
      (bn, Some ("CPD evidence does not match parents for " +:+ Variable_ cpd))
    else if negb (same_elements parents evidenceSorted) then
      (bn, Some ("CPD evidence does not match parents for " +:+ Variable_ cpd))
    else
      let st := record_evidence (EvidenceCard cpd)
                  (<[Variable_ cpd := VariableCard cpd]> (Cardinality bn),
                   <[Variable_ cpd := "discrete"]> (VariableType bn)) in
      (mkBayesianNetwork (DAG bn) (<[Variable_ cpd := cpd]> (CPDs bn))
         (GaussianCPDs bn) st.2 st.1, None).

(** The loop of [AddGaussianCPD] over [cpd.ParentTypes]. *)
Definition record_parent_type (cpd : Models.LinearGaussianCPD)
    (st : gmap string Z * gmap string string) (kv : string * string)
    : gmap string Z * gmap string string :=
  if String.eqb kv.2 "discrete" then
    let types := match st.2 !! kv.1 with
                 | Some _ => st.2
                 | None => <[kv.1 := "discrete"]> st.2
                 end in
    let cards := match Models.CPDCardinality cpd !! kv.1 with
                 | Some card => <[kv.1 := card]> st.1
                 | None => st.1
                 end in
    (cards, types)
  else
    (st.1, match st.2 !! kv.1 with
           | Some _ => st.2
           | None => <[kv.1 := "continuous"]> st.2
           end).

Definition AddGaussianCPD (cpd : Models.LinearGaussianCPD) (bn : BayesianNetwork)
    : BayesianNetwork * option string :=
  if negb (bool_decide (Models.Variable_ cpd ∈ Graph.Nodes (DAG bn))) then
    (bn, Some ("variable " +:+ Models.Variable_ cpd +:+ " not in network"))
  else
    let parents := sort_strings (Graph.Parents (DAG bn) (Models.Variable_ cpd)) in
    let cpdParents := sort_strings (Models.CPDParents cpd) in
    if decide (length parents ≠ length cpdParents) then
      (bn, Some ("CPD parents do not match DAG parents for " +:+ Models.Variable_ cpd))
    else if negb (same_elements parents cpdParents) then
      (bn, Some ("CPD parents do not match DAG parents for " +:+ Models.Variable_ cpd))
    else
      let st := foldl (record_parent_type cpd)
                  (Cardinality bn,
                   <[Models.Variable_ cpd := "continuous"]> (VariableType bn))
                  (map_to_list (Models.ParentTypes cpd)) in
      (mkBayesianNetwork (DAG bn) (CPDs bn)
         (<[Models.Variable_ cpd := cpd]> (GaussianCPDs bn)) st.2 st.1, None).

(** [CheckModel]: three loops, each returning at its first error.  The
    second and third range over Go maps; the model visits them in the
    order of [map_to_list]. *)
Definition check_node (bn : BayesianNetwork) (node : string) : option string :=
  match CPDs bn !! node, GaussianCPDs bn !! node with
  | None, None => Some ("node " +:+ node +:+ " has no CPD")
  | Some _, Some _ =>
      Some ("node " +:+ node +:+ " has both discrete and Gaussian CPD")
  | _, _ => None
  end.

Definition check_structure (bn : BayesianNetwork) (count_msg elem_msg : string)
    (variable : string) (listed : list string) : option string :=
  let parents := sort_strings (Graph.Parents (DAG bn) variable) in
  let sorted := sort_strings listed in
  if decide (length parents ≠ length sorted) then Some (count_msg +:+ variable)
  else if negb (same_elements parents sorted) then Some (elem_msg +:+ variable)
  else None.

Definition check_cpd (bn : BayesianNetwork) (kv : string * TabularCPD)
    : option string :=
  check_structure bn "CPD evidence count mismatch for "
    "CPD evidence mismatch for " kv.1 (Evidence kv.2).

Definition check_gaussian (bn : BayesianNetwork)
    (kv : string * Models.LinearGaussianCPD) : option string :=
  check_structure bn "gaussian CPD parent count mismatch for "
    "gaussian CPD parent mismatch for " kv.1 (Models.CPDParents kv.2).

Definition CheckModel (bn : BayesianNetwork) : option string :=
  match Gaussian.first_error (check_node bn) (Graph.Nodes (DAG bn)) with
  | Some e => Some e
  | None =>
      match Gaussian.first_error (check_cpd bn) (map_to_list (CPDs bn)) with
      | Some e => Some e
      | None =>
          Gaussian.first_error (check_gaussian bn) (map_to_list (GaussianCPDs bn))
      end
  end.

(** Networks assembled through the constructor and the two adders. *)
Inductive assembled : BayesianNetwork → Prop :=
  | assembled_new edges bn :
      NewBayesianNetwork edges = Ok bn → assembled bn
  | assembled_cpd bn cpd :
      assembled bn → (AddCPD cpd bn).2 = None → assembled (AddCPD cpd bn).1
  | assembled_gaussian bn cpd :
      assembled bn → (AddGaussianCPD cpd bn).2 = None →
      assembled (AddGaussianCPD cpd bn).1.

Lemma same_elements_eq (l1 l2 : list string) :
  length l1 = length l2 → same_elements l1 l2 = true ↔ l1 = l2.
Proof.
  unfold same_elements. revert l2.
  induction l1 as [|a l1 IH]; intros [|b l2] Hlen; simpl in *; try done.
  rewrite andb_true_iff, String.eqb_eq, IH by lia. split.
  - by intros [-> ->].
  - by intros [= -> ->].
Qed.

Lemma sort_strings_eq_iff (l1 l2 : list string) :
  sort_strings l1 = sort_strings l2 ↔ l1 ≡ₚ l2.
Proof.
  split.
  - intros Heq. by rewrite <- (sort_strings_Permutation l1), Heq,
      sort_strings_Permutation.
  - intros Hperm. apply (Sorted_unique String.le).
    + apply Sorted_merge_sort. apply _.
    + apply Sorted_merge_sort. apply _.
    + by rewrite !sort_strings_Permutation.
Qed.

(** The structural test of [AddCPD], [AddGaussianCPD] and [CheckModel]
    passes exactly for a permutation of the parents. *)
Lemma structure_test (d : Graph.DAG) (variable : string) (listed : list string) :
  (length (sort_strings (Graph.Parents d variable)) = length (sort_strings listed) ∧
   same_elements (sort_strings (Graph.Parents d variable)) (sort_strings listed) = true) ↔
  listed ≡ₚ Graph.Parents d variable.
Proof.
  split.
  - intros [Hlen Hsame]. apply same_elements_eq in Hsame; [|done].
    symmetry. apply sort_strings_eq_iff, Hsame.
  - intros Hperm.
    assert (Heq : sort_strings (Graph.Parents d variable) = sort_strings listed)
      by (by apply sort_strings_eq_iff).
    rewrite Heq. split; [done|]. by apply same_elements_eq.
Qed.

Lemma check_structure_None bn m1 m2 variable listed :
  check_structure bn m1 m2 variable listed = None ↔
  listed ≡ₚ Graph.Parents (DAG bn) variable.
Proof.
  rewrite <- structure_test. unfold check_structure.
  case_decide as Hlen.
  - split; [done|]. by intros [? _].
  - destruct (same_elements _ _); simpl.
    + split; [by intros _|done].
    + split; [done|by intros [_ ?]].
Qed.

Lemma foldl_record_evidence (l : list (string * Z)) :
  ∀ (st : gmap string Z * gmap string string) k,
    NoDup l.*1 →
    (foldl (fun st kv => (<[kv.1 := kv.2]> st.1, <[kv.1 := "discrete"]> st.2)) st l).1
      !! k = match (list_to_map l : gmap string Z) !! k with
             | Some c => Some c
             | None => st.1 !! k
             end ∧
    (foldl (fun st kv => (<[kv.1 := kv.2]> st.1, <[kv.1 := "discrete"]> st.2)) st l).2
      !! k = match (list_to_map l : gmap string Z) !! k with
             | Some _ => Some "discrete"
             | None => st.2 !! k
             end.
Proof.
  induction l as [|[k' c'] l IH]; intros st k Hnd; [done|].
  apply NoDup_cons in Hnd as [Hk' Hnd]. cbn [foldl fst snd].
  destruct (IH (<[k' := c']> st.1, <[k' := "discrete"]> st.2) k Hnd) as [H1 H2].
  rewrite H1, H2. cbn [list_to_map foldr fst snd uncurry].
  destruct (decide (k = k')) as [->|Hne].
  - rewrite (lookup_insert_eq (list_to_map l)).
    rewrite (not_elem_of_list_to_map_1 l k') by done. simpl.
    by rewrite !lookup_insert_eq.
  - rewrite (lookup_insert_ne (list_to_map l)) by done.
    destruct (list_to_map l !! k); [done|]. simpl.
    by rewrite !lookup_insert_ne by done.
Qed.

Lemma record_evidence_lookup (ec : gmap string Z)
    (st : gmap string Z * gmap string string) (k : string) :
  (record_evidence ec st).1 !! k =
    match ec !! k with Some c => Some c | None => st.1 !! k end ∧
  (record_evidence ec st).2 !! k =
    match ec !! k with Some _ => Some "discrete" | None => st.2 !! k end.
Proof.
  unfold record_evidence.
  destruct (foldl_record_evidence (map_to_list ec) st k
              (NoDup_fst_map_to_list ec)) as [H1 H2].
  rewrite list_to_map_to_list in H1, H2. by split.
Qed.

Lemma elem_of_Nodes d n : n ∈ Graph.Nodes d ↔ n ∈ Graph.nodes d.
Proof. unfold Graph.Nodes. by rewrite elem_of_sort_strings, elem_of_elements. Qed.

(** X22.  [AddCPD] accepts a CPD exactly when its variable is a node of
    the network and its evidence list is a permutation of the parents
    of that node (any order, no repetition).  A rejected call leaves
    the network as it was; an accepted one stores the CPD under its
    variable, marks the variable discrete and records the evidence
    cardinalities. *)
Theorem AddCPD_accepts_iff (cpd : TabularCPD) (bn : BayesianNetwork) :
  ((AddCPD cpd bn).2 = None ↔
   Variable_ cpd ∈ Graph.nodes (DAG bn) ∧
   Evidence cpd ≡ₚ Graph.Parents (DAG bn) (Variable_ cpd)) ∧
  ((AddCPD cpd bn).2 ≠ None → (AddCPD cpd bn).1 = bn) ∧
  ((AddCPD cpd bn).2 = None →
   DAG (AddCPD cpd bn).1 = DAG bn ∧
   CPDs (AddCPD cpd bn).1 = <[Variable_ cpd := cpd]> (CPDs bn) ∧
   GaussianCPDs (AddCPD cpd bn).1 = GaussianCPDs bn ∧
   VariableType (AddCPD cpd bn).1 !! Variable_ cpd = Some "discrete" ∧
   ∀ k c, EvidenceCard cpd !! k = Some c →
          Cardinality (AddCPD cpd bn).1 !! k = Some c ∧
          VariableType (AddCPD cpd bn).1 !! k = Some "discrete").
Proof.
  unfold AddCPD.
  pose proof (structure_test (DAG bn) (Variable_ cpd) (Evidence cpd)) as Htest.
  case_bool_decide as Hnode; simpl.
  2:{ split; [|split; [done|done]]. split; [done|].
      intros [Hin _]. by apply elem_of_Nodes in Hin. }
  apply elem_of_Nodes in Hnode.
  case_decide as Hlen.
  { split; [|split; [done|done]]. split; [done|].
    intros [_ Hperm]. apply Htest in Hperm as [? _]. done. }
  destruct (same_elements _ _) eqn:Hsame; simpl.
  2:{ split; [|split; [done|done]]. split; [done|].
      intros [_ Hperm]. apply Htest in Hperm as [_ ?]. congruence. }
  split; [|split; [done|]].
  - split; [intros _|done]. split; [done|]. by apply Htest.
  - intros _. split; [done|]. split; [done|]. split; [done|].
    set (st0 := (<[Variable_ cpd := VariableCard cpd]> (Cardinality bn),
                 <[Variable_ cpd := "discrete"]> (VariableType bn))).
    split.
    + destruct (record_evidence_lookup (EvidenceCard cpd) st0 (Variable_ cpd))
        as [_ ->].
      destruct (EvidenceCard cpd !! Variable_ cpd); [done|].
      apply lookup_insert_eq.
    + intros k c Hk.
      destruct (record_evidence_lookup (EvidenceCard cpd) st0 k) as [-> ->].
      by rewrite Hk.
Qed.

Lemma CheckModel_None bn :
  CheckModel bn = None ↔
  (∀ n, n ∈ Graph.nodes (DAG bn) →
        (is_Some (CPDs bn !! n) ∧ GaussianCPDs bn !! n = None) ∨
        (CPDs bn !! n = None ∧ is_Some (GaussianCPDs bn !! n))) ∧
  (∀ v cpd, CPDs bn !! v = Some cpd →
            Evidence cpd ≡ₚ Graph.Parents (DAG bn) v) ∧
  (∀ v cpd, GaussianCPDs bn !! v = Some cpd →
            Models.CPDParents cpd ≡ₚ Graph.Parents (DAG bn) v).
Proof.
  unfold CheckModel.
  assert (H1 : Gaussian.first_error (check_node bn) (Graph.Nodes (DAG bn)) = None ↔
            ∀ n, n ∈ Graph.nodes (DAG bn) →
              (is_Some (CPDs bn !! n) ∧ GaussianCPDs bn !! n = None) ∨
              (CPDs bn !! n = None ∧ is_Some (GaussianCPDs bn !! n))).
  { rewrite Gaussian.first_error_None. split.
    - intros Hall n Hn. specialize (Hall n (proj2 (elem_of_Nodes _ _) Hn)).
      unfold check_node in Hall.
      destruct (CPDs bn !! n), (GaussianCPDs bn !! n); try done.
      + left. split; [by eexists|done].
      + right. split; [done|by eexists].
    - intros Hall n Hn%elem_of_Nodes. unfold check_node.
      destruct (Hall n Hn) as [[[? ->] ->]|[-> [? ->]]]; done. }
  assert (H2 : Gaussian.first_error (check_cpd bn) (map_to_list (CPDs bn)) = None ↔
            ∀ v cpd, CPDs bn !! v = Some cpd →
                     Evidence cpd ≡ₚ Graph.Parents (DAG bn) v).
  { rewrite Gaussian.first_error_None. split.
    - intros Hall v cpd Hv. apply elem_of_map_to_list in Hv.
      specialize (Hall _ Hv). by apply check_structure_None in Hall.
    - intros Hall [v cpd] Hv%elem_of_map_to_list.
      apply check_structure_None. by apply Hall. }
  assert (H3 : Gaussian.first_error (check_gaussian bn)
                 (map_to_list (GaussianCPDs bn)) = None ↔
            ∀ v cpd, GaussianCPDs bn !! v = Some cpd →
                     Models.CPDParents cpd ≡ₚ Graph.Parents (DAG bn) v).
  { rewrite Gaussian.first_error_None. split.
    - intros Hall v cpd Hv. apply elem_of_map_to_list in Hv.
      specialize (Hall _ Hv). by apply check_structure_None in Hall.
    - intros Hall [v cpd] Hv%elem_of_map_to_list.
      apply check_structure_None. by apply Hall. }
  rewrite <- H1, <- H2, <- H3.
  destruct (Gaussian.first_error (check_node bn) _);
    [split; [done|by intros [? _]]|].
  destruct (Gaussian.first_error (check_cpd bn) _);
    [split; [done|by intros (_ & ? & _)]|].
  split; [done|by intros (_ & _ & ?)].
Qed.

(** X23.  [CheckModel] returns nil exactly when every node has a discrete
    CPD or a Gaussian CPD but not both, every stored discrete CPD lists
    as evidence a permutation of the parents of its node, and every
    stored Gaussian CPD lists as parents a permutation of them. *)
Theorem CheckModel_passes_iff (bn : BayesianNetwork) :
  CheckModel bn = None ↔
  (∀ n, n ∈ Graph.nodes (DAG bn) →
        (is_Some (CPDs bn !! n) ∧ GaussianCPDs bn !! n = None) ∨
        (CPDs bn !! n = None ∧ is_Some (GaussianCPDs bn !! n))) ∧
  (∀ v cpd, CPDs bn !! v = Some cpd →
            Evidence cpd ≡ₚ Graph.Parents (DAG bn) v) ∧
  (∀ v cpd, GaussianCPDs bn !! v = Some cpd →
            Models.CPDParents cpd ≡ₚ Graph.Parents (DAG bn) v).
Proof. apply CheckModel_None. Qed.

(** What the adders maintain: the stored CPDs fit the graph. *)
Lemma assembled_consistent bn :
  assembled bn →
  (∀ v cpd, CPDs bn !! v = Some cpd →
            Evidence cpd ≡ₚ Graph.Parents (DAG bn) v) ∧
  (∀ v cpd, GaussianCPDs bn !! v = Some cpd →
            Models.CPDParents cpd ≡ₚ Graph.Parents (DAG bn) v).
Proof.
  induction 1 as [edges bn Hnew|bn cpd _ [IH1 IH2] Hok|bn cpd _ [IH1 IH2] Hok].
  - revert Hnew. unfold NewBayesianNetwork.
    destruct (Graph.NewDAGFromEdges edges); [|done..]. intros [= <-]. simpl.
    split; intros v cpd; by rewrite lookup_empty.
  - revert Hok. unfold AddCPD.
    pose proof (structure_test (DAG bn) (Variable_ cpd) (Evidence cpd)) as Htest.
    case_bool_decide; simpl; [|done]. case_decide as Hlen; [done|].
    destruct (same_elements _ _) eqn:Hsame; simpl; [|done]. intros _.
    split; [|done]. intros v c.
    destruct (decide (v = Variable_ cpd)) as [->|Hne].
    + rewrite lookup_insert_eq. intros [= <-]. by apply Htest.
    + rewrite lookup_insert_ne by done. apply IH1.
  - revert Hok. unfold AddGaussianCPD.
    pose proof (structure_test (DAG bn) (Models.Variable_ cpd)
                  (Models.CPDParents cpd)) as Htest.
    case_bool_decide; simpl; [|done]. case_decide as Hlen; [done|].
    destruct (same_elements _ _) eqn:Hsame; simpl; [|done]. intros _.
    split; [done|]. intros v c.
    destruct (decide (v = Models.Variable_ cpd)) as [->|Hne].
    + rewrite lookup_insert_eq. intros [= <-]. by apply Htest.
    + rewrite lookup_insert_ne by done. apply IH2.
Qed.

(** X24.  For a network assembled by [NewBayesianNetwork] and accepted
    [AddCPD] and [AddGaussianCPD] calls, [CheckModel] can only fail on a
    node without a CPD or with a CPD of both kinds: the structural
    checks that the adders made are never contradicted. *)
Theorem CheckModel_of_assembled (bn : BayesianNetwork) :
  assembled bn →
  (CheckModel bn = None ↔
   ∀ n, n ∈ Graph.nodes (DAG bn) →
        (is_Some (CPDs bn !! n) ∧ GaussianCPDs bn !! n = None) ∨
        (CPDs bn !! n = None ∧ is_Some (GaussianCPDs bn !! n))).
Proof.
  intros [H1 H2]%assembled_consistent. rewrite CheckModel_None. tauto.
Qed.

Definition cpd_D : TabularCPD := mkTabularCPD "D" 2 [] ∅ [[0.5; 0.5]]%float.

Definition net_DG : BayesianNetwork :=
  match NewBayesianNetwork [("D", "G")] with
  | Ok bn => (AddCPD cpd_G (AddCPD cpd_D bn).1).1
  | _ => mkBayesianNetwork Graph.NewDAG ∅ ∅ ∅ ∅
  end.

Lemma net_DG_assembled : assembled net_DG.
Proof.
  unfold net_DG.
  destruct (NewBayesianNetwork [("D", "G")]) as [bn| |] eqn:E; [|by vm_compute in E..].
  apply assembled_cpd; [apply assembled_cpd; [by eapply assembled_new|]|];
    vm_compute in E; injection E as <-; vm_compute; reflexivity.
Qed.

Lemma CheckModel_of_assembled_witness :
  CheckModel net_DG = None ↔
  ∀ n, n ∈ Graph.nodes (DAG net_DG) →
       (is_Some (CPDs net_DG !! n) ∧ GaussianCPDs net_DG !! n = None) ∨
       (CPDs net_DG !! n = None ∧ is_Some (GaussianCPDs net_DG !! n)).
Proof. apply (CheckModel_of_assembled net_DG), net_DG_assembled. Defined.

Lemma CheckModel_example :
  CheckModel net_DG = None ∧
  (AddCPD (mkTabularCPD "G" 3 [] ∅ []) net_DG).2 =
    Some "CPD evidence does not match parents for G" ∧
  (AddCPD (mkTabularCPD "Z" 2 [] ∅ []) net_DG).2 =
    Some "variable Z not in network".
Proof. vm_compute. auto. Qed.

(** *** Sampling a state *)

(** [sampleCategorical]: [u] is the draw [r.Float64()]. *)
Fixpoint sample_loop (u cumSum : float) (i : Z) (probs : list float) : option Z :=
  match probs with
  | [] => None
  | p :: rest =>
      let cumSum := (cumSum + p)%float in
      if (u <=? cumSum)%float then Some i
      else sample_loop u cumSum (i + 1) rest
  end.

Definition sampleCategorical (probs : list float) (u : float) : Z :=
  match sample_loop u 0%float 0 probs with
  | Some i => i
  | None => Z.of_nat (length probs) - 1
  end.

Lemma sample_loop_range u probs : ∀ cumSum i k,
  sample_loop u cumSum i probs = Some k → i ≤ k < i + Z.of_nat (length probs).
Proof.
  induction probs as [|p rest IH]; intros cumSum i k; simpl; [done|].
  destruct (u <=? cumSum + p)%float.
  - intros [= <-]. lia.
  - intros Hk%IH. lia.
Qed.

(** X25.  [sampleCategorical] returns an index of the slice, whatever the
    draw and the probabilities (NaN included): at least 0 and below the
    length when the slice is not empty.  On an empty slice it returns
    -1. *)
Theorem sampleCategorical_in_range (probs : list float) (u : float) :
  (probs ≠ [] → 0 ≤ sampleCategorical probs u < Z.of_nat (length probs)) ∧
  (probs = [] → sampleCategorical probs u = -1).
Proof.
  split.
  - intros Hne. unfold sampleCategorical.
    destruct (sample_loop u 0%float 0 probs) as [k|] eqn:E.
    + apply sample_loop_range in E. lia.
    + destruct probs; [done|]. simpl. lia.
  - by intros ->.
Qed.

Lemma sampleCategorical_example :
  sampleCategorical [0.5; 0.25; 0.25]%float 0.625%float = 1 ∧
  sampleCategorical [0.5; 0.25; 0.25]%float nan = 2 ∧
  sampleCategorical [0.5; 0.25]%float 0.875%float = 1.
Proof. vm_compute. auto. Qed.

End Network.

(** ** Package inference: eliminating a variable *)

Module Inference.
Import Factors.

Section elimination.
Context {V : Type} `{!Scalar V}.

(** [contains]: the scan of [factor.Variables] for [variable]. *)
Definition contains (variable : string) (factor : DiscreteFactor V) : bool :=
  bool_decide (variable ∈ Variables factor).

(** The product of the relevant factors; a factor whose multiplication
    returns an error is skipped ([continue]).  [None] is a panic. *)
Fixpoint multiply_all (product : DiscreteFactor V) (rest : list (DiscreteFactor V))
    : option (DiscreteFactor V) :=
  match rest with
  | [] => Some product
  | f :: rest' =>
      match Multiply product f with
      | Ok newProduct => multiply_all newProduct rest'
      | Err _ => multiply_all product rest'
      | Panic => None
      end
  end.

(** [eliminateVariable], the same in packages models and inference. *)
Definition eliminateVariable (variable : string)
    (factorList : list (DiscreteFactor V)) : option (list (DiscreteFactor V)) :=
  let relevant := filter (fun f => contains variable f = true) factorList in
  let irrelevant := filter (fun f => contains variable f ≠ true) factorList in
  match relevant with
  | [] => Some factorList
  | first :: others =>
      match multiply_all first others with
      | None => None
      | Some product =>
          match Marginalize product [variable] with
          | Ok marginalized => Some (irrelevant ++ [marginalized])
          | Err _ => Some irrelevant
          | Panic => None
          end
      end
  end.

Lemma NewDiscreteFactor_Ok_Variables vars card (values : list V) g :
  NewDiscreteFactor vars card values = Ok g → Variables g = vars.
Proof. unfold NewDiscreteFactor. case_decide; [done|]. by intros [= <-]. Qed.

Lemma Marginalize_Ok_Variables (f g : DiscreteFactor V) (variables : list string) :
  Marginalize f variables = Ok g →
  Variables g = filter (fun v => v ∉ variables) (Variables f).
Proof.
  unfold Marginalize.
  set (P := fun v => v ∉ (list_to_set variables : gset string)).
  assert (HP : filter P (Variables f) = filter (fun v => v ∉ variables) (Variables f)).
  { apply filter_ext_elem_of. intros v _. unfold P. by rewrite elem_of_list_to_set. }
  rewrite <- HP.
  destruct (filter P (Variables f)) as [|w l] eqn:E.
  { by intros ->%NewDiscreteFactor_Ok_Variables. }
  destruct (make _); [|done]. destruct (marginalizeHelper _ _ _ _ _); [|done].
  by intros ->%NewDiscreteFactor_Ok_Variables.
Qed.

(** X26.  When [eliminateVariable] returns, no factor of the result
    mentions the eliminated variable; the factors that did not mention
    it come first, unchanged and in order, followed by at most one new
    factor.  When no factor mentions the variable the list is returned
    as it is. *)
Theorem eliminateVariable_removes_variable (variable : string)
    (factorList result : list (DiscreteFactor V)) :
  eliminateVariable variable factorList = Some result →
  (∀ f, f ∈ result → variable ∉ Variables f) ∧
  (∃ new, result = filter (fun f => variable ∉ Variables f) factorList ++ new ∧
          (length new ≤ 1)%nat) ∧
  ((∀ f, f ∈ factorList → variable ∉ Variables f) → result = factorList).
Proof.
  unfold eliminateVariable.
  assert (Hirr : filter (fun f => contains variable f ≠ true) factorList =
                 filter (fun f => variable ∉ Variables f) factorList).
  { apply filter_ext_elem_of. intros f _. unfold contains.
    by rewrite bool_decide_eq_true. }
  assert (Hrel : filter (fun f => contains variable f = true) factorList =
                 filter (fun f => variable ∈ Variables f) factorList).
  { apply filter_ext_elem_of. intros f _. unfold contains.
    by rewrite bool_decide_eq_true. }
  rewrite Hirr, Hrel.
  set (irrelevant := filter (fun f => variable ∉ Variables f) factorList).
  assert (Hclean : ∀ f, f ∈ irrelevant → variable ∉ Variables f).
  { intros f Hf. by apply list_elem_of_filter in Hf as [? _]. }
  destruct (filter (fun f => variable ∈ Variables f) factorList)
    as [|first others] eqn:Hrelevant.
  - intros [= <-].
    assert (Hnone : ∀ f, f ∈ factorList → variable ∉ Variables f).
    { intros f Hf Hin.
      assert (Hfr : f ∈ filter (fun f => variable ∈ Variables f) factorList)
        by (by apply list_elem_of_filter).
      rewrite Hrelevant in Hfr. by apply elem_of_nil in Hfr. }
    assert (Hall : irrelevant = factorList).
    { unfold irrelevant. clear -Hnone.
      induction factorList as [|f l IH]; [done|].
      rewrite filter_cons_True by (apply Hnone; by left).
      f_equal. apply IH. intros g Hg. apply Hnone. by right. }
    split; [done|]. split; [|done].
    exists []. rewrite app_nil_r. split; [by rewrite Hall|simpl; lia].
  - assert (Hsome : ¬ ∀ f, f ∈ factorList → variable ∉ Variables f).
    { intros Hnone.
      assert (Hfr : first ∈ filter (fun f => variable ∈ Variables f) factorList)
        by (rewrite Hrelevant; by left).
      apply list_elem_of_filter in Hfr as [Hin Hf]. by apply (Hnone first). }
    destruct (multiply_all first others) as [product|]; [|done].
    destruct (Marginalize product [variable]) as [m|msg|] eqn:Hm; [| |done].
    + intros [= <-]. split; [|split; [|done]].
      * intros f [Hf| ->%list_elem_of_singleton]%elem_of_app; [by apply Hclean|].
        rewrite (Marginalize_Ok_Variables _ _ _ Hm).
        intros [Hnot _]%list_elem_of_filter. apply Hnot. by left.
      * exists [m]. split; [done|simpl; lia].
    + intros [= <-]. split; [done|]. split; [|done].
      exists []. rewrite app_nil_r. split; [done|simpl; lia].
Qed.

End elimination.

Lemma eliminateVariable_removes_variable_witness :
  (∀ f, f ∈ [mkDiscreteFactor ["B"] {["B" := 3]} [0.5; 0.625; 0.25]%float] →
        "A" ∉ Variables f) ∧
  (∃ new, [mkDiscreteFactor ["B"] {["B" := 3]} [0.5; 0.625; 0.25]%float] =
          filter (fun f => "A" ∉ Variables f) [factor_A; factor_AB] ++ new ∧
          (length new ≤ 1)%nat) ∧
  ((∀ f, f ∈ [factor_A; factor_AB] → "A" ∉ Variables f) →
   [mkDiscreteFactor ["B"] {["B" := 3]} [0.5; 0.625; 0.25]%float] =
   [factor_A; factor_AB]).
Proof.
  apply (eliminateVariable_removes_variable "A" [factor_A; factor_AB]).
  vm_compute. reflexivity.
Defined.

End Inference.


(** ** Package estimators: the conditional chi-square test *)

Module Estimators.

Import Factors.
Local Open Scope float_scope.

(** The functions of Go's [math] package that the test calls and that
    have no primitive counterpart.  [math.Abs] and [math.Sqrt] are
    [abs] and [sqrt]. *)
Record MathLib : Type := mkMathLib {
  math_Pow : float → float → float;
  math_Exp : float → float;
  math_Log : float → float;
  math_Sin : float → float
}.

(** [float64(n)] for an [int] [n]. *)
Definition float_of_int (n : Z) : float :=
  if (n =? - 2 ^ 63)%Z then -9223372036854775808
  else if (n <? 0)%Z then - PrimFloat.of_uint63 (Uint63.of_Z (- n))
  else PrimFloat.of_uint63 (Uint63.of_Z n).

Definition math_Pi : float := 3.141592653589793.

Section gamma.
Variable M : MathLib.

(** [logGamma]: Lanczos approximation, with the reflection formula
    below [0.5].  The argument [1 - x] of the reflected call is at
    least [0.5], so the recursion has depth at most two. *)
Definition lanczos_coef : list float :=
  [0.99999999999980993; 676.5203681218851; -1259.1392167224028;
   771.32342877765313; -176.61502916214059; 12.507343278686905;
   -0.13857109526572012; 9.9843695780195716e-6; 1.5056327351493116e-7].

Definition lanczos (x : float) : float :=
  let x := x - 1 in
  let base := x + 7 + 0.5 in
  let sum :=
    foldl (fun sum ic => sum + ic.2 / (x + float_of_int (Z.of_nat (S ic.1))))
          0.99999999999980993 (imap pair (tail lanczos_coef)) in
  math_Log M sum + math_Log M (sqrt 6.283185307179586) - base +
  (x + 0.5) * math_Log M base.

Fixpoint logGamma_depth (depth : nat) (x : float) : float :=
  match depth with
  | O => lanczos x
  | S depth' =>
      if x <? 0.5 then
        math_Log M math_Pi - math_Log M (math_Sin M (math_Pi * x)) -
        logGamma_depth depth' (1 - x)
      else lanczos x
  end.

Definition logGamma (x : float) : float := logGamma_depth 2 x.

(** The loop of [gammaSeriesExpansion], at most [iters] more rounds. *)
Fixpoint series_loop (iters : nat) (x ap sum del : float) : float :=
  match iters with
  | O => sum
  | S iters' =>
      let ap := ap + 1 in
      let del := del * (x / ap) in
      let sum := sum + del in
      if abs del <? abs sum * 1e-10 then sum
      else series_loop iters' x ap sum del
  end.

Definition gammaSeriesExpansion (a x : float) : float :=
  let sum := series_loop 200 x a (1 / a) (1 / a) in
  sum * math_Exp M (- x + a * math_Log M x - logGamma a).

(** The loop of [gammaContinuedFraction] (modified Lentz), rounds
    [i, i+1, ...], at most [iters] more. *)
Fixpoint lentz_loop (iters : nat) (i : Z) (a b c d h : float) : float :=
  match iters with
  | O => h
  | S iters' =>
      let an := - float_of_int i * (float_of_int i - a) in
      let b := b + 2 in
      let d := an * d + b in
      let d := if abs d <? 1e-30 then 1e-30 else d in
      let c := b + an / c in
      let c := if abs c <? 1e-30 then 1e-30 else c in
      let d := 1 / d in
      let del := d * c in
      let h := h * del in
      if abs (del - 1) <? 1e-10 then h
      else lentz_loop iters' (i + 1) a b c d h
  end.

Definition gammaContinuedFraction (a x : float) : float :=
  let b := x + 1 - a in
  let h := lentz_loop 200 1 a b 1e30 (1 / b) (1 / b) in
  math_Exp M (- x + a * math_Log M x - logGamma a) * h.

Definition regularizedGammaP (a x : float) : float :=
  if (x <? 0) || (a <=? 0) then 0
  else if x =? 0 then 0
  else if x <? a + 1 then gammaSeriesExpansion a x
  else 1 - gammaContinuedFraction a x.

Definition chiSquarePValue (chiSquare df : float) : float :=
  if df <=? 0 then 1
  else if 1000 <? chiSquare then 0
  else if chiSquare <? 0.001 then 1
  else
    let k := df / 2 in
    let x := chiSquare / 2 in
    let pValue := 1 - regularizedGammaP k x in
    let pValue := if 1 <? pValue then 1 else pValue in
    let pValue := if pValue <? 0 then 0 else pValue in
    pValue.

(** *** The contingency table *)

Definition tensor : Type := list (list (list float)).

Definition count_at (counts : tensor) (i j k : nat) : float :=
  default 0 (default [] (default [] (counts !! i) !! j) !! k).
Definition total_at (totalCounts : list float) (k : nat) : float :=
  default 0 (totalCounts !! k).

(** [counts[xVal][yVal][zIdx]++]: any index out of range panics. *)
Definition increment (counts : tensor) (xVal yVal zIdx : Z) : option tensor :=
  if decide (0 ≤ xVal ∧ 0 ≤ yVal ∧ 0 ≤ zIdx)%Z then
    plane ← counts !! Z.to_nat xVal;
    line ← plane !! Z.to_nat yVal;
    c ← line !! Z.to_nat zIdx;
    Some (<[Z.to_nat xVal :=
             <[Z.to_nat yVal := <[Z.to_nat zIdx := c + 1]> line]> plane]> counts)
  else None.

Definition increment_total (totalCounts : list float) (zIdx : Z)
    : option (list float) :=
  if decide (0 ≤ zIdx)%Z then
    t ← totalCounts !! Z.to_nat zIdx;
    Some (<[Z.to_nat zIdx := t + 1]> totalCounts)
  else None.

(** The stride index of the conditioning set in one sample; [None]
    when the sample lacks one of the variables. *)
Definition z_index (z : list string) (sample cardinality : gmap string Z)
    : option Z :=
  if forallb (fun zVar => bool_decide (is_Some (sample !! zVar))) z
  then Some (foldr (fun zVar st =>
                      (iadd st.1 (imul (at_key sample zVar) st.2),
                       imul st.2 (at_key cardinality zVar)))
                   (0%Z, 1%Z) z).1
  else None.

Definition count_sample (x y : string) (z : list string)
    (cardinality : gmap string Z)
    (acc : option (tensor * list float)) (sample : gmap string Z)
    : option (tensor * list float) :=
  match acc with
  | None => None
  | Some (counts, totalCounts) =>
      match sample !! x, sample !! y with
      | Some xVal, Some yVal =>
          match z_index z sample cardinality with
          | None => acc
          | Some zIdx =>
              counts' ← increment counts xVal yVal zIdx;
              totalCounts' ← increment_total totalCounts zIdx;
              Some (counts', totalCounts')
          end
      | _, _ => acc
      end
  end.

(** Allocation and the counting loop; [None] is a panic (a negative
    [make] length or an index out of range). *)
Definition contingency (data : list (gmap string Z)) (x y : string)
    (z : list string) (cardinality : gmap string Z)
    : option (tensor * list float) :=
  let zCard := table_size z cardinality in
  let xCard := at_key cardinality x in
  let yCard := at_key cardinality y in
  if decide (xCard < 0 ∨ (0 < xCard ∧ yCard < 0) ∨ zCard < 0)%Z then None
  else
    let counts :=
      replicate (Z.to_nat xCard)
        (replicate (Z.to_nat yCard) (replicate (Z.to_nat zCard) 0)) in
    let totalCounts := replicate (Z.to_nat zCard) 0 in
    foldl (count_sample x y z cardinality) (Some (counts, totalCounts)) data.

(** *** The statistic *)

Definition stratum_term (xCard yCard : nat) (counts : tensor)
    (totalCounts : list float) (chiSquare : float) (k : nat) : float :=
  if total_at totalCounts k <? 5 then chiSquare
  else
    let xMarginal i :=
      foldl (fun s j => s + count_at counts i j k) 0 (seq 0 yCard) in
    let yMarginal j :=
      foldl (fun s i => s + count_at counts i j k) 0 (seq 0 xCard) in
    foldl (fun chi i =>
             foldl (fun chi j =>
                      let expected :=
                        xMarginal i * yMarginal j / total_at totalCounts k in
                      if 0 <? expected then
                        let observed := count_at counts i j k in
                        chi + math_Pow M (observed - expected) 2 / expected
                      else chi)
                   chi (seq 0 yCard))
          chiSquare (seq 0 xCard).

Definition chi_statistic (xCard yCard zCard : nat) (counts : tensor)
    (totalCounts : list float) : float :=
  foldl (stratum_term xCard yCard counts totalCounts) 0 (seq 0 zCard).

Definition ChiSquareTest (data : list (gmap string Z)) (x y : string)
    (z : list string) (cardinality : gmap string Z) : option (float * float) :=
  match contingency data x y z cardinality with
  | None => None
  | Some (counts, totalCounts) =>
      let zCard := table_size z cardinality in
      let xCard := at_key cardinality x in
      let yCard := at_key cardinality y in
      let chiSquare :=
        chi_statistic (Z.to_nat xCard) (Z.to_nat yCard) (Z.to_nat zCard)
          counts totalCounts in
      let df :=
        float_of_int (imul (imul (wrap64 (xCard - 1)) (wrap64 (yCard - 1))) zCard) in
      Some (chiSquare, chiSquarePValue chiSquare df)
  end.

End gamma.

(** *** Comparisons of binary64 numbers *)

Lemma SFcompare_antisym (f1 f2 : spec_float) (c : comparison) :
  SFcompare f1 f2 = Some c → SFcompare f2 f1 = Some (CompOpp c).
Proof.
  destruct f1 as [s1|s1| |s1 m1 e1], f2 as [s2|s2| |s2 m2 e2]; simpl;
    try discriminate;
    try (destruct s1; intros [= <-]; reflexivity);
    try (destruct s2; intros [= <-]; reflexivity);
    try (destruct s1, s2; intros [= <-]; reflexivity).
  change (Pos.compare_cont Eq m1 m2) with (Pos.compare m1 m2).
  change (Pos.compare_cont Eq m2 m1) with (Pos.compare m2 m1).
  rewrite (Z.compare_antisym e1 e2), (Pos.compare_antisym m1 m2).
  destruct s1, s2; intros [= <-]; try reflexivity;
    destruct (e1 ?= e2)%Z; simpl; try reflexivity;
    by destruct (m1 ?= m2)%positive.
Qed.

Lemma SFcompare_defined (f1 f2 : spec_float) :
  SFeqb f1 f1 = true → SFeqb f2 f2 = true → is_Some (SFcompare f1 f2).
Proof.
  unfold SFeqb. destruct f1, f2; simpl; try discriminate; intros _ _; by eexists.
Qed.

(** Between two numbers (not NaN), "not less than" is "at least". *)
Lemma ltb_false_leb (x y : float) :
  (x =? x) = true → (y =? y) = true → (x <? y) = false → (y <=? x) = true.
Proof.
  rewrite !FloatAxioms.eqb_spec, FloatAxioms.ltb_spec, FloatAxioms.leb_spec.
  intros Hx Hy.
  destruct (SFcompare_defined _ _ Hx Hy) as [c Hc].
  unfold SFltb, SFleb. rewrite Hc, (SFcompare_antisym _ _ _ Hc).
  by destruct c.
Qed.

Section chi_square_facts.
Variable M : MathLib.

Lemma chiSquarePValue_range (chiSquare df : float) :
  let p := chiSquarePValue M chiSquare df in
  (p <? 0) = false ∧ (1 <? p) = false ∧
  ((p =? p) = true → (0 <=? p) = true ∧ (p <=? 1) = true).
Proof.
  unfold chiSquarePValue.
  destruct (df <=? 0); [by vm_compute|].
  destruct (1000 <? chiSquare); [by vm_compute|].
  destruct (chiSquare <? 0.001); [by vm_compute|].
  set (p0 := 1 - regularizedGammaP M (df / 2) (chiSquare / 2)).
  destruct (1 <? p0) eqn:E1; [by vm_compute|].
  destruct (p0 <? 0) eqn:E2; [by vm_compute|].
  simpl. split; [done|]. split; [done|]. intros Hnum. split.
  - by apply ltb_false_leb.
  - by apply ltb_false_leb.
Qed.

Lemma chiSquarePValue_zero (df : float) : chiSquarePValue M 0 df = 1.
Proof. unfold chiSquarePValue. by destruct (df <=? 0). Qed.

(** A stratum is sparse when its total count is below five. *)
Definition sparse (totalCounts : list float) (k : nat) : Prop :=
  (total_at totalCounts k <? 5) = true.

(** Two tables have the same stratum [k]. *)
Definition same_stratum (counts counts' : tensor) (totalCounts totalCounts' : list float)
    (k : nat) : Prop :=
  total_at totalCounts k = total_at totalCounts' k ∧
  ∀ i j, count_at counts i j k = count_at counts' i j k.

Lemma stratum_term_sparse xCard yCard counts totalCounts chiSquare k :
  sparse totalCounts k →
  stratum_term M xCard yCard counts totalCounts chiSquare k = chiSquare.
Proof. unfold sparse, stratum_term. by intros ->. Qed.

Lemma stratum_term_same xCard yCard counts counts' totalCounts totalCounts'
    chiSquare k :
  same_stratum counts counts' totalCounts totalCounts' k →
  stratum_term M xCard yCard counts totalCounts chiSquare k =
  stratum_term M xCard yCard counts' totalCounts' chiSquare k.
Proof.
  intros [Ht Hc]. unfold stratum_term. rewrite Ht.
  destruct (total_at totalCounts' k <? 5); [done|].
  apply foldl_ext_elem. intros chi i _.
  apply foldl_ext_elem. intros chi' j _.
  rewrite Hc.
  rewrite (foldl_ext_elem _ (fun s j0 => s + count_at counts' i j0 k))
    by (intros; by rewrite Hc).
  rewrite (foldl_ext_elem (fun s i0 => s + count_at counts i0 j k)
             (fun s i0 => s + count_at counts' i0 j k))
    by (intros; by rewrite Hc).
  done.
Qed.

Lemma chi_statistic_agree xCard yCard zCard counts counts' totalCounts totalCounts' :
  (∀ k, (k < zCard)%nat →
     (sparse totalCounts k ∧ sparse totalCounts' k) ∨
     same_stratum counts counts' totalCounts totalCounts' k) →
  chi_statistic M xCard yCard zCard counts totalCounts =
  chi_statistic M xCard yCard zCard counts' totalCounts'.
Proof.
  intros Hk. unfold chi_statistic. apply foldl_ext_elem.
  intros chi k Hin%elem_of_seq.
  destruct (Hk k ltac:(lia)) as [[Hs Hs']|Hsame].
  - by rewrite !stratum_term_sparse.
  - by apply stratum_term_same.
Qed.

Lemma chi_statistic_all_sparse xCard yCard zCard counts totalCounts :
  (∀ k, (k < zCard)%nat → sparse totalCounts k) →
  chi_statistic M xCard yCard zCard counts totalCounts = 0.
Proof.
  intros Hk. unfold chi_statistic.
  assert (H : ∀ l chi, (∀ k, k ∈ l → (k < zCard)%nat) →
            foldl (stratum_term M xCard yCard counts totalCounts) chi l = chi).
  { induction l as [|k l IH]; intros chi Hl; simpl; [done|].
    rewrite stratum_term_sparse by (apply Hk, Hl; by left).
    apply IH. intros k' Hk'. apply Hl. by right. }
  apply H. intros k Hin%elem_of_seq. lia.
Qed.


End chi_square_facts.

(** An instance of the interface for running examples: [math.Pow(x, 2)]
    is [x * x]; the other three functions are reached only past the
    early returns of [chiSquarePValue], which the example below does
    not pass. *)
Definition example_math : MathLib :=
  {| math_Pow := fun x _ => x * x;
     math_Exp := fun x => x;
     math_Log := fun x => x;
     math_Sin := fun x => x |}.

Definition example_cardinality : gmap string Z :=
  {["A" := 2%Z; "B" := 2%Z; "C" := 2%Z]}.

Definition abc (a b c : Z) : gmap string Z := {["A" := a; "B" := b; "C" := c]}.

(** Eight samples in the stratum [C = 0]. *)
Definition dense_stratum : list (gmap string Z) :=
  [abc 0 0 0; abc 0 0 0; abc 0 1 0; abc 0 1 0;
   abc 1 0 0; abc 1 0 0; abc 1 1 0; abc 1 1 0].

Definition example_data : list (gmap string Z) :=
  dense_stratum ++ [abc 0 0 1].
Definition example_data' : list (gmap string Z) :=
  dense_stratum ++ [abc 1 1 1; abc 1 0 1].

Definition example_table : tensor * list float :=
  ([[[2; 1]; [2; 0]]; [[2; 0]; [2; 0]]], [8; 1]).
Definition example_table' : tensor * list float :=
  ([[[2; 0]; [2; 0]]; [[2; 1]; [2; 1]]], [8; 2]).

Lemma example_table_ok :
  contingency example_data "A" "B" ["C"] example_cardinality =
  Some (example_table.1, example_table.2).
Proof. vm_compute. reflexivity. Qed.

Lemma example_table_ok' :
  contingency example_data' "A" "B" ["C"] example_cardinality =
  Some (example_table'.1, example_table'.2).
Proof. vm_compute. reflexivity. Qed.


Example ChiSquareTest_example :
  ChiSquareTest example_math example_data "A" "B" ["C"] example_cardinality =
  Some (0, 1).
Proof. vm_compute. reflexivity. Qed.

(** *** Conditioning sets of the PC algorithm *)

Local Open Scope Z_scope.

(** [combinations]: the recursion of the source on [elements[1:]]. *)
Fixpoint combinations (elements : list string) (k : Z) : list (list string) :=
  if decide (k = 0) then [[]]
  else
    match elements with
    | [] => []
    | x :: rest =>
        if decide (Z.of_nat (length elements) < k) then []
        else ((fun combo => x :: combo) <$> combinations rest (k - 1)) ++
             combinations rest k
    end.

Lemma combinations_unfold (elements : list string) (k : Z) :
  combinations elements k =
  if decide (k = 0) then [[]]
  else
    match elements with
    | [] => []
    | x :: rest =>
        if decide (Z.of_nat (length elements) < k) then []
        else ((fun combo => x :: combo) <$> combinations rest (k - 1)) ++
             combinations rest k
    end.
Proof. by destruct elements. Qed.

Lemma combinations_negative (elements : list string) : ∀ k,
  k < 0 → combinations elements k = [].
Proof.
  induction elements as [|x rest IH]; intros k Hk; rewrite combinations_unfold;
    rewrite decide_False by lia; [done|].
  rewrite decide_False by lia. by rewrite !IH by lia.
Qed.

Lemma elem_of_combinations (elements : list string) : ∀ k combo,
  0 ≤ k →
  combo ∈ combinations elements k ↔
  combo `sublist_of` elements ∧ Z.of_nat (length combo) = k.
Proof.
  induction elements as [|x rest IH]; intros k combo Hk;
    rewrite combinations_unfold; case_decide as Hk0.
  - subst k. rewrite list_elem_of_singleton, sublist_nil_r. split.
    + by intros ->.
    + by intros [-> _].
  - rewrite sublist_nil_r. split; [by intros ?%elem_of_nil|].
    intros [-> Hlen]. simpl in Hlen. lia.
  - subst k. rewrite list_elem_of_singleton. split.
    + intros ->. split; [apply sublist_nil_l|done].
    + intros [_ Hlen]. destruct combo; [done|]. simpl in Hlen. lia.
  - case_decide as Hlen.
    + split; [by intros ?%elem_of_nil|]. intros [Hsub <-].
      apply sublist_length in Hsub. lia.
    + rewrite elem_of_app, list_elem_of_fmap, sublist_cons_r.
      rewrite (IH k combo Hk). split.
      * intros [(c' & -> & Hc')|[Hsub Hl]].
        -- apply IH in Hc' as [Hsub Hl]; [|lia]. split.
           ++ right. by exists c'.
           ++ simpl. lia.
        -- split; [by left|done].
      * intros [[Hsub|(c' & -> & Hsub)] Hl].
        -- by right.
        -- left. exists c'. split; [done|]. apply IH; [lia|].
           split; [done|]. simpl in Hl. lia.
Qed.

Lemma NoDup_combinations (elements : list string) : ∀ k,
  NoDup elements → NoDup (combinations elements k).
Proof.
  induction elements as [|x rest IH]; intros k Hnd; rewrite combinations_unfold;
    case_decide as Hk0; try apply NoDup_singleton; [constructor|].
  case_decide as Hlen; [constructor|].
  apply NoDup_cons in Hnd as [Hx Hnd].
  apply NoDup_app. split; [|split].
  - apply NoDup_fmap; [|by apply IH]. by intros c1 c2 [= ->].
  - intros combo (c' & -> & _)%list_elem_of_fmap Hin.
    destruct (decide (0 ≤ k)) as [Hk|Hk].
    + apply elem_of_combinations in Hin as [Hsub _]; [|done].
      apply Hx. eapply elem_of_sublist; [|exact Hsub]. by left.
    + rewrite combinations_negative in Hin by lia. by apply elem_of_nil in Hin.
  - by apply IH.
Qed.

(** X27.  [combinations(elements, k)] lists exactly the subsequences of
    [elements] of length [k], each keeping the order of [elements]; it
    lists each once when [elements] has no repetition, and nothing for
    a negative [k] or a [k] above the length. *)
Theorem combinations_are_the_sublists (elements : list string) (k : Z) :
  (0 ≤ k → ∀ combo, combo ∈ combinations elements k ↔
                    combo `sublist_of` elements ∧ Z.of_nat (length combo) = k) ∧
  (NoDup elements → NoDup (combinations elements k)) ∧
  (k < 0 ∨ Z.of_nat (length elements) < k → combinations elements k = []).
Proof.
  split; [|split].
  - intros Hk combo. by apply elem_of_combinations.
  - apply NoDup_combinations.
  - intros [Hk|Hk]; [by apply combinations_negative|].
    destruct (combinations elements k) as [|combo l] eqn:E; [done|].
    assert (Hin : combo ∈ combinations elements k) by (rewrite E; by left).
    apply elem_of_combinations in Hin as [Hsub Hlen]; [|lia].
    apply sublist_length in Hsub. lia.
Qed.

Lemma combinations_are_the_sublists_witness :
  (0 ≤ 2 → ∀ combo, combo ∈ combinations ["A"; "B"; "C"] 2 ↔
                    combo `sublist_of` ["A"; "B"; "C"] ∧
                    Z.of_nat (length combo) = 2) ∧
  (NoDup ["A"; "B"; "C"] → NoDup (combinations ["A"; "B"; "C"] 2)) ∧
  (2 < 0 ∨ Z.of_nat (length ["A"; "B"; "C"]) < 2 →
   combinations ["A"; "B"; "C"] 2 = []).
Proof. apply (combinations_are_the_sublists ["A"; "B"; "C"] 2). Defined.

Lemma combinations_example :
  combinations ["A"; "B"; "C"] 2 = [["A"; "B"]; ["A"; "C"]; ["B"; "C"]] ∧
  combinations ["A"; "B"; "C"] 0 = [[]] ∧
  combinations ["A"; "B"; "C"] 4 = [] ∧
  combinations ["A"; "B"; "C"] (-1) = [].
Proof. vm_compute. auto. Qed.

(** *** Correlation tests *)

(** [PearsonCorrelation]: two passes over the paired slices. *)
Definition PearsonCorrelation (x y : list float) : float :=
  if decide (length x ≠ length y ∨ length x = 0%nat) then 0%float
  else
    let n := float_of_int (Z.of_nat (length x)) in
    let sums := foldl (fun acc xy => ((acc.1 + xy.1)%float, (acc.2 + xy.2)%float))
                      (0%float, 0%float) (zip x y) in
    let meanX := (sums.1 / n)%float in
    let meanY := (sums.2 / n)%float in
    let acc := foldl (fun acc xy =>
                        let dx := (xy.1 - meanX)%float in
                        let dy := (xy.2 - meanY)%float in
                        ((acc.1.1 + dx * dy)%float,
                         (acc.1.2 + dx * dx)%float,
                         (acc.2 + dy * dy)%float))
                     (0%float, 0%float, 0%float) (zip x y) in
    let numerator := acc.1.1 in
    let denomX := acc.1.2 in
    let denomY := acc.2 in
    if (denomX =? 0)%float || (denomY =? 0)%float then 0%float
    else (numerator / sqrt (denomX * denomY))%float.

(** [data[i][idx]] for every row [i]; [None] when some row is too
    short (the source panics). *)
Definition column (data : list (list float)) (idx : Z) : option (list float) :=
  mapM (fun row => if decide (0 ≤ idx) then row !! Z.to_nat idx else None) data.

(** [math.IsNaN] and [math.IsInf(_, 0)]. *)
Definition IsNaN (f : float) : bool := negb (f =? f)%float.
Definition IsInf (f : float) : bool :=
  (f =? infinity)%float || (f =? neg_infinity)%float.

(** The first-order formula. *)
Definition first_order (rXY rXZ rYZ : float) : float :=
  let numerator := (rXY - rXZ * rYZ)%float in
  let denominator := sqrt ((1 - rXZ * rXZ) * (1 - rYZ * rYZ))%float in
  if (denominator =? 0)%float then 0%float
  else (numerator / denominator)%float.

(** The recursive formula with its guards and the final clamp. *)
Definition higher_order (rXY rXL rYL : float) : float :=
  let numerator := (rXY - rXL * rYL)%float in
  let denominator := sqrt ((1 - rXL * rXL) * (1 - rYL * rYL))%float in
  if (denominator =? 0)%float || IsNaN denominator then 0%float
  else
    let result := (numerator / denominator)%float in
    if IsNaN result || IsInf result then 0%float
    else
      let result := if (1 <? result)%float then 1%float else result in
      if (result <? -1)%float then (-1)%float else result.

(** [PartialCorrelation] recurses on [zIdxs[:len(zIdxs)-1]]: the model
    recurses on the reversed list of conditioning indices. *)
Fixpoint partial_correlation_rev (data : list (list float)) (rzs : list Z)
    (xIdx yIdx : Z) : option float :=
  match rzs with
  | [] =>
      xVals ← column data xIdx;
      yVals ← column data yIdx;
      Some (PearsonCorrelation xVals yVals)
  | lastZ :: restZ =>
      match restZ with
      | [] =>
          xVals ← column data xIdx;
          yVals ← column data yIdx;
          zVals ← column data lastZ;
          Some (first_order (PearsonCorrelation xVals yVals)
                            (PearsonCorrelation xVals zVals)
                            (PearsonCorrelation yVals zVals))
      | _ :: _ =>
          rXY ← partial_correlation_rev data restZ xIdx yIdx;
          rXL ← partial_correlation_rev data restZ xIdx lastZ;
          rYL ← partial_correlation_rev data restZ yIdx lastZ;
          Some (higher_order rXY rXL rYL)
      end
  end.

Definition PartialCorrelation (data : list (list float)) (xIdx yIdx : Z)
    (zIdxs : list Z) : option float :=
  partial_correlation_rev data (reverse zIdxs) xIdx yIdx.

Lemma partial_correlation_rev_step data lastZ z restZ xIdx yIdx :
  partial_correlation_rev data (lastZ :: z :: restZ) xIdx yIdx =
  rXY ← partial_correlation_rev data (z :: restZ) xIdx yIdx;
  rXL ← partial_correlation_rev data (z :: restZ) xIdx lastZ;
  rYL ← partial_correlation_rev data (z :: restZ) yIdx lastZ;
  Some (higher_order rXY rXL rYL).
Proof. reflexivity. Qed.

Lemma higher_order_range (rXY rXL rYL : float) :
  (-1 <=? higher_order rXY rXL rYL)%float = true ∧
  (higher_order rXY rXL rYL <=? 1)%float = true.
Proof.
  unfold higher_order.
  set (d := sqrt ((1 - rXL * rXL) * (1 - rYL * rYL))%float).
  set (r := ((rXY - rXL * rYL) / d)%float).
  destruct ((d =? 0)%float || IsNaN d); [by vm_compute|].
  destruct (IsNaN r) eqn:Hnan; [by vm_compute|]. simpl.
  destruct (IsInf r); [by vm_compute|].
  assert (Hr : (r =? r)%float = true).
  { unfold IsNaN in Hnan. by destruct (r =? r)%float. }
  destruct (1 <? r)%float eqn:E1.
  - replace (1 <? -1)%float with false by (by vm_compute). by vm_compute.
  - assert (Hle1 : (r <=? 1)%float = true).
    { apply ltb_false_leb; [by vm_compute|done|done]. }
    destruct (r <? -1)%float eqn:E2; [by vm_compute|].
    split; [|done]. apply ltb_false_leb; [done|by vm_compute|done].
Qed.

Lemma column_total (data : list (list float)) (idx : Z) :
  (∀ row, row ∈ data → 0 ≤ idx < Z.of_nat (length row)) →
  is_Some (column data idx).
Proof.
  intros Hrows. unfold column. apply mapM_is_Some, Forall_forall.
  intros row Hrow. specialize (Hrows row Hrow). unfold compose.
  rewrite decide_True by lia. apply lookup_lt_is_Some. lia.
Qed.

Lemma partial_correlation_rev_total (data : list (list float)) (rzs : list Z) :
  ∀ xIdx yIdx,
    (∀ row i, row ∈ data → i ∈ xIdx :: yIdx :: rzs →
              0 ≤ i < Z.of_nat (length row)) →
    is_Some (partial_correlation_rev data rzs xIdx yIdx).
Proof.
  induction rzs as [|lastZ restZ IH]; intros xIdx yIdx Hrows.
  - cbn [partial_correlation_rev].
    destruct (column_total data xIdx) as [xs ->];
      [intros row Hrow; apply Hrows; [done|by left]|].
    destruct (column_total data yIdx) as [ys ->];
      [intros row Hrow; apply Hrows; [done|right; by left]|].
    by eexists.
  - destruct restZ as [|z restZ'];
      [cbn [partial_correlation_rev]|rewrite partial_correlation_rev_step].
    + destruct (column_total data xIdx) as [xs ->];
        [intros row Hrow; apply Hrows; [done|by left]|].
      destruct (column_total data yIdx) as [ys ->];
        [intros row Hrow; apply Hrows; [done|right; by left]|].
      destruct (column_total data lastZ) as [zs ->];
        [intros row Hrow; apply Hrows; [done|right; right; by left]|].
      by eexists.
    + destruct (IH xIdx yIdx) as [rXY ->].
      { intros row i Hrow Hi. apply Hrows; [done|].
        clear -Hi. set_solver. }
      destruct (IH xIdx lastZ) as [rXL ->].
      { intros row i Hrow Hi. apply Hrows; [done|].
        clear -Hi. set_solver. }
      destruct (IH yIdx lastZ) as [rYL ->].
      { intros row i Hrow Hi. apply Hrows; [done|].
        clear -Hi. set_solver. }
      by eexists.
Qed.

(** X28.  With two or more conditioning variables [PartialCorrelation]
    returns a number between -1 and 1, never NaN or an infinity,
    whatever the data; it returns (does not panic) when every row holds
    every requested column. *)
Theorem PartialCorrelation_clamped (data : list (list float)) (xIdx yIdx : Z)
    (zIdxs : list Z) :
  (2 ≤ length zIdxs)%nat →
  (∀ r, PartialCorrelation data xIdx yIdx zIdxs = Some r →
        (-1 <=? r)%float = true ∧ (r <=? 1)%float = true) ∧
  ((∀ row i, row ∈ data → i ∈ xIdx :: yIdx :: zIdxs →
             0 ≤ i < Z.of_nat (length row)) →
   is_Some (PartialCorrelation data xIdx yIdx zIdxs)).
Proof.
  intros Hlen. unfold PartialCorrelation. split.
  - intros r. rewrite <- length_reverse in Hlen.
    destruct (reverse zIdxs) as [|lastZ [|z restZ]]; simpl in Hlen; [lia..|].
    rewrite partial_correlation_rev_step.
    destruct (partial_correlation_rev data (z :: restZ) xIdx yIdx); [|done].
    destruct (partial_correlation_rev data (z :: restZ) xIdx lastZ); [|done].
    destruct (partial_correlation_rev data (z :: restZ) yIdx lastZ); [|done].
    simpl. intros [= <-]. apply higher_order_range.
  - intros Hrows. apply partial_correlation_rev_total.
    intros row i Hrow Hi. apply Hrows; [done|].
    apply elem_of_cons in Hi as [->|Hi]; [by left|].
    apply elem_of_cons in Hi as [->|Hi]; [right; by left|].
    right; right. by rewrite elem_of_reverse in Hi.
Qed.

Definition correlated_rows : list (list float) :=
  [[1; 2; 3; 5]; [2; 1; 4; 3]; [3; 5; 1; 2]; [4; 3; 2; 1]]%float.

Lemma PartialCorrelation_clamped_witness :
  (∀ r, PartialCorrelation correlated_rows 0 1 [2; 3] = Some r →
        (-1 <=? r)%float = true ∧ (r <=? 1)%float = true) ∧
  ((∀ row i, row ∈ correlated_rows → i ∈ [0; 1; 2; 3] →
             0 ≤ i < Z.of_nat (length row)) →
   is_Some (PartialCorrelation correlated_rows 0 1 [2; 3])).
Proof.
  apply (PartialCorrelation_clamped correlated_rows 0 1 [2; 3]). simpl. lia.
Defined.

Lemma PartialCorrelation_example :
  is_Some (PartialCorrelation correlated_rows 0 1 [2; 3]) ∧
  PartialCorrelation correlated_rows 0 1 [2; 7] = None.
Proof. split; [vm_compute; by eexists|vm_compute; reflexivity]. Qed.

(** *** The estimator's view of the data ([NewPC])

    [NewPC] reads the variables and their numbers of states off the
    data: a variable's cardinality is one more than the largest value
    seen for it.  The inner loop ranges over a Go map, in no fixed
    order; [scan_in] takes the order in which each sample is read. *)

Record PCEstimator : Type := mkPCEstimator {
  Data : list (gmap string Z);
  Variables : list string;
  Cardinality : gmap string Z;
  Alpha : float
}.

(** The body of the inner loop, on [(varSet, cardinality)]. *)
Definition observe (st : gset string * gmap string Z) (kv : string * Z)
    : gset string * gmap string Z :=
  ({[kv.1]} ∪ st.1,
   if decide (at_key st.2 kv.1 < iadd kv.2 1)
   then <[kv.1 := iadd kv.2 1]> st.2
   else st.2).

Definition scan_in (orders : list (list (string * Z)))
    : gset string * gmap string Z :=
  foldl (foldl observe) (∅, ∅) orders.

Definition NewPC_in (orders : list (list (string * Z)))
    (data : list (gmap string Z)) : PCEstimator :=
  let st := scan_in orders in
  {| Data := data;
     Variables := sort_strings (elements st.1);
     Cardinality := st.2;
     Alpha := 0.05 |}.

Definition NewPC (data : list (gmap string Z)) : PCEstimator :=
  NewPC_in (map_to_list <$> data) data.

(** [orders] reads every sample of [data] once, entry by entry. *)
Definition reads (orders : list (list (string * Z)))
    (data : list (gmap string Z)) : Prop :=
  Forall2 (fun o sample => o ≡ₚ map_to_list sample) orders data.

(** Values for which [value + 1] does not wrap around. *)
Definition small_values (data : list (gmap string Z)) : Prop :=
  ∀ sample v val, sample ∈ data → sample !! v = Some val →
    0 ≤ val < 2 ^ 63 - 1.

Lemma observe_spec st k v :
  0 ≤ v < 2 ^ 63 - 1 →
  (observe st (k, v)).1 = {[k]} ∪ st.1 ∧
  (∀ k', at_key st.2 k' ≤ at_key (observe st (k, v)).2 k') ∧
  v + 1 ≤ at_key (observe st (k, v)).2 k ∧
  (∀ k', (observe st (k, v)).2 !! k' = st.2 !! k' ∨
         (k' = k ∧ (observe st (k, v)).2 !! k' = Some (v + 1))).
Proof.
  intros Hv. unfold observe, iadd. simpl. rewrite wrap64_small by lia.
  split; [done|]. case_decide as Hlt.
  - split; [|split].
    + intros k'. unfold at_key at 2. destruct (decide (k' = k)) as [->|Hne].
      * rewrite lookup_insert_eq. simpl. lia.
      * rewrite lookup_insert_ne by done. done.
    + unfold at_key. rewrite lookup_insert_eq. simpl. lia.
    + intros k'. destruct (decide (k' = k)) as [->|Hne].
      * right. by rewrite lookup_insert_eq.
      * left. by rewrite lookup_insert_ne.
  - split; [|split]; [intros; lia|lia|by left].
Qed.

Lemma foldl_observe l : ∀ st0,
  (∀ k v, (k, v) ∈ l → 0 ≤ v < 2 ^ 63 - 1) →
  (foldl observe st0 l).1 = list_to_set l.*1 ∪ st0.1 ∧
  (∀ k, at_key st0.2 k ≤ at_key (foldl observe st0 l).2 k) ∧
  (∀ k v, (k, v) ∈ l → v < at_key (foldl observe st0 l).2 k) ∧
  (∀ k, (foldl observe st0 l).2 !! k = st0.2 !! k ∨
        ∃ v, (k, v) ∈ l ∧ (foldl observe st0 l).2 !! k = Some (v + 1)).
Proof.
  induction l as [|[k0 v0] l IH]; intros st0 Hl.
  { simpl. split; [set_solver|]. split; [done|]. split; [|by left].
    intros k v Hin. by apply elem_of_nil in Hin. }
  assert (Hv0 : 0 ≤ v0 < 2 ^ 63 - 1) by (apply (Hl k0); by left).
  destruct (observe_spec st0 k0 v0 Hv0) as (O1 & O2 & O3 & O4).
  destruct (IH (observe st0 (k0, v0))) as (I1 & I2 & I3 & I4).
  { intros k v Hin. apply (Hl k). by right. }
  cbn [foldl]. split; [|split; [|split]].
  - rewrite I1, O1. set_solver.
  - intros k. specialize (O2 k). specialize (I2 k). lia.
  - intros k v [Heq|Hin]%elem_of_cons.
    + assert (k = k0 ∧ v = v0) as [-> ->] by (by simplify_eq).
      specialize (I2 k0). lia.
    + by apply I3.
  - intros k. destruct (I4 k) as [Hsame|(v & Hin & Hv)].
    + destruct (O4 k) as [Hsame'|[-> Hv]].
      * left. by rewrite Hsame.
      * right. exists v0. split; [by left|]. by rewrite Hsame.
    + right. exists v. split; [by right|done].
Qed.

Lemma foldl_foldl_concat {A B} (f : A → B → A) (ls : list (list B)) : ∀ a,
  foldl (foldl f) a ls = foldl f a (concat ls).
Proof.
  induction ls as [|l ls IH]; intros a; simpl; [done|].
  by rewrite foldl_app, IH.
Qed.

Lemma reads_entries orders data k v :
  reads orders data →
  (k, v) ∈ concat orders ↔ ∃ sample, sample ∈ data ∧ sample !! k = Some v.
Proof.
  induction 1 as [|o sample orders data Ho _ IH]; simpl.
  { split; [by intros ?%elem_of_nil|]. by intros (s & ?%elem_of_nil & _). }
  rewrite elem_of_app, IH, Ho, elem_of_map_to_list. split.
  - intros [Hs|(s & Hin & Hs)].
    + exists sample. split; [by left|done].
    + exists s. split; [by right|done].
  - intros (s & [->|Hin]%elem_of_cons & Hs); [by left|].
    right. by exists s.
Qed.

Lemma reads_canonical data : reads (map_to_list <$> data) data.
Proof. induction data; constructor; done. Qed.

(** What [NewPC] has recorded once the loops are over. *)
Lemma scan_in_spec orders data :
  reads orders data → small_values data →
  (∀ v, v ∈ (scan_in orders).1 ↔
        ∃ sample, sample ∈ data ∧ is_Some (sample !! v)) ∧
  (∀ sample v val, sample ∈ data → sample !! v = Some val →
     0 ≤ val < at_key (scan_in orders).2 v) ∧
  (∀ v, (scan_in orders).2 !! v = None ∨
        ∃ sample val, sample ∈ data ∧ sample !! v = Some val ∧
                      (scan_in orders).2 !! v = Some (val + 1)).
Proof.
  intros Hr Hsmall. unfold scan_in. rewrite foldl_foldl_concat.
  destruct (foldl_observe (concat orders) (∅, ∅)) as (F1 & _ & F3 & F4).
  { intros k v (s & Hin & Hs)%(reads_entries _ data); [|done].
    by apply (Hsmall s k). }
  split; [|split].
  - intros v. rewrite F1. simpl. rewrite elem_of_union, elem_of_list_to_set,
      list_elem_of_fmap. split.
    + intros [([k val] & -> & Hin)|Hin]; [|set_solver].
      apply (reads_entries _ data) in Hin as (s & Hin & Hs); [|done].
      exists s. split; [done|]. by eexists.
    + intros (s & Hin & [val Hs]). left. exists (v, val). split; [done|].
      apply (reads_entries _ data); [done|]. by exists s.
  - intros s v val Hin Hs. split; [by apply (Hsmall s v)|].
    apply F3. apply (reads_entries _ data); [done|]. by exists s.
  - intros v. destruct (F4 v) as [Hsame|(val & Hin & Hv)].
    + left. by rewrite Hsame.
    + right. apply (reads_entries _ data) in Hin as (s & Hin & Hs); [|done].
      by exists s, val.
Qed.

(** X29.  [NewPC] summarises the data.  When every value lies in
    [[0, 2^63 - 1)], in whatever order the samples' entries are read:
    - [Variables] lists, sorted and without repetition, exactly the
      variables that occur in some sample;
    - every value seen for a variable is a valid state, below the
      variable's cardinality;
    - the cardinality of a listed variable is one more than a value
      some sample gives it (the largest, by the previous point), and a
      variable that occurs nowhere has no cardinality. *)
Theorem NewPC_cardinality_covers_data (orders : list (list (string * Z)))
    (data : list (gmap string Z)) :
  reads orders data → small_values data →
  let pc := NewPC_in orders data in
  Data pc = data ∧
  (∀ v, v ∈ Variables pc ↔ ∃ sample, sample ∈ data ∧ is_Some (sample !! v)) ∧
  StronglySorted String.le (Variables pc) ∧ NoDup (Variables pc) ∧
  (∀ sample v val, sample ∈ data → sample !! v = Some val →
     0 ≤ val < at_key (Cardinality pc) v) ∧
  (∀ v, v ∈ Variables pc →
     ∃ sample, sample ∈ data ∧
               sample !! v = Some (at_key (Cardinality pc) v - 1)) ∧
  (∀ v, v ∉ Variables pc → Cardinality pc !! v = None).
Proof.
  intros Hr Hsmall. destruct (scan_in_spec orders data Hr Hsmall) as (S1 & S2 & S3).
  assert (Hvars : ∀ v, v ∈ sort_strings (elements (scan_in orders).1) ↔
                       ∃ sample, sample ∈ data ∧ is_Some (sample !! v)).
  { intros v. unfold sort_strings. rewrite merge_sort_Permutation, elem_of_elements.
    apply S1. }
  simpl. split; [done|]. split; [done|]. split; [|split; [|split; [done|split]]].
  - apply StronglySorted_merge_sort; apply _.
  - unfold sort_strings. rewrite merge_sort_Permutation. apply NoDup_elements.
  - intros v (s & Hin & [val Hs])%Hvars.
    destruct (S3 v) as [Hnone|(s' & val' & Hin' & Hs' & Hc)].
    + pose proof (S2 s v val Hin Hs) as Hlt. unfold at_key in Hlt.
      rewrite Hnone in Hlt. simpl in Hlt. lia.
    + exists s'. split; [done|]. unfold at_key. rewrite Hc, Hs'. simpl.
      f_equal. lia.
  - intros v Hv. destruct (S3 v) as [Hnone|(s & val & Hin & Hs & _)]; [done|].
    destruct Hv. apply Hvars. exists s. split; [done|]. by eexists.
Qed.

Definition survey : list (gmap string Z) :=
  [ {["A" := 1; "B" := 0; "C" := 2]}; {["A" := 0; "B" := 1]};
    {["A" := 1; "B" := 1; "C" := 0]} ].

Lemma survey_small : small_values survey.
Proof.
  intros s v val Hin Hs. apply elem_of_map_to_list in Hs.
  unfold survey in Hin.
  repeat (apply elem_of_cons in Hin as [->|Hin]);
    [| | |by apply elem_of_nil in Hin];
    vm_compute in Hs;
    repeat (apply elem_of_cons in Hs as [Hs|Hs]; [simplify_eq; lia|]);
    by apply elem_of_nil in Hs.
Qed.

Lemma NewPC_cardinality_covers_data_witness :
  let pc := NewPC survey in
  Data pc = survey ∧
  (∀ v, v ∈ Variables pc ↔ ∃ sample, sample ∈ survey ∧ is_Some (sample !! v)) ∧
  StronglySorted String.le (Variables pc) ∧ NoDup (Variables pc) ∧
  (∀ sample v val, sample ∈ survey → sample !! v = Some val →
     0 ≤ val < at_key (Cardinality pc) v) ∧
  (∀ v, v ∈ Variables pc →
     ∃ sample, sample ∈ survey ∧
               sample !! v = Some (at_key (Cardinality pc) v - 1)) ∧
  (∀ v, v ∉ Variables pc → Cardinality pc !! v = None).
Proof.
  apply (NewPC_cardinality_covers_data (map_to_list <$> survey) survey).
  - apply reads_canonical.
  - apply survey_small.
Defined.

Lemma NewPC_example :
  Variables (NewPC survey) = ["A"; "B"; "C"] ∧
  Cardinality (NewPC survey) = {["A" := 2; "B" := 2; "C" := 3]}.
Proof. split; by vm_compute. Qed.

(** *** The test on the estimator's cardinalities

    [Estimate] calls [ChiSquareTest(pc.Data, x, y, condSet,
    pc.Cardinality)]: the table is allocated from the cardinalities that
    [NewPC] read off the same data. *)

(** A table of the allocated shape. *)
Definition shaped (xCard yCard zCard : nat) (t : tensor * list float) : Prop :=
  length t.1 = xCard ∧
  Forall (fun plane => length plane = yCard ∧
                       Forall (fun line => length line = zCard) plane) t.1 ∧
  length t.2 = zCard.

Lemma increment_shaped xCard yCard zCard counts totalCounts xVal yVal zIdx :
  shaped xCard yCard zCard (counts, totalCounts) →
  0 ≤ xVal < Z.of_nat xCard → 0 ≤ yVal < Z.of_nat yCard →
  0 ≤ zIdx < Z.of_nat zCard →
  ∃ counts' totalCounts',
    increment counts xVal yVal zIdx = Some counts' ∧
    increment_total totalCounts zIdx = Some totalCounts' ∧
    shaped xCard yCard zCard (counts', totalCounts').
Proof.
  intros (Hx & Hplanes & Hz) Hxv Hyv Hzv. simpl in *.
  unfold increment, increment_total, tensor in *.
  destruct (lookup_lt_is_Some_2 counts (Z.to_nat xVal)) as [plane Hplane]; [lia|].
  pose proof (Forall_lookup_1 _ _ _ _ Hplanes Hplane) as [Hy Hlines].
  destruct (lookup_lt_is_Some_2 plane (Z.to_nat yVal)) as [line Hline]; [lia|].
  pose proof (Forall_lookup_1 _ _ _ _ Hlines Hline) as Hl; simpl in Hl.
  destruct (lookup_lt_is_Some_2 line (Z.to_nat zIdx)) as [c Hc]; [lia|].
  destruct (lookup_lt_is_Some_2 totalCounts (Z.to_nat zIdx)) as [t Ht]; [lia|].
  eexists _, _.
  destruct (decide (0 ≤ xVal ∧ 0 ≤ yVal ∧ 0 ≤ zIdx)) as [_|Hn]; [|lia].
  destruct (decide (0 ≤ zIdx)) as [_|Hn]; [|lia].
  rewrite Hplane. simpl. rewrite Hline. simpl.
  rewrite Hc, Ht. simpl.
  split; [done|]. split; [done|]. split; [|split]; simpl.
  - by rewrite length_insert.
  - apply Forall_insert; [done|]. split; [by rewrite length_insert|].
    apply Forall_insert; [done|]. by rewrite length_insert.
  - by rewrite length_insert.
Qed.

(** With every value of the data below its variable's cardinality the
    counting loop never leaves the table. *)
Lemma count_samples_shaped x y z cardinality data :
  (∀ sample v val, sample ∈ data → sample !! v = Some val →
     0 ≤ val < at_key cardinality v) →
  prod_card cardinality z < 2 ^ 63 →
  ∀ t, shaped (Z.to_nat (at_key cardinality x)) (Z.to_nat (at_key cardinality y))
              (Z.to_nat (prod_card cardinality z)) t →
  ∃ t', foldl (count_sample x y z cardinality) (Some t) data = Some t'.
Proof.
  intros Hdata Hfit.
  induction data as [|sample data IH]; intros [counts totalCounts] Ht; simpl.
  { by eexists. }
  assert (Hrest : ∀ s v val, s ∈ data → s !! v = Some val →
                             0 ≤ val < at_key cardinality v).
  { intros s v val Hin. apply Hdata. by right. }
  destruct (sample !! x) as [xVal|] eqn:Ex; [|by apply IH].
  destruct (sample !! y) as [yVal|] eqn:Ey; [|by apply IH].
  unfold z_index. destruct (forallb _ z) eqn:Ez; [|by apply IH].
  assert (Hvalid : valid_on z sample cardinality).
  { intros v Hv. rewrite forallb_forall in Ez.
    apply list_elem_of_In, Ez, bool_decide_eq_true in Hv as [val Hval].
    unfold at_key at 1 2. rewrite Hval. simpl.
    apply (Hdata sample v val); [by left|done]. }
  change (foldr _ (0, 1) z) with (foldr (index_step sample cardinality) (0, 1) z).
  rewrite foldr_index_step by done. simpl.
  pose proof (stride_index_range z sample cardinality Hvalid) as Hr.
  pose proof (Hdata sample x xVal ltac:(by left) Ex) as Hx.
  pose proof (Hdata sample y yVal ltac:(by left) Ey) as Hy.
  destruct (increment_shaped _ _ _ counts totalCounts xVal yVal
              (stride_index z sample cardinality) Ht)
    as (counts' & totalCounts' & -> & -> & Ht'); [lia..|].
  simpl. by apply IH.
Qed.

Section chi_square_on_estimator.
Variable M : MathLib.

(** X30.  The test never indexes out of its table on the estimator's own
    cardinalities.  Let every value of the data lie in [[0, 2^63 - 1)]
    and let [pc] be the estimator [NewPC] builds from the data.  For
    any [x] and [y], and any conditioning set of variables of [pc]
    whose joint table has fewer than [2^63] cells,
    [ChiSquareTest(pc.Data, x, y, z, pc.Cardinality)] returns a
    statistic and a p-value; the p-value is never below 0 nor above
    1. *)
Theorem ChiSquareTest_defined_on_NewPC (orders : list (list (string * Z)))
    (data : list (gmap string Z)) (x y : string) (z : list string) :
  reads orders data → small_values data →
  (∀ v, v ∈ z → v ∈ Variables (NewPC_in orders data)) →
  prod_card (Cardinality (NewPC_in orders data)) z < 2 ^ 63 →
  ∃ chiSquare p,
    ChiSquareTest M (Data (NewPC_in orders data)) x y z
      (Cardinality (NewPC_in orders data)) = Some (chiSquare, p) ∧
    (p <? 0)%float = false ∧ (1 <? p)%float = false.
Proof.
  intros Hr Hsmall Hz Hfit. simpl in *.
  destruct (scan_in_spec orders data Hr Hsmall) as (S1 & S2 & S3).
  set (cardinality := (scan_in orders).2) in *.
  assert (Hnonneg : ∀ v, 0 ≤ at_key cardinality v).
  { intros v. unfold at_key.
    destruct (S3 v) as [->|(s & val & Hin & Hs & ->)]; simpl; [lia|].
    pose proof (Hsmall s v val Hin Hs). lia. }
  assert (Hpos : positive_on z cardinality).
  { intros v Hv%Hz. unfold sort_strings in Hv.
    rewrite merge_sort_Permutation, elem_of_elements in Hv.
    apply S1 in Hv as (s & Hin & [val Hs]).
    pose proof (S2 s v val Hin Hs). lia. }
  pose proof (prod_card_pos z cardinality Hpos) as Hprod.
  destruct (count_samples_shaped x y z cardinality data S2 Hfit
              (replicate (Z.to_nat (at_key cardinality x))
                 (replicate (Z.to_nat (at_key cardinality y))
                    (replicate (Z.to_nat (prod_card cardinality z)) 0%float)),
               replicate (Z.to_nat (prod_card cardinality z)) 0%float))
    as [[counts totalCounts] Hloop].
  { split; [|split]; simpl.
    - by rewrite length_replicate.
    - apply Forall_replicate. split; [by rewrite length_replicate|].
      apply Forall_replicate. by rewrite length_replicate.
    - by rewrite length_replicate. }
  assert (Hc : contingency data x y z cardinality = Some (counts, totalCounts)).
  { unfold contingency. rewrite table_size_prod by done.
    rewrite decide_False; [done|].
    pose proof (Hnonneg x). pose proof (Hnonneg y). lia. }
  unfold ChiSquareTest. rewrite Hc. eexists _, _. split; [reflexivity|].
  pose proof (chiSquarePValue_range M) as Hp. simpl in Hp.
  split; apply Hp.
Qed.

End chi_square_on_estimator.

Lemma ChiSquareTest_defined_on_NewPC_witness :
  ∃ chiSquare p,
    ChiSquareTest example_math (Data (NewPC survey)) "A" "B" ["C"]
      (Cardinality (NewPC survey)) = Some (chiSquare, p) ∧
    (p <? 0)%float = false ∧ (1 <? p)%float = false.
Proof.
  apply (ChiSquareTest_defined_on_NewPC example_math
           (map_to_list <$> survey) survey "A" "B" ["C"]).
  - apply reads_canonical.
  - apply survey_small.
  - intros v Hv. apply list_elem_of_singleton in Hv as ->. vm_compute.
    do 2 right. by left.
  - by vm_compute.
Defined.

End Estimators.
